(** * pynufft: the CPU NUFFT operator ([linalg/nufft_cpu.py]) and the
    single-channel [NUFFT] class ([src/_transform/transform_cpu.py]).

    The development embeds the two classes over exact arithmetic: array
    elements are complex numbers over the Stdlib reals, arrays are flat
    C-ordered buffers with a shape and a dtype tag, Python exceptions are
    values of an error type, and the methods that assign attributes
    ([plan], [_precompute_sp], [selfadjoint2]) thread the object explicitly. *)

From Stdlib Require Import String.
From Stdlib Require Import Reals Lra Lia List Arith PeanoNat Bool ZArith.
From Stdlib Require Import Permutation.
Import ListNotations.

Set Implicit Arguments.

(* ================================================================== *)
(** ** Complex numbers over the reals *)
(* ================================================================== *)

Module Cx.

Local Open Scope R_scope.

Definition C : Type := (R * R)%type.

Definition C0 : C := (0, 0).
Definition C1 : C := (1, 0).
Definition Cre (z : C) : R := fst z.
Definition Cim (z : C) : R := snd z.
Definition Cadd (a b : C) : C := (fst a + fst b, snd a + snd b).
Definition Cmul (a b : C) : C :=
  (fst a * fst b - snd a * snd b, fst a * snd b + snd a * fst b).
Definition Cneg (a : C) : C := (- fst a, - snd a).
Definition Cconj (a : C) : C := (fst a, - snd a).
Definition Cof_R (r : R) : C := (r, 0).
Definition Cnorm2 (a : C) : R := fst a * fst a + snd a * snd a.
Definition Cmod (a : C) : R := sqrt (Cnorm2 a).

(** [exp (i * t)] *)
Definition Cexp (t : R) : C := (cos t, sin t).

(** Principal square root, numpy's [z ** 0.5]. *)
Definition Csqrt (z : C) : C :=
  let m := Cmod z in
  (sqrt ((m + fst z) / 2),
   if Rlt_dec (snd z) 0 then - sqrt ((m - fst z) / 2) else sqrt ((m - fst z) / 2)).

Lemma C_eq (a b : C) : fst a = fst b -> snd a = snd b -> a = b.
Proof. destruct a, b; simpl; intros; subst; reflexivity. Qed.

Ltac csolve :=
  intros;
  repeat match goal with z : C |- _ => destruct z end;
  unfold Cadd, Cmul, Cneg, Cconj, Cof_R, C0, C1, Cnorm2 in *; simpl in *;
  try (apply C_eq; simpl; try ring; try lra).

Lemma Cadd_comm a b : Cadd a b = Cadd b a. Proof. csolve. Qed.
Lemma Cadd_assoc a b c : Cadd a (Cadd b c) = Cadd (Cadd a b) c. Proof. csolve. Qed.
Lemma Cadd_0_l a : Cadd C0 a = a. Proof. csolve. Qed.
Lemma Cadd_0_r a : Cadd a C0 = a. Proof. csolve. Qed.
Lemma Cmul_comm a b : Cmul a b = Cmul b a. Proof. csolve. Qed.
Lemma Cmul_assoc a b c : Cmul a (Cmul b c) = Cmul (Cmul a b) c. Proof. csolve. Qed.
Lemma Cmul_0_l a : Cmul C0 a = C0. Proof. csolve. Qed.
Lemma Cmul_0_r a : Cmul a C0 = C0. Proof. csolve. Qed.
Lemma Cmul_1_l a : Cmul C1 a = a. Proof. csolve. Qed.
Lemma Cmul_1_r a : Cmul a C1 = a. Proof. csolve. Qed.
Lemma Cmul_add_l a b c : Cmul a (Cadd b c) = Cadd (Cmul a b) (Cmul a c).
Proof. csolve. Qed.
Lemma Cmul_add_r a b c : Cmul (Cadd a b) c = Cadd (Cmul a c) (Cmul b c).
Proof. csolve. Qed.
Lemma Cconj_add a b : Cconj (Cadd a b) = Cadd (Cconj a) (Cconj b).
Proof. csolve. Qed.
Lemma Cconj_mul a b : Cconj (Cmul a b) = Cmul (Cconj a) (Cconj b).
Proof. csolve. Qed.
Lemma Cconj_conj a : Cconj (Cconj a) = a. Proof. csolve. Qed.
Lemma Cconj_0 : Cconj C0 = C0. Proof. csolve. Qed.
Lemma Cconj_of_R r : Cconj (Cof_R r) = Cof_R r. Proof. csolve. Qed.
Lemma Cconj_real a : snd a = 0 -> Cconj a = a.
Proof. csolve. Qed.
Lemma Cexp_0 : Cexp 0 = C1.
Proof. unfold Cexp, C1. rewrite cos_0, sin_0. reflexivity. Qed.
Lemma Cconj_exp t : Cconj (Cexp t) = Cexp (- t).
Proof. unfold Cexp, Cconj; simpl. rewrite cos_neg, sin_neg. reflexivity. Qed.

End Cx.
Import Cx.

Open Scope nat_scope.

(* ================================================================== *)
(** ** Python exceptions and the error monad *)
(* ================================================================== *)

Inductive exn : Type :=
| ValueError        (* numpy broadcasting / reshape / scipy dimension mismatch *)
| IndexError        (* fancy index out of bounds *)
| AttributeError    (* attribute read before [plan] assigned it *)
| KeyError          (* missing key of the [st] dictionary *)
| ConfigurationError
| PlanError
| ShapeMismatchError
| OtherError (tag : nat).   (* whatever the external builder raises *)

Inductive result (A : Type) : Type :=
| Ok (a : A)
| Raise (e : exn).
Arguments Ok {A} a.
Arguments Raise {A} e.

Definition bind {A B} (m : result A) (f : A -> result B) : result B :=
  match m with Ok a => f a | Raise e => Raise e end.

Notation "x <- m ;; k" := (bind m (fun x => k))
  (at level 61, m at next level, right associativity).

(** Reading an attribute (or dictionary key) that may not have been assigned. *)
Definition attr {A} (o : option A) : result A :=
  match o with Some a => Ok a | None => Raise AttributeError end.
Definition key {A} (o : option A) : result A :=
  match o with Some a => Ok a | None => Raise KeyError end.

Definition is_ok {A} (r : result A) : bool :=
  match r with Ok _ => true | Raise _ => false end.

Lemma bind_ok {A B} (m : result A) (f : A -> result B) a :
  m = Ok a -> bind m f = f a.
Proof. intros ->; reflexivity. Qed.

(* ================================================================== *)
(** ** numpy: dtypes, shapes, flat C-ordered arrays *)
(* ================================================================== *)

Inductive dtype : Type := float32 | float64 | complex64 | complex128.

Definition is_complex (d : dtype) : bool :=
  match d with complex64 | complex128 => true | _ => false end.
Definition is_double (d : dtype) : bool :=
  match d with float64 | complex128 => true | _ => false end.

(** [numpy.result_type] on the four floating dtypes: the kind and the
    precision are each the larger of the two operands'. *)
Definition result_type (a b : dtype) : dtype :=
  match is_complex a || is_complex b, is_double a || is_double b with
  | true, true => complex128
  | true, false => complex64
  | false, true => float64
  | false, false => float32
  end.

(** [numpy.prod] of a shape tuple. *)
Definition prod (s : list nat) : nat := fold_right Nat.mul 1 s.

Record ndarray : Type := mk_ndarray {
  dt : dtype;
  shape : list nat;
  data : list C            (* the buffer in C (row-major) order *)
}.

(** The record describes an array when the buffer has [prod shape] cells. *)
Definition wf_array (a : ndarray) : Prop := length (data a) = prod (shape a).

Definition zeros (s : list nat) (d : dtype) : ndarray :=
  mk_ndarray d s (repeat C0 (prod s)).
Definition ones (s : list nat) (d : dtype) : ndarray :=
  mk_ndarray d s (repeat C1 (prod s)).
Definition astype (a : ndarray) (d : dtype) : ndarray :=
  mk_ndarray d (shape a) (data a).

(** [numpy.reshape(a, s, order='C')] *)
Definition reshape (a : ndarray) (s : list nat) : result ndarray :=
  if prod s =? prod (shape a) then Ok (mk_ndarray (dt a) s (data a))
  else Raise ValueError.

(** *** Broadcasting *)

(** Broadcast two shapes given last axis first. *)
Fixpoint bshape_rev (s t : list nat) : option (list nat) :=
  match s, t with
  | [], _ => Some t
  | _, [] => Some s
  | a :: s', b :: t' =>
      match bshape_rev s' t' with
      | None => None
      | Some r =>
          if a =? b then Some (a :: r)
          else if a =? 1 then Some (b :: r)
          else if b =? 1 then Some (a :: r)
          else None
      end
  end.

(** [numpy.broadcast_shapes] *)
Definition broadcast_shapes (s t : list nat) : option (list nat) :=
  option_map (@rev nat) (bshape_rev (rev s) (rev t)).

(** The [i]-th of the consecutive blocks of [c] cells. *)
Definition chunk (c i : nat) (d : list C) : list C := firstn c (skipn (i * c) d).

(** Expand a buffer of shape [s] to shape [t], both of the same rank and
    [s] broadcastable to [t]: an axis of length 1 is repeated. *)
Fixpoint bcast (s t : list nat) (d : list C) : list C :=
  match s, t with
  | a :: s', b :: t' =>
      if a =? b
      then flat_map (fun i => bcast s' t' (chunk (prod s') i d)) (seq 0 a)
      else flat_map (fun _ => bcast s' t' d) (seq 0 b)
  | _, _ => d
  end.

(** Left-pad a shape with 1s to rank [n]. *)
Definition pad_shape (n : nat) (s : list nat) : list nat :=
  repeat 1 (n - length s) ++ s.

Definition broadcast_to (a : ndarray) (t : list nat) : list C :=
  bcast (pad_shape (length t) (shape a)) t (data a).

Fixpoint map2 {A B D} (f : A -> B -> D) (u : list A) (v : list B) : list D :=
  match u, v with
  | a :: u', b :: v' => f a b :: map2 f u' v'
  | _, _ => []
  end.

(** [a * b] on arrays. *)
Definition multiply (a b : ndarray) : result ndarray :=
  match broadcast_shapes (shape a) (shape b) with
  | None => Raise ValueError
  | Some t =>
      Ok (mk_ndarray (result_type (dt a) (dt b)) t
            (map2 Cmul (broadcast_to a t) (broadcast_to b t)))
  end.

(** [a.conj()] and [a ** 0.5] *)
Definition conj (a : ndarray) : ndarray :=
  mk_ndarray (dt a) (shape a) (map Cconj (data a)).
Definition pow_half (a : ndarray) : ndarray :=
  mk_ndarray (dt a) (shape a) (map Csqrt (data a)).

(** *** Fancy indexing of the flattened buffer *)

(** [a.ravel()[idx]] *)
Definition take (a : ndarray) (idx : list nat) : result ndarray :=
  if forallb (fun i => i <? prod (shape a)) idx
  then Ok (mk_ndarray (dt a) [length idx] (map (fun i => nth i (data a) C0) idx))
  else Raise IndexError.

Fixpoint upd (i : nat) (v : C) (l : list C) : list C :=
  match l, i with
  | [], _ => []
  | _ :: l', 0 => v :: l'
  | x :: l', S i' => x :: upd i' v l'
  end.

(** Assign in index order, so that a repeated index keeps the last value. *)
Fixpoint put_list (idx : list nat) (vals : list C) (l : list C) : list C :=
  match idx, vals with
  | i :: idx', v :: vals' => put_list idx' vals' (upd i v l)
  | _, _ => l
  end.

(** [a.ravel()[idx] = v] for a C-contiguous [a] (so that [ravel] is a view)
    and a one-dimensional [v]; a [v] of one cell is broadcast.  The result
    keeps the dtype of [a], and the cells are stored with their values:
    numpy's cast to the dtype of [a] changes a cell only when that dtype
    cannot hold the dtype of [v] (a lower precision, where the cell is
    rounded, or a real dtype for complex cells); over exact arithmetic and
    with a buffer dtype that holds the dtype of [v] it changes none. *)
Definition put (a : ndarray) (idx : list nat) (v : ndarray) : result ndarray :=
  if negb (forallb (fun i => i <? prod (shape a)) idx) then Raise IndexError
  else if length (data v) =? length idx
       then Ok (mk_ndarray (dt a) (shape a) (put_list idx (data v) (data a)))
  else if length (data v) =? 1
       then Ok (mk_ndarray (dt a) (shape a)
                  (put_list idx (repeat (nth 0 (data v) C0) (length idx)) (data a)))
  else Raise ValueError.

(** *** numpy.fft *)

Fixpoint Csum (n : nat) (f : nat -> C) : C :=
  match n with
  | 0 => C0
  | S m => Cadd (Csum m f) (f m)
  end.

(** [numpy.ravel_multi_index] in C order. *)
Fixpoint ravel_index (s mi : list nat) : nat :=
  match s, mi with
  | _ :: rest, k :: mi' => k * prod rest + ravel_index rest mi'
  | _, _ => 0
  end.

(** The buffer of the array whose cell at multi-index [mi] is [f mi]. *)
Fixpoint flatten (s : list nat) (f : list nat -> C) : list C :=
  match s with
  | [] => [f []]
  | n :: rest => flat_map (fun k => flatten rest (fun mi => f (k :: mi))) (seq 0 n)
  end.

Definition unflatten (s : list nat) (d : list C) : list nat -> C :=
  fun mi => nth (ravel_index s mi) d C0.

Fixpoint set_axis (a j : nat) (mi : list nat) {struct mi} : list nat :=
  match mi, a with
  | [], _ => []
  | _ :: mi', 0 => j :: mi'
  | k :: mi', S a' => k :: set_axis a' j mi'
  end.

(** [exp (sgn * 2 pi i * j * k / n)] *)
Definition twiddle (sgn : R) (n j k : nat) : C :=
  Cexp (sgn * 2 * PI * INR (j * k) / INR n)%R.

(** The discrete Fourier sum along axis [a] of an array of shape [s]:
    [out[.., k, ..] = sum_j in[.., j, ..] * exp (sgn * 2 pi i j k / n)]. *)
Definition dft_axis (sgn : R) (s : list nat) (a : nat) (f : list nat -> C)
  : list nat -> C :=
  fun mi =>
    Csum (nth a s 0)
         (fun j => Cmul (f (set_axis a j mi)) (twiddle sgn (nth a s 0) j (nth a mi 0))).

(** [numpy.fft.fft(a, axis=ax)] and [numpy.fft.ifft(a, axis=ax)] on the buffer;
    the inverse carries the [1/n] factor (the default [norm]). *)
Definition fft_data (s : list nat) (a : nat) (d : list C) : list C :=
  flatten s (dft_axis (-1) s a (unflatten s d)).
Definition ifft_data (s : list nat) (a : nat) (d : list C) : list C :=
  map (Cmul (Cof_R (/ INR (nth a s 0))))
      (flatten s (dft_axis 1 s a (unflatten s d))).

(** *** scipy.sparse *)

(** A sparse matrix as its stored coordinates; stored duplicates add up.
    The storage format (CSR, CSC) is not modelled: [copy] and [tocsr] keep
    the matrix. *)
Record spmatrix : Type := mk_spmatrix {
  sp_dt : dtype;
  sp_shape : nat * nat;
  entries : list (nat * nat * C)
}.

Definition wf_spmatrix (m : spmatrix) : Prop :=
  Forall (fun e => fst (fst e) < fst (sp_shape m) /\ snd (fst e) < snd (sp_shape m))
         (entries m).

Definition sp_copy (m : spmatrix) : spmatrix := m.
Definition tocsr (m : spmatrix) : spmatrix := m.

(** [m.getH()]: the conjugate transpose. *)
Definition getH (m : spmatrix) : spmatrix :=
  mk_spmatrix (sp_dt m) (snd (sp_shape m), fst (sp_shape m))
    (map (fun e => (snd (fst e), fst (fst e), Cconj (snd e))) (entries m)).

(** Row [r] of the matrix applied to the column [g]. *)
Fixpoint row_sum (es : list (nat * nat * C)) (r : nat) (g : nat -> C) : C :=
  match es with
  | [] => C0
  | (r', c, v) :: es' =>
      if r' =? r then Cadd (Cmul v (g c)) (row_sum es' r g) else row_sum es' r g
  end.

(** The product with [b] columns stored row-major in [x]. *)
Definition spmm (es : list (nat * nat * C)) (rows b : nat) (x : list C) : list C :=
  flat_map (fun r => map (fun bb => row_sum es r (fun c => nth (c * b + bb) x C0))
                         (seq 0 b))
           (seq 0 rows).

(** [m.dot(v)] for a dense [v] of one or two dimensions. *)
Definition dot (m : spmatrix) (v : ndarray) : result ndarray :=
  match shape v with
  | [n] =>
      if n =? snd (sp_shape m)
      then Ok (mk_ndarray (result_type (sp_dt m) (dt v)) [fst (sp_shape m)]
                 (spmm (entries m) (fst (sp_shape m)) 1 (data v)))
      else Raise ValueError
  | [n; b] =>
      if n =? snd (sp_shape m)
      then Ok (mk_ndarray (result_type (sp_dt m) (dt v)) [fst (sp_shape m); b]
                 (spmm (entries m) (fst (sp_shape m)) b (data v)))
      else Raise ValueError
  | _ => Raise ValueError
  end.

(** [a.dot(b)] for two sparse matrices. *)
Definition sp_matmul (a b : spmatrix) : result spmatrix :=
  if snd (sp_shape a) =? fst (sp_shape b)
  then Ok (mk_spmatrix (result_type (sp_dt a) (sp_dt b))
             (fst (sp_shape a), snd (sp_shape b))
             (flat_map (fun ea =>
                flat_map (fun eb =>
                  if fst (fst eb) =? snd (fst ea)
                  then [(fst (fst ea), snd (fst eb), Cmul (snd ea) (snd eb))]
                  else [])
                  (entries b))
                (entries a)))
  else Raise ValueError.

Section Numpy.

(** The dtype a one-dimensional transform of [numpy.fft] returns for an
    input dtype: complex128 whatever the input before numpy 2.0, the input's
    precision from 2.0 on. *)
Variable fft_dtype : dtype -> dtype.

(** The dtype [fftn] and [ifftn] return: each one-dimensional transform
    returns [fft_dtype] of the dtype it receives, and there is one transform
    per entry of [axes]; with no axis the array is returned as it came, in
    its own dtype. *)
Definition fftn_dtype (d : dtype) (axes : list nat) : dtype :=
  fold_right (fun _ d' => fft_dtype d') d axes.

(** [numpy.fft.fftn(a, axes=axes)]: one transform per entry of [axes], the
    last entry first. *)
Definition fftn (a : ndarray) (axes : list nat) : result ndarray :=
  if negb (forallb (fun ax => ax <? length (shape a)) axes) then Raise IndexError
  else if existsb (fun ax => nth ax (shape a) 0 =? 0) axes then Raise ValueError
  else Ok (mk_ndarray (fftn_dtype (dt a) axes) (shape a)
             (fold_right (fft_data (shape a)) (data a) axes)).

Definition ifftn (a : ndarray) (axes : list nat) : result ndarray :=
  if negb (forallb (fun ax => ax <? length (shape a)) axes) then Raise IndexError
  else if existsb (fun ax => nth ax (shape a) 0 =? 0) axes then Raise ValueError
  else Ok (mk_ndarray (fftn_dtype (dt a) axes) (shape a)
             (fold_right (ifft_data (shape a)) (data a) axes)).

End Numpy.

Definition numpy1_fft_dtype (d : dtype) : dtype := complex128.
Definition numpy2_fft_dtype (d : dtype) : dtype :=
  if is_double d then complex128 else complex64.

(* ================================================================== *)
(** ** The interpolator builder's result and the operator object *)
(* ================================================================== *)

(** The sample coordinates [om]: M rows of [ndims] reals. *)
Definition Om : Type := list (list R).

(** The dictionary [st] returned by [helper.plan], with the keys the two
    classes read; ['p'] and ['sn'] can be deleted. *)
Record St : Type := mk_St {
  st_om : Om;
  st_Nd : list nat;
  st_Kd : list nat;
  st_Jd : list nat;
  st_M : nat;
  st_p : option spmatrix;
  st_sn : option ndarray
}.

Definition del_p_sn (s : St) : St :=
  mk_St (st_om s) (st_Nd s) (st_Kd s) (st_Jd s) (st_M s) None None.

(** [numpy.int32(n)]: the value wrapped to 32 bits, two's complement. *)
Definition int32 (n : nat) : Z :=
  ((Z.of_nat n + 2 ^ 31) mod 2 ^ 32 - 2 ^ 31)%Z.

(** An instance of [NUFFT_cpu]: [__init__] assigns [dtype] and [debug], every
    other attribute is absent until [plan] (or [_precompute_sp] for [W])
    assigns it. *)
Record NUFFT_cpu : Type := mk_NUFFT_cpu {
  self_dtype : dtype;
  debug : nat;
  ndims : option nat;
  ft_axes : option (list nat);
  st : option St;
  Nd : option (list nat);
  Kd : option (list nat);
  sn : option ndarray;
  parallel_flag : option nat;
  batch : option nat;
  multi_Nd : option (list nat);
  multi_Kd : option (list nat);
  multi_M : option (list nat);
  multi_prodKd : option (list nat);
  sp : option spmatrix;
  spH : option spmatrix;
  Kdprod : option Z;
  Jdprod : option Z;
  NdCPUorder : option (list nat);
  KdCPUorder : option (list nat);
  nelem : option nat;
  W : option ndarray
}.

Definition set_ndims (v : nat) (o : NUFFT_cpu) : NUFFT_cpu :=
  mk_NUFFT_cpu (self_dtype o) (debug o) (Some v) (ft_axes o) (st o) (Nd o) (Kd o) (sn o) (parallel_flag o) (batch o) (multi_Nd o) (multi_Kd o) (multi_M o) (multi_prodKd o) (sp o) (spH o) (Kdprod o) (Jdprod o) (NdCPUorder o) (KdCPUorder o) (nelem o) (W o).
Definition set_ft_axes (v : (list nat)) (o : NUFFT_cpu) : NUFFT_cpu :=
  mk_NUFFT_cpu (self_dtype o) (debug o) (ndims o) (Some v) (st o) (Nd o) (Kd o) (sn o) (parallel_flag o) (batch o) (multi_Nd o) (multi_Kd o) (multi_M o) (multi_prodKd o) (sp o) (spH o) (Kdprod o) (Jdprod o) (NdCPUorder o) (KdCPUorder o) (nelem o) (W o).
Definition set_st (v : St) (o : NUFFT_cpu) : NUFFT_cpu :=
  mk_NUFFT_cpu (self_dtype o) (debug o) (ndims o) (ft_axes o) (Some v) (Nd o) (Kd o) (sn o) (parallel_flag o) (batch o) (multi_Nd o) (multi_Kd o) (multi_M o) (multi_prodKd o) (sp o) (spH o) (Kdprod o) (Jdprod o) (NdCPUorder o) (KdCPUorder o) (nelem o) (W o).
Definition set_Nd (v : (list nat)) (o : NUFFT_cpu) : NUFFT_cpu :=
  mk_NUFFT_cpu (self_dtype o) (debug o) (ndims o) (ft_axes o) (st o) (Some v) (Kd o) (sn o) (parallel_flag o) (batch o) (multi_Nd o) (multi_Kd o) (multi_M o) (multi_prodKd o) (sp o) (spH o) (Kdprod o) (Jdprod o) (NdCPUorder o) (KdCPUorder o) (nelem o) (W o).
Definition set_Kd (v : (list nat)) (o : NUFFT_cpu) : NUFFT_cpu :=
  mk_NUFFT_cpu (self_dtype o) (debug o) (ndims o) (ft_axes o) (st o) (Nd o) (Some v) (sn o) (parallel_flag o) (batch o) (multi_Nd o) (multi_Kd o) (multi_M o) (multi_prodKd o) (sp o) (spH o) (Kdprod o) (Jdprod o) (NdCPUorder o) (KdCPUorder o) (nelem o) (W o).
Definition set_sn (v : ndarray) (o : NUFFT_cpu) : NUFFT_cpu :=
  mk_NUFFT_cpu (self_dtype o) (debug o) (ndims o) (ft_axes o) (st o) (Nd o) (Kd o) (Some v) (parallel_flag o) (batch o) (multi_Nd o) (multi_Kd o) (multi_M o) (multi_prodKd o) (sp o) (spH o) (Kdprod o) (Jdprod o) (NdCPUorder o) (KdCPUorder o) (nelem o) (W o).
Definition set_parallel_flag (v : nat) (o : NUFFT_cpu) : NUFFT_cpu :=
  mk_NUFFT_cpu (self_dtype o) (debug o) (ndims o) (ft_axes o) (st o) (Nd o) (Kd o) (sn o) (Some v) (batch o) (multi_Nd o) (multi_Kd o) (multi_M o) (multi_prodKd o) (sp o) (spH o) (Kdprod o) (Jdprod o) (NdCPUorder o) (KdCPUorder o) (nelem o) (W o).
Definition set_batch (v : nat) (o : NUFFT_cpu) : NUFFT_cpu :=
  mk_NUFFT_cpu (self_dtype o) (debug o) (ndims o) (ft_axes o) (st o) (Nd o) (Kd o) (sn o) (parallel_flag o) (Some v) (multi_Nd o) (multi_Kd o) (multi_M o) (multi_prodKd o) (sp o) (spH o) (Kdprod o) (Jdprod o) (NdCPUorder o) (KdCPUorder o) (nelem o) (W o).
Definition set_multi_Nd (v : (list nat)) (o : NUFFT_cpu) : NUFFT_cpu :=
  mk_NUFFT_cpu (self_dtype o) (debug o) (ndims o) (ft_axes o) (st o) (Nd o) (Kd o) (sn o) (parallel_flag o) (batch o) (Some v) (multi_Kd o) (multi_M o) (multi_prodKd o) (sp o) (spH o) (Kdprod o) (Jdprod o) (NdCPUorder o) (KdCPUorder o) (nelem o) (W o).
Definition set_multi_Kd (v : (list nat)) (o : NUFFT_cpu) : NUFFT_cpu :=
  mk_NUFFT_cpu (self_dtype o) (debug o) (ndims o) (ft_axes o) (st o) (Nd o) (Kd o) (sn o) (parallel_flag o) (batch o) (multi_Nd o) (Some v) (multi_M o) (multi_prodKd o) (sp o) (spH o) (Kdprod o) (Jdprod o) (NdCPUorder o) (KdCPUorder o) (nelem o) (W o).
Definition set_multi_M (v : (list nat)) (o : NUFFT_cpu) : NUFFT_cpu :=
  mk_NUFFT_cpu (self_dtype o) (debug o) (ndims o) (ft_axes o) (st o) (Nd o) (Kd o) (sn o) (parallel_flag o) (batch o) (multi_Nd o) (multi_Kd o) (Some v) (multi_prodKd o) (sp o) (spH o) (Kdprod o) (Jdprod o) (NdCPUorder o) (KdCPUorder o) (nelem o) (W o).
Definition set_multi_prodKd (v : (list nat)) (o : NUFFT_cpu) : NUFFT_cpu :=
  mk_NUFFT_cpu (self_dtype o) (debug o) (ndims o) (ft_axes o) (st o) (Nd o) (Kd o) (sn o) (parallel_flag o) (batch o) (multi_Nd o) (multi_Kd o) (multi_M o) (Some v) (sp o) (spH o) (Kdprod o) (Jdprod o) (NdCPUorder o) (KdCPUorder o) (nelem o) (W o).
Definition set_sp (v : spmatrix) (o : NUFFT_cpu) : NUFFT_cpu :=
  mk_NUFFT_cpu (self_dtype o) (debug o) (ndims o) (ft_axes o) (st o) (Nd o) (Kd o) (sn o) (parallel_flag o) (batch o) (multi_Nd o) (multi_Kd o) (multi_M o) (multi_prodKd o) (Some v) (spH o) (Kdprod o) (Jdprod o) (NdCPUorder o) (KdCPUorder o) (nelem o) (W o).
Definition set_spH (v : spmatrix) (o : NUFFT_cpu) : NUFFT_cpu :=
  mk_NUFFT_cpu (self_dtype o) (debug o) (ndims o) (ft_axes o) (st o) (Nd o) (Kd o) (sn o) (parallel_flag o) (batch o) (multi_Nd o) (multi_Kd o) (multi_M o) (multi_prodKd o) (sp o) (Some v) (Kdprod o) (Jdprod o) (NdCPUorder o) (KdCPUorder o) (nelem o) (W o).
Definition set_Kdprod (v : Z) (o : NUFFT_cpu) : NUFFT_cpu :=
  mk_NUFFT_cpu (self_dtype o) (debug o) (ndims o) (ft_axes o) (st o) (Nd o) (Kd o) (sn o) (parallel_flag o) (batch o) (multi_Nd o) (multi_Kd o) (multi_M o) (multi_prodKd o) (sp o) (spH o) (Some v) (Jdprod o) (NdCPUorder o) (KdCPUorder o) (nelem o) (W o).
Definition set_Jdprod (v : Z) (o : NUFFT_cpu) : NUFFT_cpu :=
  mk_NUFFT_cpu (self_dtype o) (debug o) (ndims o) (ft_axes o) (st o) (Nd o) (Kd o) (sn o) (parallel_flag o) (batch o) (multi_Nd o) (multi_Kd o) (multi_M o) (multi_prodKd o) (sp o) (spH o) (Kdprod o) (Some v) (NdCPUorder o) (KdCPUorder o) (nelem o) (W o).
Definition set_NdCPUorder (v : (list nat)) (o : NUFFT_cpu) : NUFFT_cpu :=
  mk_NUFFT_cpu (self_dtype o) (debug o) (ndims o) (ft_axes o) (st o) (Nd o) (Kd o) (sn o) (parallel_flag o) (batch o) (multi_Nd o) (multi_Kd o) (multi_M o) (multi_prodKd o) (sp o) (spH o) (Kdprod o) (Jdprod o) (Some v) (KdCPUorder o) (nelem o) (W o).
Definition set_KdCPUorder (v : (list nat)) (o : NUFFT_cpu) : NUFFT_cpu :=
  mk_NUFFT_cpu (self_dtype o) (debug o) (ndims o) (ft_axes o) (st o) (Nd o) (Kd o) (sn o) (parallel_flag o) (batch o) (multi_Nd o) (multi_Kd o) (multi_M o) (multi_prodKd o) (sp o) (spH o) (Kdprod o) (Jdprod o) (NdCPUorder o) (Some v) (nelem o) (W o).
Definition set_nelem (v : nat) (o : NUFFT_cpu) : NUFFT_cpu :=
  mk_NUFFT_cpu (self_dtype o) (debug o) (ndims o) (ft_axes o) (st o) (Nd o) (Kd o) (sn o) (parallel_flag o) (batch o) (multi_Nd o) (multi_Kd o) (multi_M o) (multi_prodKd o) (sp o) (spH o) (Kdprod o) (Jdprod o) (NdCPUorder o) (KdCPUorder o) (Some v) (W o).
Definition set_W (v : ndarray) (o : NUFFT_cpu) : NUFFT_cpu :=
  mk_NUFFT_cpu (self_dtype o) (debug o) (ndims o) (ft_axes o) (st o) (Nd o) (Kd o) (sn o) (parallel_flag o) (batch o) (multi_Nd o) (multi_Kd o) (multi_M o) (multi_prodKd o) (sp o) (spH o) (Kdprod o) (Jdprod o) (NdCPUorder o) (KdCPUorder o) (nelem o) (Some v).

(** [NUFFT_cpu.__init__] *)
Definition init : NUFFT_cpu :=
  mk_NUFFT_cpu complex64 0 None None None None None None None None None None
               None None None None None None None None None None.

(* ================================================================== *)
(** ** [NUFFT_cpu.plan] *)
(* ================================================================== *)

Section Plan.

(** [helper.plan] and [helper.preindex_copy] are the interpolator builder's
    module; the planner only calls them. *)
Variable helper_plan :
  Om -> list nat -> list nat -> list nat -> list nat -> result St.
Variable helper_preindex_copy :
  list nat -> list nat -> result (list nat * list nat * nat).

(** [plan(self, om, Nd, Kd, Jd, ft_axes=None, batch=None)]: the returned
    value (or the exception) and the object as the call leaves it. *)
Definition plan (self : NUFFT_cpu) (om : Om) (Nd_ Kd_ Jd_ : list nat)
    (ft_axes_ : option (list nat)) (batch_ : option nat)
  : result Z * NUFFT_cpu :=
  let self := set_ndims (length Nd_) self in
  let axes := match ft_axes_ with
              | None => seq 0 (length Nd_)
              | Some a => a
              end in
  let self := set_ft_axes axes self in
  match helper_plan om Nd_ Kd_ Jd_ axes with
  | Raise e => (Raise e, self)
  | Ok st0 =>
    let self := set_st st0 self in
    let self := set_Nd (st_Nd st0) self in
    let self := set_Kd (st_Kd st0) self in
    match st_sn st0 with
    | None => (Raise KeyError, self)
    | Some sn0 =>
      let sn1 := astype sn0 (self_dtype self) in
      let self := set_sn sn1 self in
      let self :=
        match batch_ with
        | None => set_batch 1 (set_parallel_flag 0 self)
        | Some b => set_batch b (set_parallel_flag 1 self)
        end in
      let shaped : result unit * NUFFT_cpu :=
        match batch_ with
        | Some b =>
          let self := set_multi_Nd (st_Nd st0 ++ [b]) self in
          let self := set_multi_Kd (st_Kd st0 ++ [b]) self in
          let self := set_multi_M [st_M st0; b] self in
          let self := set_multi_prodKd [prod (st_Kd st0); b] self in
          match reshape sn1 (st_Nd st0 ++ [1]) with
          | Raise e => (Raise e, self)
          | Ok sn2 => (Ok tt, set_sn sn2 self)
          end
        | None =>
          let self := set_multi_Nd (st_Nd st0) self in
          let self := set_multi_Kd (st_Kd st0) self in
          let self := set_multi_M [st_M st0] self in
          (Ok tt, set_multi_prodKd [prod (st_Kd st0)] self)
        end in
      match shaped with
      | (Raise e, self) => (Raise e, self)
      | (Ok _, self) =>
        match st_p st0 with
        | None => (Raise KeyError, self)
        | Some p =>
          let self := set_sp (tocsr (sp_copy p)) self in
          let self := set_spH (tocsr (sp_copy (getH p))) self in
          let self := set_Kdprod (int32 (prod (st_Kd st0))) self in
          let self := set_Jdprod (int32 (prod (st_Jd st0))) self in
          let self := set_st (del_p_sn st0) self in
          match helper_preindex_copy (st_Nd st0) (st_Kd st0) with
          | Raise e => (Raise e, self)
          | Ok (nd, kd, ne) =>
            let self := set_NdCPUorder nd self in
            let self := set_KdCPUorder kd self in
            let self := set_nelem ne self in
            (Ok 0%Z, self)
          end
        end
      end
    end
  end.

End Plan.

(* ================================================================== *)
(** ** The transforms of [NUFFT_cpu] *)
(* ================================================================== *)

(** [for bat in range(0, n): acc = body(bat, acc)] *)
Fixpoint for_range {A} (bats : list nat) (body : nat -> A -> result A) (acc : A)
  : result A :=
  match bats with
  | [] => Ok acc
  | bat :: rest => acc' <- body bat acc ;; for_range rest body acc'
  end.

(** What a method that assigns attributes or prints leaves behind. *)
Inductive event : Type :=
| Print (s : String.string)
| AssignW.

Section Transforms.

Variable fft_dtype : dtype -> dtype.

Definition x2xx (self : NUFFT_cpu) (x : ndarray) : result ndarray :=
  sn_ <- attr (sn self) ;;
  multiply x sn_.

(** The first half of [xx2k]: the zero buffer and the copy loop. *)
Definition scatter (self : NUFFT_cpu) (xx : ndarray) : result ndarray :=
  mKd <- attr (multi_Kd self) ;;
  let output_x := zeros mKd (self_dtype self) in
  b <- attr (batch self) ;;
  for_range (seq 0 b)
       (fun bat out =>
          nd <- attr (NdCPUorder self) ;;
          b <- attr (batch self) ;;
          vals <- take xx (map (fun i => i * b + bat) nd) ;;
          kd <- attr (KdCPUorder self) ;;
          put out (map (fun i => i * b + bat) kd) vals)
       output_x.

Definition xx2k (self : NUFFT_cpu) (xx : ndarray) : result ndarray :=
  output_x <- scatter self xx ;;
  axes <- attr (ft_axes self) ;;
  fftn fft_dtype output_x axes.

Definition k2vec (self : NUFFT_cpu) (k : ndarray) : result ndarray :=
  s <- attr (multi_prodKd self) ;;
  reshape k s.

Definition vec2y (self : NUFFT_cpu) (k_vec : ndarray) : result ndarray :=
  sp_ <- attr (sp self) ;;
  dot sp_ k_vec.

Definition k2y (self : NUFFT_cpu) (k : ndarray) : result ndarray :=
  k_vec <- k2vec self k ;;
  vec2y self k_vec.

Definition y2vec (self : NUFFT_cpu) (y : ndarray) : result ndarray :=
  spH_ <- attr (spH self) ;;
  dot spH_ y.

Definition vec2k (self : NUFFT_cpu) (k_vec : ndarray) : result ndarray :=
  s <- attr (multi_Kd self) ;;
  reshape k_vec s.

Definition y2k (self : NUFFT_cpu) (y : ndarray) : result ndarray :=
  k_vec <- y2vec self y ;;
  vec2k self k_vec.

(** The second half of [k2xx]: the zero buffer and the copy loop. *)
Definition gather (self : NUFFT_cpu) (k : ndarray) : result ndarray :=
  mNd <- attr (multi_Nd self) ;;
  let xx := zeros mNd (self_dtype self) in
  b <- attr (batch self) ;;
  for_range (seq 0 b)
       (fun bat out =>
          kd <- attr (KdCPUorder self) ;;
          b <- attr (batch self) ;;
          vals <- take k (map (fun i => i * b + bat) kd) ;;
          nd <- attr (NdCPUorder self) ;;
          put out (map (fun i => i * b + bat) nd) vals)
       xx.

Definition k2xx (self : NUFFT_cpu) (k : ndarray) : result ndarray :=
  axes <- attr (ft_axes self) ;;
  k <- ifftn fft_dtype k axes ;;
  gather self k.

Definition xx2x (self : NUFFT_cpu) (xx : ndarray) : result ndarray :=
  x2xx self xx.

Definition k2y2k_single (self : NUFFT_cpu) (k : ndarray) : result ndarray :=
  sp_ <- attr (sp self) ;;
  y <- dot sp_ (mk_ndarray (dt k) [prod (shape k)] (data k)) ;;
  spH_ <- attr (spH self) ;;
  k2 <- dot spH_ y ;;
  Kd_ <- attr (Kd self) ;;
  reshape k2 Kd_.

Definition k2y2k (self : NUFFT_cpu) (k : ndarray) : result ndarray :=
  Xk <- k2vec self k ;;
  y <- vec2y self Xk ;;
  k <- y2vec self y ;;
  vec2k self k.

Definition forward (self : NUFFT_cpu) (x : ndarray) : result ndarray :=
  xx <- x2xx self x ;;
  k <- xx2k self xx ;;
  k2y self k.

Definition adjoint (self : NUFFT_cpu) (y : ndarray) : result ndarray :=
  k <- y2k self y ;;
  xx <- k2xx self k ;;
  xx2x self xx.

Definition selfadjoint (self : NUFFT_cpu) (x : ndarray) : result ndarray :=
  xx <- x2xx self x ;;
  k <- xx2k self xx ;;
  k <- k2y2k self k ;;
  xx <- k2xx self k ;;
  xx2x self xx.

(** [_precompute_sp]: the [try] body, then the handler that prints and
    re-raises. *)
Definition _precompute_sp (self : NUFFT_cpu)
  : result unit * NUFFT_cpu * list event :=
  let body : result ndarray :=
    st_ <- attr (st self) ;;
    let W0 := ones [st_M st_] complex64 in
    a <- adjoint self W0 ;;
    W_ <- xx2k self a ;;
    WW <- multiply W_ (conj W_) ;;
    Ok (pow_half WW) in
  match body with
  | Ok w => (Ok tt, set_W w self, [AssignW])
  | Raise e => (Raise e, self, [Print "errors occur in self.precompute_sp()"%string])
  end.

(** The expression [self.k2xx(self.W*self.xx2k(x))]. *)
Definition weighted (self : NUFFT_cpu) (x : ndarray) : result ndarray :=
  W_ <- attr (W self) ;;
  k <- xx2k self x ;;
  Wk <- multiply W_ k ;;
  k2xx self Wk.

(** [selfadjoint2]: the bare [except] catches whatever the first attempt
    raises. *)
Definition selfadjoint2 (self : NUFFT_cpu) (x : ndarray)
  : result ndarray * NUFFT_cpu * list event :=
  match weighted self x with
  | Ok x2 => (Ok x2, self, [])
  | Raise _ =>
      match _precompute_sp self with
      | (Raise e, self', ev) => (Raise e, self', ev)
      | (Ok _, self', ev) => (weighted self' x, self', ev)
      end
  end.

End Transforms.

(** The two copy loops of [xx2k] and [k2xx] on the buffers: for every
    [bat], cell [dst_idx[i]*b + bat] of the target receives cell
    [src_idx[i]*b + bat] of the source. *)
Definition copy_loop (src_idx dst_idx : list nat) (b : nat) (src dst : list C)
  : list C :=
  fold_left
    (fun acc bat =>
       put_list (map (fun i => i * b + bat) dst_idx)
                (map (fun j => nth j src C0) (map (fun i => i * b + bat) src_idx))
                acc)
    (seq 0 b) dst.

(** Pointwise linear combination of two buffers. *)
Definition lincomb (a : C) (u : list C) (b : C) (v : list C) : list C :=
  map2 (fun p q => Cadd (Cmul a p) (Cmul b q)) u v.

(** The complex inner product [sum_i u[i] * conj(v[i])]. *)
Fixpoint inner (u v : list C) : C :=
  match u, v with
  | a :: u', b :: v' => Cadd (Cmul a (Cconj b)) (inner u' v')
  | _, _ => C0
  end.

(** Sum of a list of complex numbers. *)
Fixpoint Clsum (l : list C) : C :=
  match l with
  | [] => C0
  | a :: l' => Cadd a (Clsum l')
  end.

(** The reorder tables pair every cell of the flattened [Nd] buffer with a
    distinct cell of the flattened [Kd] buffer. *)
Definition valid_tables (Nd_ Kd_ nd kd : list nat) : Prop :=
  length nd = length kd /\
  Permutation nd (seq 0 (prod Nd_)) /\
  NoDup kd /\
  Forall (fun i => i < prod Kd_) kd.

(** Modelled from the spec: [helper.preindex_copy] is not in the sources.
    The spec's ReorderTables are two equal-length index sequences such that
    position [NdOrder[i]] of the flattened [Nd] buffer corresponds to
    position [KdOrder[i]] of the flattened [Kd] buffer (centered
    zero-padding), their length being the number of cells copied.  Along
    each axis the [min Nd Kd] copied cells sit in the middle of either
    grid; the pairs are listed in C order. *)
Fixpoint index_pairs (Nd_ Kd_ : list nat) : list (nat * nat) :=
  match Nd_, Kd_ with
  | n :: Nd', k :: Kd' =>
      let e := Nat.min n k in
      flat_map
        (fun i =>
           map (fun p => ((i + (n - e) / 2) * prod Nd' + fst p,
                          (i + (k - e) / 2) * prod Kd' + snd p))
               (index_pairs Nd' Kd'))
        (seq 0 e)
  | _, _ => [(0, 0)]
  end.

Definition preindex_copy (Nd_ Kd_ : list nat) : result (list nat * list nat * nat) :=
  let ps := index_pairs Nd_ Kd_ in
  Ok (map fst ps, map snd ps, length ps).

(* ================================================================== *)
(** ** Lists, sums and index arithmetic *)
(* ================================================================== *)

Lemma map2_length {A B D} (f : A -> B -> D) u v :
  length (map2 f u v) = Nat.min (length u) (length v).
Proof.
  revert v; induction u as [|a u IH]; intros [|b v]; simpl; auto.
Qed.

Lemma nth_map2 {A B D} (f : A -> B -> D) u v i da db dd :
  i < length u -> i < length v ->
  nth i (map2 f u v) dd = f (nth i u da) (nth i v db).
Proof.
  revert v i; induction u as [|a u IH]; intros [|b v] [|i]; simpl; intros; try lia; auto.
  apply IH; lia.
Qed.

Lemma prod_app s t : prod (s ++ t) = prod s * prod t.
Proof.
  induction s as [|a s IH]; simpl; [lia|]. rewrite IH. lia.
Qed.

Lemma prod_pos s : Forall (lt 0) s -> 0 < prod s.
Proof.
  induction 1; simpl; [lia|]. apply Nat.mul_pos_pos; assumption.
Qed.

Lemma Csum_ext n f g : (forall i, i < n -> f i = g i) -> Csum n f = Csum n g.
Proof.
  induction n as [|n IH]; intros H; simpl; [reflexivity|].
  rewrite IH, H by (intros; auto). reflexivity.
Qed.

Lemma Csum_zero n : Csum n (fun _ => C0) = C0.
Proof.
  induction n as [|n IH]; simpl; [reflexivity|]. rewrite IH. apply Cadd_0_l.
Qed.

Lemma Csum_add n f g :
  Csum n (fun i => Cadd (f i) (g i)) = Cadd (Csum n f) (Csum n g).
Proof.
  induction n as [|n IH]; simpl.
  - symmetry; apply Cadd_0_l.
  - rewrite IH. generalize (Csum n f) (Csum n g) (f n) (g n). csolve.
Qed.

Lemma Csum_scal n c f : Csum n (fun i => Cmul c (f i)) = Cmul c (Csum n f).
Proof.
  induction n as [|n IH]; simpl.
  - symmetry; apply Cmul_0_r.
  - rewrite IH, Cmul_add_l. reflexivity.
Qed.

Lemma Csum_scal_r n c f : Csum n (fun i => Cmul (f i) c) = Cmul (Csum n f) c.
Proof.
  rewrite Cmul_comm, <- Csum_scal. apply Csum_ext; intros; apply Cmul_comm.
Qed.

Lemma Csum_conj n f : Cconj (Csum n f) = Csum n (fun i => Cconj (f i)).
Proof.
  induction n as [|n IH]; simpl.
  - apply Cconj_0.
  - rewrite Cconj_add, IH. reflexivity.
Qed.

Lemma Csum_swap n m (f : nat -> nat -> C) :
  Csum n (fun i => Csum m (fun j => f i j)) =
  Csum m (fun j => Csum n (fun i => f i j)).
Proof.
  induction n as [|n IH]; simpl.
  - symmetry; apply Csum_zero.
  - rewrite IH, <- Csum_add. reflexivity.
Qed.

(** A sum whose summand vanishes off one index. *)
Lemma Csum_single n a f :
  a < n -> (forall i, i < n -> i <> a -> f i = C0) -> Csum n f = f a.
Proof.
  induction n as [|n IH]; intros Ha H; [lia|]. simpl.
  destruct (Nat.eq_dec a n) as [->|Hne].
  - rewrite (@Csum_ext n f (fun _ => C0)), Csum_zero, Cadd_0_l; auto.
    intros; apply H; lia.
  - rewrite IH by (try lia; intros; apply H; lia).
    rewrite (H n) by lia. apply Cadd_0_r.
Qed.

Lemma Clsum_app l1 l2 : Clsum (l1 ++ l2) = Cadd (Clsum l1) (Clsum l2).
Proof.
  induction l1 as [|a l1 IH]; simpl.
  - symmetry; apply Cadd_0_l.
  - rewrite IH. apply Cadd_assoc.
Qed.

Lemma Clsum_perm l1 l2 : Permutation l1 l2 -> Clsum l1 = Clsum l2.
Proof.
  induction 1; simpl; try congruence.
  rewrite !Cadd_assoc, (Cadd_comm y x). reflexivity.
Qed.

Lemma Clsum_seq n f : Clsum (map f (seq 0 n)) = Csum n f.
Proof.
  induction n as [|n IH]; [reflexivity|].
  rewrite seq_S, map_app, Clsum_app, IH. simpl. rewrite Cadd_0_r. reflexivity.
Qed.

(** *** Index assignment *)

Lemma upd_length i v l : length (upd i v l) = length l.
Proof.
  revert i; induction l as [|x l IH]; intros [|i]; simpl; auto.
Qed.

Lemma nth_upd_eq i v l d : i < length l -> nth i (upd i v l) d = v.
Proof.
  revert i; induction l as [|x l IH]; intros [|i]; simpl; intros; try lia; auto.
  apply IH; lia.
Qed.

Lemma nth_upd_neq i q v l d : i <> q -> nth q (upd i v l) d = nth q l d.
Proof.
  revert i q; induction l as [|x l IH]; intros [|i] [|q]; simpl; intros; try lia; auto.
Qed.

Lemma put_list_length idx vals l : length (put_list idx vals l) = length l.
Proof.
  revert vals l; induction idx as [|i idx IH]; intros [|v vals] l; simpl; auto.
  rewrite IH. apply upd_length.
Qed.

Lemma put_list_miss idx vals l q d :
  ~ In q idx -> nth q (put_list idx vals l) d = nth q l d.
Proof.
  revert vals l; induction idx as [|i idx IH]; intros [|v vals] l Hq; simpl; auto.
  rewrite IH by (intros H; apply Hq; right; exact H).
  apply nth_upd_neq. intros ->. apply Hq; left; reflexivity.
Qed.

Lemma put_list_hit idx vals l i q v d :
  NoDup idx -> nth_error idx i = Some q -> nth_error vals i = Some v ->
  q < length l -> nth q (put_list idx vals l) d = v.
Proof.
  revert vals l i; induction idx as [|a idx IH]; intros [|w vals] l [|i] Hnd Hi Hv Hq;
    simpl in *; try discriminate.
  - injection Hi as ->. injection Hv as ->.
    rewrite put_list_miss by (inversion Hnd; assumption).
    apply nth_upd_eq; assumption.
  - inversion Hnd; subst. eapply IH; eauto. rewrite upd_length; assumption.
Qed.

Lemma NoDup_map_affine (b bat : nat) l :
  0 < b -> NoDup l -> NoDup (map (fun i => i * b + bat) l).
Proof.
  intros Hb; induction 1 as [|x l Hx Hnd IH]; simpl; constructor; auto.
  rewrite in_map_iff. intros (y & Hy & Hin).
  assert (y = x) by nia. subst; contradiction.
Qed.

Section CopyLoop.

Variables (src_idx dst_idx : list nat) (b : nat) (src : list C).

Let step (acc : list C) (bat : nat) : list C :=
  put_list (map (fun i => i * b + bat) dst_idx)
           (map (fun j => nth j src C0) (map (fun i => i * b + bat) src_idx))
           acc.

Lemma copy_fold_length bs dst : length (fold_left step bs dst) = length dst.
Proof.
  revert dst; induction bs as [|bt bs IH]; intros dst; simpl; auto.
  rewrite IH. apply put_list_length.
Qed.

Lemma copy_fold_miss bs dst q d :
  (forall bat i, In bat bs -> In i dst_idx -> q <> i * b + bat) ->
  nth q (fold_left step bs dst) d = nth q dst d.
Proof.
  revert dst; induction bs as [|bt bs IH]; intros dst H; simpl; auto.
  rewrite IH by (intros; apply H; simpl; auto).
  apply put_list_miss. rewrite in_map_iff. intros (i & Hi & Hin).
  apply (H bt i); simpl; auto.
Qed.

Lemma copy_fold_hit bs dst bat i di si d :
  NoDup dst_idx -> NoDup bs -> Forall (fun x => x < b) bs -> In bat bs ->
  nth_error dst_idx i = Some di -> nth_error src_idx i = Some si ->
  di * b + bat < length dst ->
  nth (di * b + bat) (fold_left step bs dst) d = nth (si * b + bat) src C0.
Proof.
  intros Hnd. revert dst.
  induction bs as [|bt bs IH]; intros dst Hbs Hlt Hin Hdi Hsi Hlen; [contradiction|].
  simpl. inversion Hbs as [|? ? Hnotin Hbs']; subst.
  inversion Hlt as [|? ? Hbt Hlt']; subst.
  destruct (Nat.eq_dec bt bat) as [->|Hne].
  - rewrite copy_fold_miss.
    + unfold step. eapply put_list_hit.
      * apply NoDup_map_affine; [lia | assumption].
      * rewrite nth_error_map, Hdi. reflexivity.
      * rewrite !nth_error_map, Hsi. reflexivity.
      * assumption.
    + intros bat' i' Hb' _ Heq.
      assert (bat' < b) by (rewrite Forall_forall in Hlt'; auto).
      assert (bat' = bat) by (destruct (Nat.lt_trichotomy di i') as [|[|]]; nia).
      subst; contradiction.
  - destruct Hin as [?|Hin]; [contradiction|].
    apply IH; auto. unfold step; rewrite put_list_length; assumption.
Qed.

End CopyLoop.

Lemma copy_loop_length si di b src dst :
  length (copy_loop si di b src dst) = length dst.
Proof. unfold copy_loop. apply copy_fold_length. Qed.

Lemma copy_loop_hit si di b src dst bat i dq sq d :
  NoDup di -> bat < b ->
  nth_error di i = Some dq -> nth_error si i = Some sq ->
  dq * b + bat < length dst ->
  nth (dq * b + bat) (copy_loop si di b src dst) d = nth (sq * b + bat) src C0.
Proof.
  intros. unfold copy_loop. apply copy_fold_hit with (i := i); auto.
  - apply seq_NoDup.
  - rewrite Forall_forall. intros x Hx. apply in_seq in Hx. lia.
  - apply in_seq. lia.
Qed.

Lemma copy_loop_miss si di b src dst q d :
  (forall bat i, bat < b -> In i di -> q <> i * b + bat) ->
  nth q (copy_loop si di b src dst) d = nth q dst d.
Proof.
  intros H. unfold copy_loop. apply copy_fold_miss.
  intros bat i Hb Hi. apply H; auto. apply in_seq in Hb. lia.
Qed.

(** Scatter with the tables, then gather with the same tables. *)
Lemma copy_roundtrip Nd_ Kd_ nd kd b xx :
  valid_tables Nd_ Kd_ nd kd ->
  length xx = prod Nd_ * b ->
  copy_loop kd nd b
    (copy_loop nd kd b xx (repeat C0 (prod Kd_ * b)))
    (repeat C0 (prod Nd_ * b)) = xx.
Proof.
  intros (Hlen & Hperm & Hnd & Hlt) Hxx.
  apply nth_ext with (d := C0) (d' := C0).
  - rewrite copy_loop_length, repeat_length. auto.
  - rewrite copy_loop_length, repeat_length. intros q Hq.
    assert (Hb : 0 < b) by nia.
    assert (Hq1 : q / b < prod Nd_) by (apply Nat.Div0.div_lt_upper_bound; lia).
    assert (Hin : In (q / b) nd).
    { eapply Permutation_in; [symmetry; exact Hperm|]. apply in_seq. lia. }
    apply In_nth_error in Hin. destruct Hin as (i & Hi).
    assert (Hik : exists ki, nth_error kd i = Some ki).
    { destruct (nth_error kd i) eqn:E; eauto.
      apply nth_error_None in E.
      assert (i < length nd) by (apply nth_error_Some; congruence). lia. }
    destruct Hik as (ki & Hki).
    assert (Hkix : ki < prod Kd_).
    { rewrite Forall_forall in Hlt. apply Hlt. eapply nth_error_In; eauto. }
    assert (Hmod : q mod b < b) by (apply Nat.mod_upper_bound; lia).
    assert (Hqeq : q = q / b * b + q mod b).
    { rewrite Nat.mul_comm. apply Nat.div_mod_eq. }
    rewrite Hqeq at 1.
    rewrite copy_loop_hit with (i := i) (sq := ki); auto.
    + rewrite copy_loop_hit with (i := i) (sq := q / b); auto.
      * rewrite <- Hqeq. reflexivity.
      * rewrite repeat_length. nia.
    + eapply Permutation_NoDup; [symmetry; exact Hperm | apply seq_NoDup].
    + rewrite repeat_length. nia.
Qed.

(** *** Blocks of a C-ordered buffer *)

#[local] Arguments Nat.div : simpl never.
#[local] Arguments Nat.modulo : simpl never.

Lemma map_add_seq k n : map (fun a => k + a) (seq 0 n) = seq k n.
Proof.
  revert k; induction n as [|n IH]; intros k; simpl; [reflexivity|].
  rewrite Nat.add_0_r. f_equal.
  rewrite <- seq_shift, map_map. rewrite <- (IH (S k)).
  apply map_ext; intros; lia.
Qed.

Lemma seq_blocks P n :
  flat_map (fun i => map (fun a => i * P + a) (seq 0 P)) (seq 0 n) = seq 0 (n * P).
Proof.
  induction n as [|n IH]; [reflexivity|].
  rewrite seq_S, flat_map_app, IH. simpl. rewrite app_nil_r, map_add_seq.
  replace (P + n * P) with (n * P + P) by lia.
  rewrite seq_app. reflexivity.
Qed.

Lemma flat_map_ext_in {A B} (f g : A -> list B) l :
  (forall x, In x l -> f x = g x) -> flat_map f l = flat_map g l.
Proof.
  induction l as [|x l IH]; intros H; simpl; [reflexivity|].
  rewrite H by (simpl; auto).
  rewrite IH by (intros; apply H; simpl; auto). reflexivity.
Qed.

Lemma chunk_length P i d : (i + 1) * P <= length d -> length (chunk P i d) = P.
Proof.
  intros H. unfold chunk. rewrite length_firstn, length_skipn. lia.
Qed.

Lemma flat_map_chunks P a d :
  length d = a * P -> flat_map (fun i => chunk P i d) (seq 0 a) = d.
Proof.
  revert d; induction a as [|a IH]; intros d Hd.
  - destruct d; simpl in *; [reflexivity | discriminate].
  - rewrite seq_S, flat_map_app. simpl. rewrite app_nil_r.
    transitivity (firstn (a * P) d ++ skipn (a * P) d); [|apply firstn_skipn].
    f_equal.
    + rewrite <- (IH (firstn (a * P) d)) by (rewrite length_firstn; lia).
      apply flat_map_ext_in. intros i Hi. apply in_seq in Hi. unfold chunk.
      rewrite skipn_firstn_comm, firstn_firstn.
      f_equal. nia.
    + unfold chunk. apply firstn_all2. rewrite length_skipn. lia.
Qed.

(** *** The spec-modelled reorder tables *)

Lemma index_pairs_fst Nd_ Kd_ :
  Forall2 le Nd_ Kd_ -> map fst (index_pairs Nd_ Kd_) = seq 0 (prod Nd_).
Proof.
  induction 1 as [|n k Nd' Kd' Hle H IH]; [reflexivity|].
  simpl. rewrite Nat.min_l by assumption.
  rewrite Nat.sub_diag. change (0 / 2) with 0.
  rewrite <- seq_blocks.
  rewrite flat_map_concat_map, concat_map, map_map, <- flat_map_concat_map.
  apply flat_map_ext. intros i. rewrite map_map. simpl.
  rewrite <- IH, map_map. apply map_ext. intros p. f_equal. lia.
Qed.

Lemma index_pairs_snd_lt Nd_ Kd_ :
  Forall2 le Nd_ Kd_ -> Forall (fun i => i < prod Kd_) (map snd (index_pairs Nd_ Kd_)).
Proof.
  induction 1 as [|n k Nd' Kd' Hle H IH]; simpl.
  - repeat constructor.
  - rewrite Nat.min_l by assumption.
    rewrite Forall_forall in *. intros q Hq.
    rewrite in_map_iff in Hq. destruct Hq as (p & <- & Hp).
    rewrite in_flat_map in Hp. destruct Hp as (i & Hi & Hp).
    rewrite in_map_iff in Hp. destruct Hp as (p' & <- & Hp'). simpl.
    apply in_seq in Hi.
    assert (snd p' < prod Kd') by (apply IH; apply in_map; assumption).
    assert (Ho : (k - n) / 2 <= k - n) by (apply Nat.Div0.div_le_upper_bound; lia).
    set (o := (k - n) / 2) in *. clearbody o.
    apply Nat.lt_le_trans with ((i + o + 1) * prod Kd'); [lia|].
    apply Nat.mul_le_mono_r; lia.
Qed.

Lemma NoDup_blocks P off L s n :
  NoDup L -> Forall (fun x => x < P) L ->
  NoDup (flat_map (fun i => map (fun x => (i + off) * P + x) L) (seq s n)).
Proof.
  intros HL Hlt. revert s; induction n as [|n IH]; intros s; simpl; [constructor|].
  apply NoDup_app.
  - clear IH. induction HL as [|x L Hx HL IHL]; simpl; constructor.
    + rewrite in_map_iff. intros (y & Hy & Hin).
      assert (y = x) by lia. subst; contradiction.
    + apply IHL. inversion Hlt; assumption.
  - apply IH.
  - intros q Hq1 Hq2.
    rewrite in_map_iff in Hq1. destruct Hq1 as (x & <- & Hx).
    rewrite in_flat_map in Hq2. destruct Hq2 as (i & Hi & Hq2).
    rewrite in_map_iff in Hq2. destruct Hq2 as (y & Hy & Hyin).
    apply in_seq in Hi. rewrite Forall_forall in Hlt.
    assert (x < P) by auto. assert (y < P) by auto. nia.
Qed.

Lemma index_pairs_snd_NoDup Nd_ Kd_ :
  Forall2 le Nd_ Kd_ -> NoDup (map snd (index_pairs Nd_ Kd_)).
Proof.
  intros H. pose proof (index_pairs_snd_lt H) as Hlt.
  induction H as [|n k Nd' Kd' Hle H IH]; simpl.
  - repeat constructor. simpl; tauto.
  - rewrite Nat.min_l by assumption.
    rewrite flat_map_concat_map, concat_map, map_map, <- flat_map_concat_map.
    erewrite flat_map_ext.
    + apply (@NoDup_blocks (prod Kd') ((k - n) / 2) (map snd (index_pairs Nd' Kd')) 0 n).
      * apply IH. apply index_pairs_snd_lt; assumption.
      * apply index_pairs_snd_lt; assumption.
    + intros i. rewrite !map_map. reflexivity.
Qed.

(** The modelled tables are valid whenever [Kd[i] >= Nd[i]] on every axis. *)
Lemma preindex_copy_valid Nd_ Kd_ :
  Forall2 le Nd_ Kd_ ->
  exists nd kd ne,
    preindex_copy Nd_ Kd_ = Ok (nd, kd, ne) /\ valid_tables Nd_ Kd_ nd kd /\
    nd = seq 0 (prod Nd_) /\ ne = prod Nd_.
Proof.
  intros H. unfold preindex_copy.
  eexists _, _, _. split; [reflexivity|].
  pose proof (index_pairs_fst H) as Hf.
  repeat split.
  - rewrite !length_map. reflexivity.
  - rewrite Hf. apply Permutation_refl.
  - apply index_pairs_snd_NoDup; assumption.
  - apply index_pairs_snd_lt; assumption.
  - assumption.
  - rewrite <- (length_map fst), Hf, length_seq. reflexivity.
Qed.

(** *** Broadcasting *)

Lemma bshape_rev_refl s : bshape_rev s s = Some s.
Proof.
  induction s as [|a s IH]; simpl; [reflexivity|].
  rewrite IH, Nat.eqb_refl. reflexivity.
Qed.

Lemma broadcast_shapes_refl s : broadcast_shapes s s = Some s.
Proof.
  unfold broadcast_shapes. rewrite bshape_rev_refl. simpl.
  rewrite rev_involutive. reflexivity.
Qed.

Lemma broadcast_shapes_batch s b :
  broadcast_shapes (s ++ [b]) (s ++ [1]) = Some (s ++ [b]).
Proof.
  unfold broadcast_shapes. rewrite !rev_app_distr. simpl.
  rewrite bshape_rev_refl.
  destruct (b =? 1) eqn:E; simpl; rewrite rev_involutive; reflexivity.
Qed.

Lemma pad_shape_same s : pad_shape (length s) s = s.
Proof.
  unfold pad_shape. rewrite Nat.sub_diag. reflexivity.
Qed.

Lemma bcast_same s d : length d = prod s -> bcast s s d = d.
Proof.
  revert d; induction s as [|a s IH]; intros d Hd; simpl; [reflexivity|].
  rewrite Nat.eqb_refl. simpl in Hd.
  rewrite (@flat_map_ext_in _ _ _ (fun i => chunk (prod s) i d)).
  - apply flat_map_chunks. assumption.
  - intros i Hi. apply in_seq in Hi. apply IH. apply chunk_length. nia.
Qed.

(** Every axis of [s] either agrees with [t] or has length 1. *)
Definition expands (s t : list nat) : Prop :=
  Forall2 (fun a b => a = b \/ a = 1) s t.

Lemma bcast_length s t d :
  expands s t -> length d = prod s -> length (bcast s t d) = prod t.
Proof.
  intros H; revert d; induction H as [|a b s t Hab H IH]; intros d Hd; simpl; auto.
  simpl in Hd. destruct (a =? b) eqn:E.
  - apply Nat.eqb_eq in E; subst b.
    rewrite flat_map_constant_length with (c := prod t).
    + rewrite length_seq. reflexivity.
    + intros i Hi. apply in_seq in Hi. apply IH. apply chunk_length. nia.
  - apply Nat.eqb_neq in E. destruct Hab as [Hab|Hab]; [contradiction|]. subst a.
    rewrite flat_map_constant_length with (c := prod t).
    + rewrite length_seq. reflexivity.
    + intros i Hi. apply IH. lia.
Qed.

Lemma expands_refl s : expands s s.
Proof. induction s; constructor; auto. Qed.

Lemma expands_batch s b : expands (s ++ [1]) (s ++ [b]).
Proof.
  induction s as [|a s IH]; simpl.
  - constructor; [right; reflexivity | constructor].
  - constructor; auto.
Qed.

Lemma flat_map_const_repeat (c : C) p n s :
  flat_map (fun _ : nat => repeat c p) (seq s n) = repeat c (n * p).
Proof.
  revert s; induction n as [|n IH]; intros s; simpl; [reflexivity|].
  rewrite IH, <- repeat_app. reflexivity.
Qed.

(** A one-cell array expands to the constant array. *)
Lemma bcast_ones t c : bcast (repeat 1 (length t)) t [c] = repeat c (prod t).
Proof.
  induction t as [|b t IH]; [reflexivity|].
  assert (Hp : prod (repeat 1 (length t)) = 1).
  { clear. induction t; simpl; auto. rewrite IHt. reflexivity. }
  cbn [length repeat bcast prod fold_right].
  destruct (1 =? b) eqn:E.
  - apply Nat.eqb_eq in E; subst b.
    change (fold_right Nat.mul 1 (repeat 1 (length t))) with (prod (repeat 1 (length t))).
    rewrite Hp. cbn [seq flat_map]. unfold chunk. cbn [Nat.mul skipn firstn].
    rewrite app_nil_r, IH. f_equal. unfold prod. lia.
  - rewrite (@flat_map_ext _ _ _ (fun _ => repeat c (prod t))) by (intros; apply IH).
    apply flat_map_const_repeat.
Qed.

Lemma multiply_same_shape a b :
  shape a = shape b -> wf_array a -> wf_array b ->
  multiply a b =
  Ok (mk_ndarray (result_type (dt a) (dt b)) (shape a) (map2 Cmul (data a) (data b))).
Proof.
  intros Hs Ha Hb. unfold multiply, broadcast_to. rewrite <- Hs.
  rewrite broadcast_shapes_refl, pad_shape_same.
  rewrite !bcast_same; auto. rewrite Hs; assumption.
Qed.

Lemma multiply_batch a b s n :
  shape a = s ++ [n] -> shape b = s ++ [1] -> wf_array a -> wf_array b ->
  exists d,
    multiply a b = Ok (mk_ndarray (result_type (dt a) (dt b)) (s ++ [n]) d) /\
    length d = prod (s ++ [n]).
Proof.
  intros Ha Hb Hwa Hwb. unfold multiply, broadcast_to. rewrite Ha, Hb.
  rewrite broadcast_shapes_batch. eexists; split; [reflexivity|].
  rewrite map2_length.
  replace (length (s ++ [n])) with (length (s ++ [1])) at 2
    by (rewrite !length_app; reflexivity).
  rewrite !pad_shape_same.
  rewrite bcast_same by (rewrite <- Ha; assumption).
  rewrite bcast_length; [| apply expands_batch | rewrite <- Hb; assumption ].
  unfold wf_array in Hwa. rewrite Ha in Hwa. lia.
Qed.

(** *** Multi-indices and flattened buffers *)

(** [mi] is a multi-index into an array of shape [s]. *)
Definition valid (s mi : list nat) : Prop := Forall2 lt mi s.

(** Sum over all multi-indices of shape [s]. *)
Fixpoint sum_mi (s : list nat) (h : list nat -> C) : C :=
  match s with
  | [] => h []
  | n :: rest => Csum n (fun k => sum_mi rest (fun mi => h (k :: mi)))
  end.

(** Agreement on the multi-indices of shape [s]. *)
Definition eq_on (s : list nat) (f g : list nat -> C) : Prop :=
  forall mi, valid s mi -> f mi = g mi.

Lemma flatten_length s f : length (flatten s f) = prod s.
Proof.
  revert f; induction s as [|n s IH]; intros f; simpl; [reflexivity|].
  rewrite flat_map_constant_length with (c := prod s) by (intros; apply IH).
  rewrite length_seq. reflexivity.
Qed.

Lemma flatten_ext s f g : eq_on s f g -> flatten s f = flatten s g.
Proof.
  revert f g; induction s as [|n s IH]; intros f g H; simpl.
  - rewrite H by constructor. reflexivity.
  - apply flat_map_ext_in. intros k Hk. apply in_seq in Hk.
    apply IH. intros mi Hmi. apply H. constructor; [lia | assumption].
Qed.

Lemma ravel_index_lt s mi : valid s mi -> ravel_index s mi < prod s.
Proof.
  intros H; induction H as [|k n mi s Hk H IH]; simpl; [lia|]. nia.
Qed.

Lemma nth_flat_map_blocks {A} (g : nat -> list A) P n s k r d :
  (forall i, length (g i) = P) -> k < n -> r < P ->
  nth (k * P + r) (flat_map g (seq s n)) d = nth r (g (s + k)) d.
Proof.
  intros Hg. revert s k; induction n as [|n IH]; intros s k Hk Hr; [lia|].
  simpl. destruct k as [|k].
  - rewrite app_nth1 by (rewrite Hg; lia). rewrite Nat.add_0_r. reflexivity.
  - rewrite app_nth2 by (rewrite Hg; nia).
    rewrite Hg. replace (S k * P + r - P) with (k * P + r) by nia.
    rewrite IH by lia. f_equal. f_equal. lia.
Qed.

Lemma nth_flatten s f mi d :
  valid s mi -> nth (ravel_index s mi) (flatten s f) d = f mi.
Proof.
  intros H; revert f; induction H as [|k n mi s Hk H IH]; intros f; simpl.
  - reflexivity.
  - rewrite nth_flat_map_blocks with (P := prod s).
    + apply IH.
    + intros; apply flatten_length.
    + assumption.
    + apply ravel_index_lt; assumption.
Qed.

Lemma unflatten_flatten s f : eq_on s (unflatten s (flatten s f)) f.
Proof. intros mi H. apply nth_flatten; assumption. Qed.

Lemma nth_chunk P k d r : r < P -> nth r (chunk P k d) C0 = nth (k * P + r) d C0.
Proof.
  intros Hr. unfold chunk.
  rewrite nth_firstn. destruct (r <? P) eqn:E; [|apply Nat.ltb_ge in E; lia].
  rewrite nth_skipn. reflexivity.
Qed.

Lemma flatten_unflatten s d : length d = prod s -> flatten s (unflatten s d) = d.
Proof.
  revert d; induction s as [|n s IH]; intros d Hd; simpl in *.
  - destruct d as [|x [|y d]]; simpl in *; try discriminate. reflexivity.
  - transitivity (flat_map (fun i => chunk (prod s) i d) (seq 0 n));
      [| apply flat_map_chunks; lia].
    apply flat_map_ext_in. intros k Hk. apply in_seq in Hk.
    rewrite <- (IH (chunk (prod s) k d)) by (apply chunk_length; nia).
    apply flatten_ext. intros mi Hmi. unfold unflatten. simpl.
    rewrite nth_chunk by (apply ravel_index_lt; assumption). reflexivity.
Qed.

Lemma flatten_map s c h :
  flatten s (fun mi => Cmul c (h mi)) = map (Cmul c) (flatten s h).
Proof.
  revert h; induction s as [|n s IH]; intros h; simpl; [reflexivity|].
  generalize 0 as st. induction n as [|n IHn]; intros st; simpl; [reflexivity|].
  rewrite map_app, IH, IHn. reflexivity.
Qed.

Lemma lincomb_length a u b v : length (lincomb a u b v) = Nat.min (length u) (length v).
Proof. apply map2_length. Qed.

Lemma lincomb_app a u1 u2 b v1 v2 :
  length u1 = length v1 ->
  lincomb a (u1 ++ u2) b (v1 ++ v2) = lincomb a u1 b v1 ++ lincomb a u2 b v2.
Proof.
  revert v1; induction u1 as [|x u1 IH]; intros [|y v1] H; simpl in *; try discriminate; auto.
  unfold lincomb in *. simpl. f_equal. apply IH. lia.
Qed.

Lemma nth_lincomb a u b v i :
  length u = length v ->
  nth i (lincomb a u b v) C0 = Cadd (Cmul a (nth i u C0)) (Cmul b (nth i v C0)).
Proof.
  intros H. destruct (Nat.lt_ge_cases i (length u)) as [Hi|Hi].
  - unfold lincomb. rewrite nth_map2 with (da := C0) (db := C0) by lia. reflexivity.
  - rewrite !nth_overflow by (try rewrite lincomb_length; lia).
    rewrite !Cmul_0_r, Cadd_0_l. reflexivity.
Qed.

Lemma flatten_lincomb s a f b g :
  flatten s (fun mi => Cadd (Cmul a (f mi)) (Cmul b (g mi))) =
  lincomb a (flatten s f) b (flatten s g).
Proof.
  revert f g; induction s as [|n s IH]; intros f g; simpl; [reflexivity|].
  generalize 0 as st. induction n as [|n IHn]; intros st; simpl; [reflexivity|].
  rewrite lincomb_app by (rewrite !flatten_length; reflexivity).
  rewrite IH, IHn. reflexivity.
Qed.

Lemma inner_app u1 u2 v1 v2 :
  length u1 = length v1 ->
  inner (u1 ++ u2) (v1 ++ v2) = Cadd (inner u1 v1) (inner u2 v2).
Proof.
  revert v1; induction u1 as [|x u1 IH]; intros [|y v1] H; simpl in *; try discriminate.
  - symmetry; apply Cadd_0_l.
  - rewrite IH by lia. apply Cadd_assoc.
Qed.

Lemma inner_flat_map (g h : nat -> list C) n s :
  (forall i, length (g i) = length (h i)) ->
  inner (flat_map g (seq s n)) (flat_map h (seq s n)) =
  Csum n (fun i => inner (g (s + i)) (h (s + i))).
Proof.
  intros Hl. induction n as [|n IH]; [reflexivity|].
  rewrite seq_S, !flat_map_app, inner_app.
  - rewrite IH. simpl. rewrite !app_nil_r. reflexivity.
  - clear IH. generalize s. induction n as [|n IHn]; intros s'; simpl; auto.
    rewrite !length_app, Hl, IHn. reflexivity.
Qed.

Lemma inner_flatten s f g :
  inner (flatten s f) (flatten s g) = sum_mi s (fun mi => Cmul (f mi) (Cconj (g mi))).
Proof.
  revert f g; induction s as [|n s IH]; intros f g; simpl.
  - apply Cadd_0_r.
  - rewrite inner_flat_map by (intros; rewrite !flatten_length; reflexivity).
    apply Csum_ext. intros i _. simpl. apply IH.
Qed.

Lemma sum_mi_ext s f g : eq_on s f g -> sum_mi s f = sum_mi s g.
Proof.
  revert f g; induction s as [|n s IH]; intros f g H; simpl.
  - apply H. constructor.
  - apply Csum_ext. intros k Hk. apply IH. intros mi Hmi.
    apply H. constructor; assumption.
Qed.

Lemma sum_mi_Csum s m (F : nat -> list nat -> C) :
  sum_mi s (fun mi => Csum m (fun j => F j mi)) = Csum m (fun j => sum_mi s (F j)).
Proof.
  revert F; induction s as [|n s IH]; intros F; simpl; [reflexivity|].
  rewrite Csum_swap. apply Csum_ext. intros k _.
  apply (IH (fun j mi => F j (k :: mi))).
Qed.

Lemma sum_mi_scal s c f : sum_mi s (fun mi => Cmul c (f mi)) = Cmul c (sum_mi s f).
Proof.
  revert f; induction s as [|n s IH]; intros f; simpl; [reflexivity|].
  rewrite <- Csum_scal. apply Csum_ext. intros k _. apply IH.
Qed.

(** *** The discrete Fourier sum along one axis *)

Lemma valid_set_axis s mi a j :
  valid s mi -> j < nth a s 0 -> valid s (set_axis a j mi).
Proof.
  intros H; revert a; induction H as [|k n mi s Hk H IH]; intros a Hj; simpl.
  - constructor.
  - destruct a as [|a]; simpl in *; constructor; auto.
    apply IH; assumption.
Qed.

Lemma nth_set_axis_other a b j mi :
  a <> b -> nth b (set_axis a j mi) 0 = nth b mi 0.
Proof.
  revert a b; induction mi as [|k mi IH]; intros [|a] [|b] H; simpl; auto; try lia.
Qed.

Lemma set_axis_comm a b j j' mi :
  a <> b -> set_axis a j (set_axis b j' mi) = set_axis b j' (set_axis a j mi).
Proof.
  revert a b; induction mi as [|k mi IH]; intros [|a] [|b] H; simpl; auto; try lia.
  f_equal. apply IH. lia.
Qed.

Lemma dft_axis_ext sg s a f g :
  eq_on s f g -> eq_on s (dft_axis sg s a f) (dft_axis sg s a g).
Proof.
  intros H mi Hmi. unfold dft_axis. apply Csum_ext. intros j Hj.
  rewrite H by (apply valid_set_axis; assumption). reflexivity.
Qed.

Lemma dft_axis_scal sg s a c f mi :
  dft_axis sg s a (fun m => Cmul c (f m)) mi = Cmul c (dft_axis sg s a f mi).
Proof.
  unfold dft_axis. rewrite <- Csum_scal. apply Csum_ext. intros j _.
  symmetry; apply Cmul_assoc.
Qed.

Lemma dft_axis_lincomb sg s a ca f cb g mi :
  dft_axis sg s a (fun m => Cadd (Cmul ca (f m)) (Cmul cb (g m))) mi =
  Cadd (Cmul ca (dft_axis sg s a f mi)) (Cmul cb (dft_axis sg s a g mi)).
Proof.
  unfold dft_axis. rewrite <- !Csum_scal, <- Csum_add. apply Csum_ext. intros j _.
  rewrite Cmul_add_r, !Cmul_assoc. reflexivity.
Qed.

Lemma dft_axis_comm sg s a b f mi :
  a <> b ->
  dft_axis sg s a (dft_axis sg s b f) mi = dft_axis sg s b (dft_axis sg s a f) mi.
Proof.
  intros Hab. unfold dft_axis.
  rewrite (@Csum_ext _ _
    (fun j => Csum (nth b s 0) (fun j' =>
       Cmul (Cmul (f (set_axis b j' (set_axis a j mi)))
                  (twiddle sg (nth b s 0) j' (nth b mi 0)))
            (twiddle sg (nth a s 0) j (nth a mi 0))))).
  2:{ intros j _. rewrite <- Csum_scal_r. apply Csum_ext. intros j' _.
      rewrite nth_set_axis_other by assumption. reflexivity. }
  rewrite Csum_swap. apply Csum_ext. intros j' _.
  rewrite <- Csum_scal_r. apply Csum_ext. intros j _.
  rewrite nth_set_axis_other by auto.
  rewrite (set_axis_comm j j' mi Hab).
  rewrite <- !Cmul_assoc. f_equal. apply Cmul_comm.
Qed.

Lemma twiddle_conj sg n j k : Cconj (twiddle sg n j k) = twiddle (- sg) n j k.
Proof.
  unfold twiddle. rewrite Cconj_exp. f_equal.
  unfold Rdiv. rewrite !Ropp_mult_distr_l. reflexivity.
Qed.

Lemma twiddle_sym sg n j k : twiddle sg n j k = twiddle sg n k j.
Proof. unfold twiddle. rewrite (Nat.mul_comm j k). reflexivity. Qed.

(** The forward sum and the conjugate sum are adjoint under [sum_mi]. *)
Lemma dft_axis_adjoint sg s a f g :
  sum_mi s (fun mi => Cmul (dft_axis sg s a f mi) (Cconj (g mi))) =
  sum_mi s (fun mi => Cmul (f mi) (Cconj (dft_axis (- sg) s a g mi))).
Proof.
  revert a f g; induction s as [|n s IH]; intros a f g.
  - simpl. unfold dft_axis. destruct a; simpl; rewrite Cconj_0, Cmul_0_l, Cmul_0_r; reflexivity.
  - destruct a as [|a].
    + simpl. unfold dft_axis. simpl.
      rewrite (@Csum_ext _ _ (fun k => Csum n (fun j =>
                 sum_mi s (fun mi => Cmul (Cmul (f (j :: mi)) (Cconj (g (k :: mi))))
                                          (twiddle sg n j k))))).
      2:{ intros k _. rewrite <- sum_mi_Csum. apply sum_mi_ext. intros mi _.
          rewrite <- Csum_scal_r. apply Csum_ext. intros j _.
          rewrite <- !Cmul_assoc. f_equal. apply Cmul_comm. }
      rewrite Csum_swap. apply Csum_ext. intros j _.
      rewrite <- sum_mi_Csum. apply sum_mi_ext. intros mi _.
      rewrite Csum_conj, <- Csum_scal. apply Csum_ext. intros k _.
      rewrite Cconj_mul, twiddle_conj, Ropp_involutive, (twiddle_sym sg n k j).
      rewrite <- !Cmul_assoc. reflexivity.
    + simpl. apply Csum_ext. intros k _.
      apply (IH a (fun mi => f (k :: mi)) (fun mi => g (k :: mi))).
Qed.

(** *** [fft] and [ifft] on buffers *)

(** One inverse transform on index functions, with its [1/n]. *)
Definition idft_fn (s : list nat) (a : nat) (h : list nat -> C) : list nat -> C :=
  fun mi => Cmul (Cof_R (/ INR (nth a s 0))) (dft_axis 1 s a h mi).

Lemma fft_data_length s a d : length (fft_data s a d) = prod s.
Proof. apply flatten_length. Qed.

Lemma ifft_data_length s a d : length (ifft_data s a d) = prod s.
Proof. unfold ifft_data. rewrite length_map. apply flatten_length. Qed.

Lemma fft_data_flatten s a h :
  fft_data s a (flatten s h) = flatten s (dft_axis (-1) s a h).
Proof.
  unfold fft_data. apply flatten_ext. apply dft_axis_ext. apply unflatten_flatten.
Qed.

Lemma ifft_data_flatten s a h :
  ifft_data s a (flatten s h) = flatten s (idft_fn s a h).
Proof.
  unfold ifft_data, idft_fn. rewrite flatten_map. f_equal.
  apply flatten_ext. apply dft_axis_ext. apply unflatten_flatten.
Qed.

Lemma fold_fft_flatten s axes h :
  fold_right (fft_data s) (flatten s h) axes =
  flatten s (fold_right (dft_axis (-1) s) h axes).
Proof.
  induction axes as [|a axes IH]; simpl; [reflexivity|].
  rewrite IH. apply fft_data_flatten.
Qed.

Lemma fold_ifft_flatten s axes h :
  fold_right (ifft_data s) (flatten s h) axes =
  flatten s (fold_right (idft_fn s) h axes).
Proof.
  induction axes as [|a axes IH]; simpl; [reflexivity|].
  rewrite IH. apply ifft_data_flatten.
Qed.

Lemma fold_fft_length s axes d :
  length d = prod s -> length (fold_right (fft_data s) d axes) = prod s.
Proof.
  destruct axes; simpl; intros; [assumption | apply fft_data_length].
Qed.

Lemma fold_ifft_length s axes d :
  length d = prod s -> length (fold_right (ifft_data s) d axes) = prod s.
Proof.
  destruct axes; simpl; intros; [assumption | apply ifft_data_length].
Qed.

Lemma idft_fn_ext s a f g : eq_on s f g -> eq_on s (idft_fn s a f) (idft_fn s a g).
Proof.
  intros H mi Hmi. unfold idft_fn. f_equal. apply dft_axis_ext; assumption.
Qed.

Lemma idft_fn_comm s a b f : eq_on s (idft_fn s a (idft_fn s b f)) (idft_fn s b (idft_fn s a f)).
Proof.
  intros mi _. destruct (Nat.eq_dec a b) as [->|Hab]; [reflexivity|].
  unfold idft_fn. rewrite !dft_axis_scal, (dft_axis_comm 1 s f mi Hab).
  rewrite !Cmul_assoc. f_equal. apply Cmul_comm.
Qed.

Lemma fold_idft_ext s axes f g :
  eq_on s f g -> eq_on s (fold_right (idft_fn s) f axes) (fold_right (idft_fn s) g axes).
Proof.
  intros H. induction axes as [|a axes IH]; simpl; [assumption|].
  apply idft_fn_ext; assumption.
Qed.

Lemma fold_idft_push s a axes g :
  eq_on s (fold_right (idft_fn s) (idft_fn s a g) axes)
          (idft_fn s a (fold_right (idft_fn s) g axes)).
Proof.
  induction axes as [|b axes IH]; simpl; [intros mi _; reflexivity|].
  intros mi Hmi.
  rewrite (idft_fn_ext b IH Hmi). apply idft_fn_comm; assumption.
Qed.

(** The inverse transforms along the axes commute, so the order in which
    the axes are visited does not matter. *)
Lemma fold_idft_rev s axes g :
  eq_on s (fold_right (idft_fn s) g (rev axes)) (fold_right (idft_fn s) g axes).
Proof.
  revert g; induction axes as [|a axes IH]; intros g; simpl; [intros mi _; reflexivity|].
  rewrite fold_right_app. simpl. intros mi Hmi.
  rewrite (IH (idft_fn s a g) mi Hmi). apply fold_idft_push; assumption.
Qed.

(** Product of the transformed axis lengths. *)
Definition axes_size (s axes : list nat) : nat :=
  fold_right (fun a acc => nth a s 0 * acc) 1 axes.

Lemma idft_adjoint s a f g :
  nth a s 0 <> 0 ->
  sum_mi s (fun mi => Cmul (dft_axis (-1) s a f mi) (Cconj (g mi))) =
  Cmul (Cof_R (INR (nth a s 0)))
       (sum_mi s (fun mi => Cmul (f mi) (Cconj (idft_fn s a g mi)))).
Proof.
  intros Hn. rewrite dft_axis_adjoint, <- sum_mi_scal.
  apply sum_mi_ext. intros mi _. unfold idft_fn.
  replace (- -1)%R with 1%R by lra.
  assert (Hr : INR (nth a s 0) <> 0%R) by (apply not_0_INR; assumption).
  generalize (f mi) (dft_axis 1 s a g mi) Hr. generalize (INR (nth a s 0)).
  intros r z w Hr'. destruct z, w.
  unfold Cmul, Cconj, Cof_R; simpl. apply C_eq; simpl; field; assumption.
Qed.

Lemma fold_dft_adjoint s axes f g :
  Forall (fun a => nth a s 0 <> 0) axes ->
  sum_mi s (fun mi => Cmul (fold_right (dft_axis (-1) s) f axes mi) (Cconj (g mi))) =
  Cmul (Cof_R (INR (axes_size s axes)))
       (sum_mi s (fun mi => Cmul (f mi) (Cconj (fold_right (idft_fn s) g (rev axes) mi)))).
Proof.
  intros H; revert g; induction H as [|a axes Ha H IH]; intros g; simpl.
  - unfold Cof_R. simpl. rewrite Cmul_1_l. reflexivity.
  - rewrite idft_adjoint by assumption. rewrite IH.
    rewrite fold_right_app. simpl.
    rewrite mult_INR. rewrite !Cmul_assoc. f_equal.
    unfold Cof_R, Cmul; simpl. apply C_eq; simpl; ring.
Qed.

(** Adjointness of [fftn] and [ifftn] on buffers of shape [s]. *)
Lemma fold_fft_adjoint s axes u v :
  length u = prod s -> length v = prod s ->
  Forall (fun a => nth a s 0 <> 0) axes ->
  inner (fold_right (fft_data s) u axes) v =
  Cmul (Cof_R (INR (axes_size s axes)))
       (inner u (fold_right (ifft_data s) v axes)).
Proof.
  intros Hu Hv Hax.
  rewrite <- (flatten_unflatten s u Hu), <- (flatten_unflatten s v Hv).
  rewrite fold_fft_flatten, fold_ifft_flatten, !inner_flatten.
  rewrite fold_dft_adjoint by assumption. f_equal.
  apply sum_mi_ext. intros mi Hmi. f_equal. f_equal.
  apply fold_idft_rev; assumption.
Qed.

Lemma unflatten_lincomb s ca u cb v mi :
  length u = length v ->
  unflatten s (lincomb ca u cb v) mi =
  Cadd (Cmul ca (unflatten s u mi)) (Cmul cb (unflatten s v mi)).
Proof. intros H. unfold unflatten. apply nth_lincomb; assumption. Qed.

Lemma fft_data_lincomb s a ca u cb v :
  length u = length v ->
  fft_data s a (lincomb ca u cb v) = lincomb ca (fft_data s a u) cb (fft_data s a v).
Proof.
  intros H. unfold fft_data. rewrite <- flatten_lincomb. apply flatten_ext.
  intros mi _. rewrite <- dft_axis_lincomb. unfold dft_axis. apply Csum_ext.
  intros j _. rewrite unflatten_lincomb by assumption. reflexivity.
Qed.

Lemma fold_fft_lincomb s axes ca u cb v :
  length u = prod s -> length v = prod s ->
  fold_right (fft_data s) (lincomb ca u cb v) axes =
  lincomb ca (fold_right (fft_data s) u axes) cb (fold_right (fft_data s) v axes).
Proof.
  intros Hu Hv. induction axes as [|a axes IH]; simpl; [reflexivity|].
  rewrite IH. apply fft_data_lincomb.
  rewrite !fold_fft_length by assumption. reflexivity.
Qed.

(** *** Inner products as indexed sums *)

Lemma Csum_S_front n f : Csum (S n) f = Cadd (f 0) (Csum n (fun i => f (S i))).
Proof.
  induction n as [|n IH].
  - simpl. rewrite Cadd_0_l, Cadd_0_r. reflexivity.
  - change (Csum (S (S n)) f) with (Cadd (Csum (S n) f) (f (S n))).
    rewrite IH. simpl. rewrite Cadd_assoc. reflexivity.
Qed.

Lemma inner_Csum u v :
  length u = length v ->
  inner u v = Csum (length u) (fun i => Cmul (nth i u C0) (Cconj (nth i v C0))).
Proof.
  revert v; induction u as [|a u IH]; intros [|b v] H; simpl in H; try discriminate.
  - reflexivity.
  - cbn [length]. rewrite Csum_S_front. simpl. rewrite IH by lia. reflexivity.
Qed.

Lemma inner_conj_sym u v : inner u v = Cconj (inner v u).
Proof.
  revert v; induction u as [|a u IH]; intros [|b v]; simpl;
    try (symmetry; apply Cconj_0).
  rewrite Cconj_add, Cconj_mul, Cconj_conj, <- IH, (Cmul_comm a). reflexivity.
Qed.

Lemma Clsum_conj l : Cconj (Clsum l) = Clsum (map Cconj l).
Proof.
  induction l as [|a l IH]; simpl; [apply Cconj_0|].
  rewrite Cconj_add, IH. reflexivity.
Qed.

Lemma nth_map_seq (F : nat -> C) n i : i < n -> nth i (map F (seq 0 n)) C0 = F i.
Proof.
  intros H. rewrite nth_indep with (d' := F 0) by (rewrite length_map, length_seq; lia).
  rewrite map_nth, seq_nth by lia. reflexivity.
Qed.

(** *** Sparse products *)

Lemma spmm_length es rows b x : length (spmm es rows b x) = rows * b.
Proof.
  unfold spmm. rewrite flat_map_constant_length with (c := b).
  - rewrite length_seq. reflexivity.
  - intros. rewrite length_map, length_seq. reflexivity.
Qed.

Lemma row_sum_ext es r g h : (forall c, g c = h c) -> row_sum es r g = row_sum es r h.
Proof.
  intros Hgh. induction es as [|[[r' c] v] es IH]; simpl; auto.
  rewrite Hgh, IH. reflexivity.
Qed.

Lemma spmm_1 es rows x :
  spmm es rows 1 x = map (fun r => row_sum es r (fun c => nth c x C0)) (seq 0 rows).
Proof.
  unfold spmm. induction (seq 0 rows) as [|r l IH]; simpl in *; [reflexivity|].
  rewrite IH. f_equal. apply row_sum_ext. intros c. f_equal. lia.
Qed.

Lemma row_sum_lincomb es r ca g cb h :
  row_sum es r (fun c => Cadd (Cmul ca (g c)) (Cmul cb (h c))) =
  Cadd (Cmul ca (row_sum es r g)) (Cmul cb (row_sum es r h)).
Proof.
  induction es as [|[[r' c] v] es IH]; simpl.
  - rewrite !Cmul_0_r, Cadd_0_l. reflexivity.
  - destruct (r' =? r); [|assumption]. rewrite IH.
    generalize (row_sum es r g) (row_sum es r h) (g c) (h c). csolve.
Qed.

Lemma spmm_row_lincomb es r b lb ca u cb v :
  length u = length v ->
  map (fun bb => row_sum es r (fun c => nth (c * b + bb) (lincomb ca u cb v) C0)) lb =
  lincomb ca (map (fun bb => row_sum es r (fun c => nth (c * b + bb) u C0)) lb)
          cb (map (fun bb => row_sum es r (fun c => nth (c * b + bb) v C0)) lb).
Proof.
  intros H. induction lb as [|bb lb IHb]; simpl; [reflexivity|].
  unfold lincomb in *. simpl. rewrite <- IHb. f_equal.
  rewrite <- row_sum_lincomb. apply row_sum_ext. intros c.
  apply (@nth_lincomb ca u cb v (c * b + bb) H).
Qed.

Lemma spmm_lincomb es rows b ca u cb v :
  length u = length v ->
  spmm es rows b (lincomb ca u cb v) =
  lincomb ca (spmm es rows b u) cb (spmm es rows b v).
Proof.
  intros H. unfold spmm.
  induction (seq 0 rows) as [|r l IH]; simpl; [reflexivity|].
  rewrite lincomb_app by (rewrite !length_map; reflexivity).
  rewrite IH. f_equal. apply spmm_row_lincomb; assumption.
Qed.

(** Summing the rows against [h] visits every stored entry once. *)
Lemma row_sum_total es M g h :
  Forall (fun e => fst (fst e) < M) es ->
  Csum M (fun r => Cmul (row_sum es r g) (h r)) =
  Clsum (map (fun e => Cmul (Cmul (snd e) (g (snd (fst e)))) (h (fst (fst e)))) es).
Proof.
  induction 1 as [|[[r' c] v] es Hr H IH]; simpl in *.
  - rewrite (@Csum_ext _ _ (fun _ => C0)) by (intros; apply Cmul_0_l).
    apply Csum_zero.
  - rewrite <- IH.
    rewrite (@Csum_ext _ _ (fun r =>
      Cadd (Cmul (if r' =? r then Cmul v (g c) else C0) (h r))
           (Cmul (row_sum es r g) (h r)))).
    2:{ intros r _. destruct (r' =? r).
        - apply Cmul_add_r.
        - rewrite Cmul_0_l, Cadd_0_l. reflexivity. }
    rewrite Csum_add. f_equal.
    rewrite Csum_single with (a := r').
    + rewrite Nat.eqb_refl. reflexivity.
    + assumption.
    + intros i _ Hi. destruct (r' =? i) eqn:E.
      * apply Nat.eqb_eq in E; congruence.
      * apply Cmul_0_l.
Qed.

(** [P] and its conjugate transpose are adjoint. *)
Lemma spmm_adjoint (p : spmatrix) k y :
  wf_spmatrix p ->
  length k = snd (sp_shape p) -> length y = fst (sp_shape p) ->
  inner (spmm (entries p) (fst (sp_shape p)) 1 k) y =
  inner k (spmm (entries (getH p)) (snd (sp_shape p)) 1 y).
Proof.
  intros Hwf Hk Hy.
  rewrite (inner_conj_sym k).
  rewrite !inner_Csum by (rewrite spmm_length; lia).
  rewrite !spmm_length, !Nat.mul_1_r.
  rewrite (@Csum_ext _ _ (fun r =>
     Cmul (row_sum (entries p) r (fun c => nth c k C0)) (Cconj (nth r y C0)))).
  2:{ intros r Hr. rewrite spmm_1, nth_map_seq by assumption. reflexivity. }
  rewrite (@Csum_ext (snd (sp_shape p)) _ (fun r =>
     Cmul (row_sum (entries (getH p)) r (fun c => nth c y C0)) (Cconj (nth r k C0)))).
  2:{ intros r Hr. rewrite spmm_1, nth_map_seq by assumption. reflexivity. }
  rewrite !row_sum_total.
  - rewrite Clsum_conj. simpl. rewrite !map_map. f_equal. apply map_ext.
    intros [[r c] v]. simpl.
    rewrite !Cconj_mul, !Cconj_conj.
    rewrite <- !Cmul_assoc. f_equal. apply Cmul_comm.
  - simpl. rewrite Forall_map. unfold wf_spmatrix in Hwf.
    eapply Forall_impl; [|exact Hwf]. intros e [_ H]. exact H.
  - unfold wf_spmatrix in Hwf. eapply Forall_impl; [|exact Hwf]. intros e [H _]. exact H.
Qed.

(** *** Scatter and gather are adjoint; the stages are linear *)

Lemma Csum_single_eq n a (h : nat -> C) :
  a < n -> Csum n (fun q => if q =? a then h q else C0) = h a.
Proof.
  intros Ha. rewrite Csum_single with (a := a); auto.
  - rewrite Nat.eqb_refl. reflexivity.
  - intros i _ Hi. destruct (i =? a) eqn:E; [apply Nat.eqb_eq in E; contradiction | reflexivity].
Qed.

Lemma Csum_split n a h :
  a < n ->
  Csum n h = Cadd (h a) (Csum n (fun q => if q =? a then C0 else h q)).
Proof.
  intros Ha.
  rewrite <- (@Csum_single_eq n a h Ha), <- Csum_add.
  apply Csum_ext. intros q _.
  destruct (q =? a); [rewrite Cadd_0_r | rewrite Cadd_0_l]; reflexivity.
Qed.

(** A sum whose summand vanishes off a duplicate-free index list. *)
Lemma Csum_support n L h :
  NoDup L -> Forall (fun q => q < n) L ->
  (forall q, q < n -> ~ In q L -> h q = C0) ->
  Csum n h = Clsum (map h L).
Proof.
  intros HL; revert h; induction HL as [|a L Ha HL IH]; intros h Hlt Hz; simpl.
  - rewrite (@Csum_ext _ _ (fun _ => C0)) by (intros; apply Hz; auto).
    apply Csum_zero.
  - inversion Hlt as [|? ? Han Hlt']; subst.
    rewrite (@Csum_split n a h Han). f_equal.
    rewrite IH; auto.
    + f_equal. apply map_ext_in. intros q Hq. destruct (q =? a) eqn:E; auto.
      apply Nat.eqb_eq in E; subst; contradiction.
    + intros q Hq Hnin. destruct (q =? a) eqn:E; auto.
      apply Nat.eqb_neq in E. apply Hz; auto. intros [?|?]; [congruence | contradiction].
Qed.

Lemma map_combine_pointwise {A} (F : nat -> A) (G : nat -> A) (nd kd : list nat) :
  length nd = length kd ->
  (forall i a b, nth_error nd i = Some a -> nth_error kd i = Some b -> F b = G a) ->
  map F kd = map G nd.
Proof.
  revert kd; induction nd as [|a nd IH]; intros [|b kd] Hl H; simpl in *; try discriminate; auto.
  f_equal.
  - apply (H 0); reflexivity.
  - apply IH; [lia|]. intros i x y Hx Hy. apply (H (S i)); assumption.
Qed.

Lemma map_affine_1 (l : list nat) : map (fun i => i * 1 + 0) l = l.
Proof.
  rewrite <- (map_id l) at 2. apply map_ext. intros; lia.
Qed.

(** Scatter into the oversampled buffer and gather back are adjoint
    (one channel). *)
Lemma scatter_gather_adjoint Nd_ Kd_ nd kd xx k :
  valid_tables Nd_ Kd_ nd kd ->
  length xx = prod Nd_ -> length k = prod Kd_ ->
  inner (copy_loop nd kd 1 xx (repeat C0 (prod Kd_))) k =
  inner xx (copy_loop kd nd 1 k (repeat C0 (prod Nd_))).
Proof.
  intros (Hlen & Hperm & Hnd & Hlt) Hxx Hk.
  assert (HNd : NoDup nd).
  { eapply Permutation_NoDup; [symmetry; exact Hperm | apply seq_NoDup]. }
  rewrite !inner_Csum by (rewrite copy_loop_length, repeat_length; lia).
  rewrite copy_loop_length, repeat_length, Hxx.
  rewrite (@Csum_support (prod Kd_) kd); auto.
  2:{ intros q Hq Hnin. rewrite copy_loop_miss.
      - rewrite nth_repeat. apply Cmul_0_l.
      - intros bat i Hb Hi ->. apply Hnin.
        replace (i * 1 + bat) with i by lia. assumption. }
  rewrite <- Clsum_seq.
  rewrite (Clsum_perm (Permutation_map _ (Permutation_sym Hperm))).
  f_equal. apply map_combine_pointwise; auto.
  intros i a b Ha Hb.
  assert (Hbk : b < prod Kd_).
  { rewrite Forall_forall in Hlt. apply Hlt. eapply nth_error_In; eauto. }
  assert (Han : a < prod Nd_).
  { assert (In a (seq 0 (prod Nd_))).
    { eapply Permutation_in; [exact Hperm|]. eapply nth_error_In; eauto. }
    apply in_seq in H. lia. }
  assert (E1 : nth b (copy_loop nd kd 1 xx (repeat C0 (prod Kd_))) C0 = nth a xx C0).
  { transitivity (nth (b * 1 + 0) (copy_loop nd kd 1 xx (repeat C0 (prod Kd_))) C0).
    - f_equal. lia.
    - rewrite copy_loop_hit with (i := i) (sq := a); auto.
      + f_equal. lia.
      + rewrite repeat_length. lia. }
  assert (E2 : nth a (copy_loop kd nd 1 k (repeat C0 (prod Nd_))) C0 = nth b k C0).
  { transitivity (nth (a * 1 + 0) (copy_loop kd nd 1 k (repeat C0 (prod Nd_))) C0).
    - f_equal. lia.
    - rewrite copy_loop_hit with (i := i) (sq := b); auto.
      + f_equal. lia.
      + rewrite repeat_length. lia. }
  cbv beta. rewrite E1, E2. reflexivity.
Qed.

Lemma inner_scale_real u v sn_ :
  length u = length sn_ -> length v = length sn_ ->
  Forall (fun z => snd z = 0%R) sn_ ->
  inner (map2 Cmul u sn_) v = inner u (map2 Cmul v sn_).
Proof.
  intros Hu Hv Hr. revert u v Hu Hv.
  induction Hr as [|z sn_ Hz Hr IH]; intros [|a u] [|b v] Hu Hv; simpl in *;
    try discriminate; auto.
  rewrite IH by lia. f_equal.
  rewrite Cconj_mul, (Cconj_real z Hz). rewrite <- !Cmul_assoc. f_equal. apply Cmul_comm.
Qed.

Lemma upd_lincomb i ca v1 cb v2 l1 l2 :
  length l1 = length l2 ->
  upd i (Cadd (Cmul ca v1) (Cmul cb v2)) (lincomb ca l1 cb l2) =
  lincomb ca (upd i v1 l1) cb (upd i v2 l2).
Proof.
  revert i l2; induction l1 as [|x l1 IH]; intros [|i] [|y l2] H; simpl in *;
    try discriminate; auto.
  unfold lincomb in *. simpl. f_equal. apply IH. lia.
Qed.

Lemma put_list_lincomb idx ca vs1 cb vs2 l1 l2 :
  length l1 = length l2 -> length vs1 = length vs2 ->
  put_list idx (lincomb ca vs1 cb vs2) (lincomb ca l1 cb l2) =
  lincomb ca (put_list idx vs1 l1) cb (put_list idx vs2 l2).
Proof.
  revert vs1 vs2 l1 l2; induction idx as [|i idx IH];
    intros [|v1 vs1] [|v2 vs2] l1 l2 Hl Hv; simpl in *; try discriminate; auto.
  change (lincomb ca (v1 :: vs1) cb (v2 :: vs2))
    with (Cadd (Cmul ca v1) (Cmul cb v2) :: lincomb ca vs1 cb vs2).
  rewrite upd_lincomb by assumption. apply IH.
  - rewrite !upd_length. assumption.
  - lia.
Qed.

Lemma map_nth_lincomb idx ca s1 cb s2 :
  length s1 = length s2 ->
  map (fun j => nth j (lincomb ca s1 cb s2) C0) idx =
  lincomb ca (map (fun j => nth j s1 C0) idx) cb (map (fun j => nth j s2 C0) idx).
Proof.
  intros H. induction idx as [|i idx IH]; simpl; [reflexivity|].
  unfold lincomb in *. simpl. rewrite <- IH. f_equal.
  apply (@nth_lincomb ca s1 cb s2 i H).
Qed.

Lemma copy_loop_lincomb si di b ca s1 cb s2 d1 d2 :
  length s1 = length s2 -> length d1 = length d2 ->
  copy_loop si di b (lincomb ca s1 cb s2) (lincomb ca d1 cb d2) =
  lincomb ca (copy_loop si di b s1 d1) cb (copy_loop si di b s2 d2).
Proof.
  intros Hs. unfold copy_loop. revert d1 d2.
  induction (seq 0 b) as [|bat bs IH]; intros d1 d2 Hd; simpl; [reflexivity|].
  rewrite map_nth_lincomb by assumption.
  rewrite put_list_lincomb by (rewrite ?length_map; auto).
  apply IH. rewrite !put_list_length. assumption.
Qed.

Lemma lincomb_zeros ca cb n : lincomb ca (repeat C0 n) cb (repeat C0 n) = repeat C0 n.
Proof.
  induction n as [|n IH]; simpl; [reflexivity|].
  unfold lincomb in *. simpl. rewrite IH, !Cmul_0_r, Cadd_0_l. reflexivity.
Qed.

Lemma map2_Cmul_lincomb ca u cb v w :
  length u = length v ->
  map2 Cmul (lincomb ca u cb v) w =
  lincomb ca (map2 Cmul u w) cb (map2 Cmul v w).
Proof.
  revert v w; induction u as [|x u IH]; intros [|y v] [|z w] H; simpl in *;
    try discriminate; auto.
  unfold lincomb in *. simpl. rewrite IH by lia. f_equal.
  generalize x y z. csolve.
Qed.

(* ================================================================== *)
(** ** Planned operators *)
(* ================================================================== *)

Definition default_axes (fa : option (list nat)) (Nd_ : list nat) : list nat :=
  match fa with
  | None => seq 0 (length Nd_)
  | Some a => a
  end.

(** An operator is planned when [plan] returned 0 for it, the builder's
    dictionary conforming to its interface (P of shape M x prod(Kd), sn of
    shape Nd, positive Nd, Kd[i] >= Nd[i]), the reorder tables being valid,
    the transform axes being axes of the grid, and the batch size, when
    given, positive. *)
Inductive planned : NUFFT_cpu -> Prop :=
| planned_intro hp pc self om Nd_ Kd_ Jd_ fa b st0 p s nd kd ne op :
    hp om Nd_ Kd_ Jd_ (default_axes fa Nd_) = Ok st0 ->
    st_p st0 = Some p -> st_sn st0 = Some s ->
    sp_shape p = (st_M st0, prod (st_Kd st0)) -> wf_spmatrix p ->
    shape s = st_Nd st0 -> wf_array s ->
    Forall2 le (st_Nd st0) (st_Kd st0) -> Forall (lt 0) (st_Nd st0) ->
    Forall (fun a => a < length (st_Kd st0)) (default_axes fa Nd_) ->
    pc (st_Nd st0) (st_Kd st0) = Ok (nd, kd, ne) ->
    valid_tables (st_Nd st0) (st_Kd st0) nd kd ->
    match b with Some n => 0 < n | None => True end ->
    plan hp pc self om Nd_ Kd_ Jd_ fa b = (Ok 0%Z, op) ->
    planned op.

(** What [plan] leaves in the object, in one place.  [sfx] is the trailing
    batch axis ([[]] without batch), [sfx1] the trailing axis of [sn]. *)
Record planned_view (op : NUFFT_cpu) (Nd_ Kd_ : list nat) (M B : nat)
    (sfx sfx1 : list nat) (p : spmatrix) (sn_data : list C)
    (nd kd axes : list nat) : Prop := {
  pv_sn : sn op = Some (mk_ndarray (self_dtype op) (Nd_ ++ sfx1) sn_data);
  pv_batch : batch op = Some B;
  pv_flag : parallel_flag op = Some (length sfx);
  pv_mNd : multi_Nd op = Some (Nd_ ++ sfx);
  pv_mKd : multi_Kd op = Some (Kd_ ++ sfx);
  pv_mM : multi_M op = Some (M :: sfx);
  pv_mpK : multi_prodKd op = Some (prod Kd_ :: sfx);
  pv_Nd : Nd op = Some Nd_;
  pv_Kd : Kd op = Some Kd_;
  pv_sp : sp op = Some p;
  pv_spH : spH op = Some (getH p);
  pv_nd : NdCPUorder op = Some nd;
  pv_kd : KdCPUorder op = Some kd;
  pv_axes : ft_axes op = Some axes;
  pv_st : exists st', st op = Some st' /\ st_M st' = M;
  pv_sfx : (sfx = [] /\ sfx1 = [] /\ B = 1) \/ (sfx = [B] /\ sfx1 = [1] /\ 0 < B);
  pv_shape_p : sp_shape p = (M, prod Kd_);
  pv_wf_p : wf_spmatrix p;
  pv_sn_len : length sn_data = prod Nd_;
  pv_le : Forall2 le Nd_ Kd_;
  pv_pos : Forall (lt 0) Nd_;
  pv_axes_ok : Forall (fun a => a < length Kd_) axes;
  pv_tables : valid_tables Nd_ Kd_ nd kd
}.

Lemma planned_view_of op :
  planned op ->
  exists Nd_ Kd_ M B sfx sfx1 p sn_data nd kd axes,
    planned_view op Nd_ Kd_ M B sfx sfx1 p sn_data nd kd axes.
Proof.
  intros H. destruct H as [hp pc self om Nd_ Kd_ Jd_ fa b st0 p s nd kd ne op
    Hhp Hp Hsn Hshp Hwfp Hss Hwfs Hle Hpos Hax Hpc Htab Hb Hplan].
  unfold plan in Hplan. fold (default_axes fa Nd_) in Hplan.
  rewrite Hhp, Hsn in Hplan.
  exists (st_Nd st0), (st_Kd st0), (st_M st0).
  destruct b as [n|].
  - unfold reshape in Hplan. simpl in Hplan.
    rewrite Hss, prod_app in Hplan. simpl in Hplan.
    rewrite Nat.mul_1_r, Nat.eqb_refl in Hplan.
    simpl in Hplan. rewrite Hp, Hpc in Hplan. simpl in Hplan.
    injection Hplan as <-.
    exists n, [n], [1], p, (data s), nd, kd, (default_axes fa Nd_).
    constructor; simpl; auto.
    + eexists; split; reflexivity.
    + unfold wf_array in Hwfs. rewrite Hss in Hwfs. assumption.
  - simpl in Hplan. rewrite Hp, Hpc in Hplan. simpl in Hplan.
    injection Hplan as <-.
    exists 1, [], [], p, (data s), nd, kd, (default_axes fa Nd_).
    constructor; simpl; rewrite ?app_nil_r; unfold astype; rewrite ?Hss; auto.
    + eexists; split; reflexivity.
    + unfold wf_array in Hwfs. rewrite Hss in Hwfs. assumption.
Qed.

(** *** The copy loop on arrays *)

Lemma for_range_copy (body : nat -> ndarray -> result ndarray) src si di b bs dst :
  (forall bat out,
     body bat out =
     (vals <- take src (map (fun i => i * b + bat) si) ;;
      put out (map (fun i => i * b + bat) di) vals)) ->
  (forall bat i, In bat bs -> In i si -> i * b + bat < prod (shape src)) ->
  (forall bat i, In bat bs -> In i di -> i * b + bat < prod (shape dst)) ->
  length si = length di ->
  for_range bs body dst =
  Ok (mk_ndarray (dt dst) (shape dst)
        (fold_left
           (fun acc bat =>
              put_list (map (fun i => i * b + bat) di)
                (map (fun j => nth j (data src) C0) (map (fun i => i * b + bat) si))
                acc)
           bs (data dst))).
Proof.
  intros Hbody. revert dst.
  induction bs as [|bat bs IH]; intros dst Hs Hd Hl; simpl.
  - destruct dst; reflexivity.
  - rewrite Hbody. unfold take.
    assert (E1 : forallb (fun i => i <? prod (shape src)) (map (fun i => i * b + bat) si) = true).
    { apply forallb_forall. intros q Hq. apply in_map_iff in Hq.
      destruct Hq as (i & <- & Hi). apply Nat.ltb_lt. apply Hs; simpl; auto. }
    rewrite E1. simpl. unfold put. simpl.
    assert (E2 : forallb (fun i => i <? prod (shape dst)) (map (fun i => i * b + bat) di) = true).
    { apply forallb_forall. intros q Hq. apply in_map_iff in Hq.
      destruct Hq as (i & <- & Hi). apply Nat.ltb_lt. apply Hd; simpl; auto. }
    rewrite E2. simpl.
    rewrite !length_map, Hl, Nat.eqb_refl. cbn [bind].
    rewrite IH; simpl; auto.
    + intros; apply Hs; simpl; auto.
    + intros; apply Hd; simpl; auto.
Qed.

Section Stages.

Variable fd : dtype -> dtype.
Variables (op : NUFFT_cpu) (Nd_ Kd_ : list nat) (M B : nat) (sfx sfx1 : list nat).
Variables (p : spmatrix) (sn_data : list C) (nd kd axes : list nat).
Hypothesis V : planned_view op Nd_ Kd_ M B sfx sfx1 p sn_data nd kd axes.

Lemma prod_sfx : prod sfx = B.
Proof.
  destruct (pv_sfx V) as [(-> & _ & ->) | (-> & _ & _)]; simpl; lia.
Qed.

Lemma batch_pos : 0 < B.
Proof.
  destruct (pv_sfx V) as [(_ & _ & ->) | (_ & _ & H)]; lia.
Qed.

Lemma nd_lt i : In i nd -> i < prod Nd_.
Proof.
  intros H. destruct (pv_tables V) as (_ & Hperm & _ & _).
  apply (Permutation_in _ Hperm) in H. apply in_seq in H. lia.
Qed.

Lemma kd_lt i : In i kd -> i < prod Kd_.
Proof.
  intros H. destruct (pv_tables V) as (_ & _ & _ & Hlt).
  rewrite Forall_forall in Hlt. auto.
Qed.

Lemma x2xx_ok x :
  shape x = Nd_ ++ sfx -> wf_array x ->
  exists d,
    x2xx op x = Ok (mk_ndarray (result_type (dt x) (self_dtype op)) (Nd_ ++ sfx) d) /\
    length d = prod Nd_ * B /\
    (sfx = [] -> d = map2 Cmul (data x) sn_data).
Proof.
  intros Hs Hw. unfold x2xx. rewrite (pv_sn V). simpl.
  destruct (pv_sfx V) as [(E1 & E2 & E3) | (E1 & E2 & E3)]; subst sfx sfx1.
  - subst B. rewrite app_nil_r in *.
    rewrite multiply_same_shape; simpl; auto.
    + rewrite Hs. eexists; split; [reflexivity|]. split; auto.
      rewrite map2_length, (pv_sn_len V).
      unfold wf_array in Hw. rewrite Hs in Hw. lia.
    + unfold wf_array; simpl. apply (pv_sn_len V).
  - destruct (@multiply_batch x (mk_ndarray (self_dtype op) (Nd_ ++ [1]) sn_data) Nd_ B)
      as (d & Hd & Hl); auto.
    + unfold wf_array; simpl. rewrite prod_app. simpl. rewrite (pv_sn_len V). lia.
    + exists d. simpl in Hd. rewrite Hd. split; [reflexivity|]. split.
      * rewrite Hl, prod_app. simpl. lia.
      * intros; discriminate.
Qed.

Lemma scatter_ok xx :
  prod Nd_ * B <= prod (shape xx) ->
  scatter op xx =
  Ok (mk_ndarray (self_dtype op) (Kd_ ++ sfx)
        (copy_loop nd kd B (data xx) (repeat C0 (prod Kd_ * B)))).
Proof.
  intros Hs. unfold scatter. rewrite (pv_mKd V), (pv_batch V). simpl.
  rewrite for_range_copy with (src := xx) (si := nd) (di := kd) (b := B).
  - unfold zeros, copy_loop. simpl. rewrite prod_app, prod_sfx. reflexivity.
  - intros bat out. cbv beta. rewrite ?(pv_nd V), ?(pv_kd V), ?(pv_batch V). reflexivity.
  - intros bat i Hb Hi. apply in_seq in Hb. apply nd_lt in Hi. nia.
  - intros bat i Hb Hi. apply in_seq in Hb. apply kd_lt in Hi.
    simpl. rewrite prod_app, prod_sfx. nia.
  - apply (pv_tables V).
Qed.

Lemma gather_ok k :
  prod (shape k) = prod Kd_ * B ->
  gather op k =
  Ok (mk_ndarray (self_dtype op) (Nd_ ++ sfx)
        (copy_loop kd nd B (data k) (repeat C0 (prod Nd_ * B)))).
Proof.
  intros Hs. unfold gather. rewrite (pv_mNd V), (pv_batch V). simpl.
  rewrite for_range_copy with (src := k) (si := kd) (di := nd) (b := B).
  - unfold zeros, copy_loop. simpl. rewrite prod_app, prod_sfx. reflexivity.
  - intros bat out. cbv beta. rewrite ?(pv_nd V), ?(pv_kd V), ?(pv_batch V). reflexivity.
  - intros bat i Hb Hi. apply in_seq in Hb. apply kd_lt in Hi. rewrite Hs. nia.
  - intros bat i Hb Hi. apply in_seq in Hb. apply nd_lt in Hi.
    simpl. rewrite prod_app, prod_sfx. nia.
  - symmetry. apply (pv_tables V).
Qed.

Lemma Kd_pos : Forall (lt 0) Kd_.
Proof.
  pose proof (pv_le V) as Hle. pose proof (pv_pos V) as Hpos.
  clear V. induction Hle as [|x y l l' Hxy Hle IH]; [constructor|].
  inversion Hpos; subst. constructor; [lia | apply IH; assumption].
Qed.

Lemma axes_checks :
  forallb (fun ax => ax <? length (Kd_ ++ sfx)) axes = true /\
  existsb (fun ax => nth ax (Kd_ ++ sfx) 0 =? 0) axes = false /\
  Forall (fun a => nth a (Kd_ ++ sfx) 0 <> 0) axes.
Proof.
  pose proof (pv_axes_ok V) as Hax. pose proof Kd_pos as HK.
  assert (Hnz : Forall (fun a => nth a (Kd_ ++ sfx) 0 <> 0) axes).
  { eapply Forall_impl; [|exact Hax]. intros a Ha. cbv beta in Ha.
    rewrite app_nth1 by assumption.
    rewrite Forall_forall in HK.
    assert (0 < nth a Kd_ 0) by (apply HK; apply nth_In; assumption). lia. }
  split; [|split]; auto.
  - apply forallb_forall. intros a Ha. rewrite Forall_forall in Hax.
    apply Nat.ltb_lt. rewrite length_app. specialize (Hax a Ha). lia.
  - destruct (existsb _ axes) eqn:E; auto.
    apply existsb_exists in E. destruct E as (a & Ha & E).
    apply Nat.eqb_eq in E. rewrite Forall_forall in Hnz.
    exfalso. apply (Hnz a Ha). assumption.
Qed.

Lemma fftn_ok a :
  shape a = Kd_ ++ sfx ->
  fftn fd a axes =
  Ok (mk_ndarray (fftn_dtype fd (dt a) axes) (Kd_ ++ sfx)
        (fold_right (fft_data (Kd_ ++ sfx)) (data a) axes)).
Proof.
  intros Hs. unfold fftn. rewrite Hs.
  destruct axes_checks as (-> & -> & _). reflexivity.
Qed.

Lemma ifftn_ok a :
  shape a = Kd_ ++ sfx ->
  ifftn fd a axes =
  Ok (mk_ndarray (fftn_dtype fd (dt a) axes) (Kd_ ++ sfx)
        (fold_right (ifft_data (Kd_ ++ sfx)) (data a) axes)).
Proof.
  intros Hs. unfold ifftn. rewrite Hs.
  destruct axes_checks as (-> & -> & _). reflexivity.
Qed.

Lemma xx2k_ok xx :
  prod Nd_ * B <= prod (shape xx) ->
  xx2k fd op xx =
  Ok (mk_ndarray (fftn_dtype fd (self_dtype op) axes) (Kd_ ++ sfx)
        (fold_right (fft_data (Kd_ ++ sfx))
           (copy_loop nd kd B (data xx) (repeat C0 (prod Kd_ * B))) axes)).
Proof.
  intros Hs. unfold xx2k. rewrite (scatter_ok _ Hs). simpl.
  rewrite (pv_axes V). simpl. rewrite fftn_ok by reflexivity. reflexivity.
Qed.

Lemma k2xx_ok k :
  shape k = Kd_ ++ sfx ->
  k2xx fd op k =
  Ok (mk_ndarray (self_dtype op) (Nd_ ++ sfx)
        (copy_loop kd nd B
           (fold_right (ifft_data (Kd_ ++ sfx)) (data k) axes)
           (repeat C0 (prod Nd_ * B)))).
Proof.
  intros Hs. unfold k2xx. rewrite (pv_axes V). simpl.
  rewrite ifftn_ok by assumption. simpl.
  rewrite gather_ok; [reflexivity|]. simpl. rewrite prod_app, prod_sfx. reflexivity.
Qed.

Lemma k2y_ok k :
  shape k = Kd_ ++ sfx ->
  k2y op k =
  Ok (mk_ndarray (result_type (sp_dt p) (dt k)) (M :: sfx)
        (spmm (entries p) M B (data k))).
Proof.
  intros Hs. unfold k2y, k2vec, vec2y, reshape.
  rewrite (pv_mpK V). simpl. rewrite Hs, prod_app, (pv_sp V), Nat.eqb_refl. simpl.
  unfold dot. rewrite (pv_shape_p V). simpl.
  destruct (pv_sfx V) as [(E1 & _ & E3) | (E1 & _ & _)]; subst sfx; simpl;
    rewrite Nat.eqb_refl; try subst B; reflexivity.
Qed.

Lemma y2k_ok y :
  shape y = M :: sfx ->
  y2k op y =
  Ok (mk_ndarray (result_type (sp_dt p) (dt y)) (Kd_ ++ sfx)
        (spmm (entries (getH p)) (prod Kd_) B (data y))).
Proof.
  intros Hs. unfold y2k, y2vec, vec2k, dot.
  rewrite (pv_spH V). simpl. rewrite Hs, (pv_shape_p V). simpl.
  destruct (pv_sfx V) as [(E1 & _ & E3) | (E1 & _ & _)]; subst sfx; simpl;
    rewrite Nat.eqb_refl; simpl; rewrite (pv_mKd V); simpl; unfold reshape; simpl;
    rewrite prod_app; simpl; rewrite ?Nat.mul_1_r, Nat.eqb_refl; try subst B; reflexivity.
Qed.

End Stages.

Arguments prod_sfx {op Nd_ Kd_ M B sfx sfx1 p sn_data nd kd axes} V.
Arguments batch_pos {op Nd_ Kd_ M B sfx sfx1 p sn_data nd kd axes} V.

Lemma result_type_idem d : result_type d d = d.
Proof. destruct d; reflexivity. Qed.

Section Pipelines.

Variable fd : dtype -> dtype.
Variables (op : NUFFT_cpu) (Nd_ Kd_ : list nat) (M B : nat) (sfx sfx1 : list nat).
Variables (p : spmatrix) (sn_data : list C) (nd kd axes : list nat).
Hypothesis V : planned_view op Nd_ Kd_ M B sfx sfx1 p sn_data nd kd axes.

Lemma forward_ok x :
  shape x = Nd_ ++ sfx -> wf_array x ->
  exists d,
    length d = prod Nd_ * B /\
    (sfx = [] -> d = map2 Cmul (data x) sn_data) /\
    forward fd op x =
    Ok (mk_ndarray (result_type (sp_dt p) (fftn_dtype fd (self_dtype op) axes))
          (M :: sfx)
          (spmm (entries p) M B
             (fold_right (fft_data (Kd_ ++ sfx))
                (copy_loop nd kd B d (repeat C0 (prod Kd_ * B))) axes))).
Proof.
  intros Hs Hw. destruct (x2xx_ok V Hs Hw) as (d & Hx & Hl & Hd).
  exists d. split; [assumption|]. split; [assumption|].
  unfold forward. rewrite Hx. cbn [bind].
  rewrite (xx2k_ok fd V) by (simpl; rewrite prod_app, (prod_sfx V); lia).
  cbn [bind]. rewrite (k2y_ok V) by reflexivity. reflexivity.
Qed.

Lemma adjoint_ok y :
  shape y = M :: sfx ->
  exists d,
    length d = prod Nd_ * B /\
    (sfx = [] ->
     d = map2 Cmul
           (copy_loop kd nd 1
              (fold_right (ifft_data Kd_)
                 (spmm (entries (getH p)) (prod Kd_) 1 (data y)) axes)
              (repeat C0 (prod Nd_)))
           sn_data) /\
    adjoint fd op y = Ok (mk_ndarray (self_dtype op) (Nd_ ++ sfx) d).
Proof.
  intros Hs. unfold adjoint. rewrite (y2k_ok V) by assumption. cbn [bind].
  rewrite (k2xx_ok fd V) by reflexivity. cbn [bind]. unfold xx2x.
  match goal with |- context [x2xx op ?a] =>
    destruct (x2xx_ok V (x := a)) as (d & Hx & Hl & Hd)
  end.
  - reflexivity.
  - unfold wf_array. simpl. rewrite copy_loop_length, repeat_length, prod_app, (prod_sfx V).
    reflexivity.
  - exists d. split; [assumption|]. split.
    + intros E. rewrite (Hd E). simpl.
      destruct (pv_sfx V) as [(_ & _ & ->) | (E1 & _ & _)]; [|congruence].
      subst sfx. rewrite app_nil_r, Nat.mul_1_r. reflexivity.
    + rewrite Hx. simpl. rewrite result_type_idem. reflexivity.
Qed.

End Pipelines.

(* ================================================================== *)
(** ** A small planned operator: Nd = (1,), Kd = (2,), one sample *)
(* ================================================================== *)

Definition p0 : spmatrix := mk_spmatrix complex64 (1, 2) [(0, 0, C1)].
Definition sn0 : ndarray := mk_ndarray float64 [1] [C1].
Definition st0 : St := mk_St [[0%R]] [1] [2] [1] 1 (Some p0) (Some sn0).
Definition hp0 (om : Om) (Nd_ Kd_ Jd_ axes : list nat) : result St := Ok st0.

Definition op0 : NUFFT_cpu :=
  snd (plan hp0 preindex_copy init [[0%R]] [1] [2] [1] None None).

Lemma valid_tables_0 : valid_tables [1] [2] [0] [0].
Proof.
  repeat split; simpl.
  - apply Permutation_refl.
  - repeat constructor. simpl; tauto.
  - repeat constructor.
Qed.

Lemma planned_op0 : planned op0.
Proof.
  apply planned_intro with (hp := hp0) (pc := preindex_copy) (self := init)
    (om := [[0%R]]) (Nd_ := [1]) (Kd_ := [2]) (Jd_ := [1]) (fa := None) (b := None)
    (st0 := st0) (p := p0) (s := sn0) (nd := [0]) (kd := [0]) (ne := 1);
    try reflexivity; try exact valid_tables_0; try exact I; repeat constructor.
Qed.

Lemma view_op0 : planned_view op0 [1] [2] 1 1 [] [] p0 [C1] [0] [0] [0].
Proof.
  constructor; try reflexivity; try exact valid_tables_0;
    try (eexists; split; reflexivity); try (left; auto; fail); repeat constructor.
Qed.

#[local] Arguments twiddle : simpl never.
#[local] Arguments Cmul : simpl never.
#[local] Arguments Cadd : simpl never.
#[local] Arguments Cconj : simpl never.

Lemma twiddle_0_r sg n j : twiddle sg n j 0 = C1.
Proof.
  unfold twiddle. rewrite Nat.mul_0_r. simpl.
  replace (sg * 2 * PI * 0 / INR n)%R with 0%R by (unfold Rdiv; ring).
  apply Cexp_0.
Qed.

Lemma twiddle_0_l sg n k : twiddle sg n 0 k = C1.
Proof. rewrite twiddle_sym. apply twiddle_0_r. Qed.

Lemma Cconj_1 : Cconj C1 = C1.
Proof. unfold Cconj, C1; simpl. f_equal. lra. Qed.

Create Rewrite HintDb cx.
#[local] Hint Rewrite Cmul_1_l Cmul_1_r Cmul_0_l Cmul_0_r Cadd_0_l Cadd_0_r
  Cconj_1 Cconj_0 : cx.

(** Evaluate the buffer functions on a concrete input down to complex
    arithmetic. *)
Ltac nufft_eval :=
  unfold fft_data, ifft_data, copy_loop, spmm, unflatten, dft_axis; simpl;
  rewrite ?twiddle_0_r, ?twiddle_0_l; autorewrite with cx.

(* ================================================================== *)
(** ** The forward and adjoint maps on buffers (one channel) *)
(* ================================================================== *)

Definition forward_data (Kd_ : list nat) (M : nat) (p : spmatrix)
    (sn_data : list C) (nd kd axes : list nat) (dx : list C) : list C :=
  spmm (entries p) M 1
    (fold_right (fft_data Kd_)
       (copy_loop nd kd 1 (map2 Cmul dx sn_data) (repeat C0 (prod Kd_))) axes).

Definition adjoint_data (Nd_ Kd_ : list nat) (p : spmatrix)
    (sn_data : list C) (nd kd axes : list nat) (dy : list C) : list C :=
  map2 Cmul
    (copy_loop kd nd 1
       (fold_right (ifft_data Kd_)
          (spmm (entries (getH p)) (prod Kd_) 1 dy) axes)
       (repeat C0 (prod Nd_)))
    sn_data.

Lemma forward_data_length Kd_ M p sn_data nd kd axes dx :
  length (forward_data Kd_ M p sn_data nd kd axes dx) = M.
Proof. unfold forward_data. rewrite spmm_length. lia. Qed.

Lemma adjoint_data_length Nd_ Kd_ p sn_data nd kd axes dy :
  length sn_data = prod Nd_ ->
  length (adjoint_data Nd_ Kd_ p sn_data nd kd axes dy) = prod Nd_.
Proof.
  intros H. unfold adjoint_data.
  rewrite map2_length, copy_loop_length, repeat_length. lia.
Qed.

Lemma forward_data_lincomb Kd_ M p sn_data nd kd axes ca u cb v :
  length u = length v -> length u = length sn_data ->
  forward_data Kd_ M p sn_data nd kd axes (lincomb ca u cb v) =
  lincomb ca (forward_data Kd_ M p sn_data nd kd axes u)
          cb (forward_data Kd_ M p sn_data nd kd axes v).
Proof.
  intros Huv Hus. unfold forward_data.
  rewrite map2_Cmul_lincomb by assumption.
  rewrite <- (lincomb_zeros ca cb (prod Kd_)) at 1.
  rewrite copy_loop_lincomb by (rewrite ?map2_length, ?repeat_length; lia).
  rewrite fold_fft_lincomb by (rewrite copy_loop_length, repeat_length; reflexivity).
  apply spmm_lincomb.
  rewrite !fold_fft_length; auto; rewrite copy_loop_length, repeat_length; reflexivity.
Qed.

Lemma map_Cmul_lincomb c ca u cb v :
  map (Cmul c) (lincomb ca u cb v) = lincomb ca (map (Cmul c) u) cb (map (Cmul c) v).
Proof.
  revert v; induction u as [|x u IH]; intros [|y v]; simpl; auto.
  unfold lincomb in *. simpl. rewrite IH. f_equal.
  generalize x y. csolve.
Qed.

Lemma ifft_data_lincomb s a ca u cb v :
  length u = length v ->
  ifft_data s a (lincomb ca u cb v) = lincomb ca (ifft_data s a u) cb (ifft_data s a v).
Proof.
  intros H. unfold ifft_data. rewrite <- map_Cmul_lincomb. f_equal.
  rewrite <- flatten_lincomb. apply flatten_ext.
  intros mi _. rewrite <- dft_axis_lincomb. unfold dft_axis. apply Csum_ext.
  intros j _. rewrite unflatten_lincomb by assumption. reflexivity.
Qed.

Lemma fold_ifft_lincomb s axes ca u cb v :
  length u = prod s -> length v = prod s ->
  fold_right (ifft_data s) (lincomb ca u cb v) axes =
  lincomb ca (fold_right (ifft_data s) u axes) cb (fold_right (ifft_data s) v axes).
Proof.
  intros Hu Hv. induction axes as [|a axes IH]; simpl; [reflexivity|].
  rewrite IH. apply ifft_data_lincomb.
  rewrite !fold_ifft_length by assumption. reflexivity.
Qed.

Lemma adjoint_data_lincomb Nd_ Kd_ p sn_data nd kd axes ca u cb v :
  length u = length v ->
  adjoint_data Nd_ Kd_ p sn_data nd kd axes (lincomb ca u cb v) =
  lincomb ca (adjoint_data Nd_ Kd_ p sn_data nd kd axes u)
          cb (adjoint_data Nd_ Kd_ p sn_data nd kd axes v).
Proof.
  intros Huv. unfold adjoint_data.
  rewrite spmm_lincomb by assumption.
  rewrite fold_ifft_lincomb by (rewrite spmm_length; lia).
  rewrite <- (lincomb_zeros ca cb (prod Nd_)) at 1.
  rewrite copy_loop_lincomb
    by (rewrite ?repeat_length, ?fold_ifft_length; auto; rewrite spmm_length; lia).
  apply map2_Cmul_lincomb.
  rewrite !copy_loop_length. reflexivity.
Qed.

Lemma lincomb_0 u : lincomb C0 u C0 u = repeat C0 (length u).
Proof.
  induction u as [|x u IH]; simpl; [reflexivity|].
  unfold lincomb in *. simpl. rewrite IH, !Cmul_0_l, Cadd_0_l. reflexivity.
Qed.

Lemma forward_data_zeros Kd_ M p sn_data nd kd axes n :
  n = length sn_data ->
  forward_data Kd_ M p sn_data nd kd axes (repeat C0 n) = repeat C0 M.
Proof.
  intros Hn.
  rewrite <- (lincomb_zeros C0 C0 n).
  rewrite forward_data_lincomb by (rewrite ?repeat_length; auto).
  rewrite lincomb_0, forward_data_length. reflexivity.
Qed.

Lemma adjoint_data_zeros Nd_ Kd_ p sn_data nd kd axes n :
  length sn_data = prod Nd_ ->
  adjoint_data Nd_ Kd_ p sn_data nd kd axes (repeat C0 n) = repeat C0 (prod Nd_).
Proof.
  intros Hn.
  rewrite <- (lincomb_zeros C0 C0 n).
  rewrite adjoint_data_lincomb by reflexivity.
  rewrite lincomb_0, adjoint_data_length by assumption. reflexivity.
Qed.

(** The forward map against [y] is the adjoint map against [x], up to
    the factor the unnormalised [fftn] and the normalised [ifftn] leave. *)
Lemma duality_data Nd_ Kd_ M p (sn_data : list C) nd kd axes dx dy :
  sp_shape p = (M, prod Kd_) -> wf_spmatrix p ->
  length sn_data = prod Nd_ -> Forall (fun z => snd z = 0%R) sn_data ->
  valid_tables Nd_ Kd_ nd kd ->
  Forall (fun a => nth a Kd_ 0 <> 0) axes ->
  length dx = prod Nd_ -> length dy = M ->
  inner (forward_data Kd_ M p sn_data nd kd axes dx) dy =
  Cmul (Cof_R (INR (axes_size Kd_ axes)))
       (inner dx (adjoint_data Nd_ Kd_ p sn_data nd kd axes dy)).
Proof.
  intros Hshape Hwf Hsn Hreal Htab Hax Hdx Hdy.
  unfold forward_data, adjoint_data.
  pose proof (@spmm_adjoint p
    (fold_right (fft_data Kd_)
       (copy_loop nd kd 1 (map2 Cmul dx sn_data) (repeat C0 (prod Kd_))) axes) dy Hwf) as H1.
  rewrite Hshape in H1. simpl in H1. rewrite H1; clear H1.
  2:{ apply fold_fft_length. rewrite copy_loop_length, repeat_length. reflexivity. }
  2:{ assumption. }
  rewrite fold_fft_adjoint; auto.
  2:{ rewrite copy_loop_length, repeat_length. reflexivity. }
  2:{ rewrite spmm_length. lia. }
  f_equal.
  rewrite (@scatter_gather_adjoint Nd_ Kd_ nd kd _ _ Htab).
  2:{ rewrite map2_length. lia. }
  2:{ apply fold_ifft_length. rewrite spmm_length. lia. }
  apply inner_scale_real;
    [ exact (eq_trans Hdx (eq_sym Hsn))
    | rewrite copy_loop_length, repeat_length; symmetry; exact Hsn
    | assumption ].
Qed.

(* ================================================================== *)
(** ** Claims on the one-channel operator *)
(* ================================================================== *)

Lemma single_channel op Nd_ Kd_ M B sfx sfx1 p sn_data nd kd axes :
  planned_view op Nd_ Kd_ M B sfx sfx1 p sn_data nd kd axes ->
  parallel_flag op = Some 0 -> sfx = [] /\ B = 1.
Proof.
  intros V H. rewrite (pv_flag V) in H. injection H as H.
  destruct (pv_sfx V) as [(E1 & _ & E3) | (E1 & _ & _)]; subst sfx; simpl in H;
    [auto | discriminate].
Qed.

(** One-channel forward and adjoint in terms of the buffer maps. *)
Lemma forward_single fd op Nd_ Kd_ M B sfx sfx1 p sn_data nd kd axes x :
  planned_view op Nd_ Kd_ M B sfx sfx1 p sn_data nd kd axes ->
  parallel_flag op = Some 0 ->
  shape x = Nd_ -> wf_array x ->
  forward fd op x =
  Ok (mk_ndarray (result_type (sp_dt p) (fftn_dtype fd (self_dtype op) axes)) [M]
        (forward_data Kd_ M p sn_data nd kd axes (data x))).
Proof.
  intros V Hf Hs Hw. destruct (single_channel V Hf) as (-> & ->).
  destruct (@forward_ok fd _ _ _ _ _ _ _ _ _ _ _ _ V x) as (d & _ & Hd & ->); auto.
  - rewrite app_nil_r. assumption.
  - rewrite (Hd eq_refl). unfold forward_data.
    rewrite app_nil_r, Nat.mul_1_r. reflexivity.
Qed.

Lemma adjoint_single fd op Nd_ Kd_ M B sfx sfx1 p sn_data nd kd axes y :
  planned_view op Nd_ Kd_ M B sfx sfx1 p sn_data nd kd axes ->
  parallel_flag op = Some 0 ->
  shape y = [M] ->
  adjoint fd op y =
  Ok (mk_ndarray (self_dtype op) Nd_
        (adjoint_data Nd_ Kd_ p sn_data nd kd axes (data y))).
Proof.
  intros V Hf Hs. destruct (single_channel V Hf) as (-> & ->).
  destruct (@adjoint_ok fd _ _ _ _ _ _ _ _ _ _ _ _ V y) as (d & _ & Hd & ->); auto.
  rewrite (Hd eq_refl). unfold adjoint_data. rewrite app_nil_r. reflexivity.
Qed.

(** [|a - b| <= tol * max(|a|, |b|)], both sides squared. *)
Definition within_rel_tol (tol : R) (a b : C) : Prop :=
  (Cnorm2 (Cadd a (Cneg b)) <= tol * tol * Rmax (Cnorm2 a) (Cnorm2 b))%R.

(** C1 (as amended).  For a planned one-channel operator with a real
    scaling array, an image [x] of shape [Nd] and data [y] of shape [(M,)],
    [<forward(x), y>] equals [<x, adjoint(y)>] multiplied by the product of
    the lengths [Kd[ax]] of the transformed axes: [xx2k] uses the
    unnormalised [fftn], [k2xx] the [ifftn] that divides by those lengths. *)
Theorem adjoint_duality_up_to_fft_size fd op x y Kd_ axes s :
  planned op -> parallel_flag op = Some 0 ->
  Kd op = Some Kd_ -> ft_axes op = Some axes ->
  sn op = Some s -> Forall (fun z => snd z = 0%R) (data s) ->
  multi_Nd op = Some (shape x) -> wf_array x ->
  multi_M op = Some (shape y) -> wf_array y ->
  exists fx ay,
    forward fd op x = Ok fx /\ adjoint fd op y = Ok ay /\
    inner (data fx) (data y) =
    Cmul (Cof_R (INR (axes_size Kd_ axes))) (inner (data x) (data ay)).
Proof.
  intros Hp Hf HKd Hax Hsn Hreal Hx Hwx Hy Hwy.
  destruct (planned_view_of Hp)
    as (Nd' & Kd' & M & B & sfx & sfx1 & p & snd_ & nd & kd & axes' & V).
  destruct (single_channel V Hf) as (E1 & E2).
  rewrite (pv_Kd V) in HKd. injection HKd as <-.
  rewrite (pv_axes V) in Hax. injection Hax as <-.
  rewrite (pv_mNd V) in Hx. injection Hx as Hx.
  rewrite (pv_mM V) in Hy. injection Hy as Hy.
  rewrite (pv_sn V) in Hsn. injection Hsn as <-. simpl in Hreal.
  subst sfx B. rewrite app_nil_r in Hx.
  rewrite (forward_single fd V Hf (eq_sym Hx) Hwx).
  rewrite (adjoint_single fd y V Hf (eq_sym Hy)).
  eexists _, _. split; [reflexivity|]. split; [reflexivity|]. simpl.
  apply duality_data with (M := M).
  - apply (pv_shape_p V).
  - apply (pv_wf_p V).
  - apply (pv_sn_len V).
  - assumption.
  - apply (pv_tables V).
  - pose proof (axes_checks V) as (_ & _ & H). rewrite app_nil_r in H. exact H.
  - unfold wf_array in Hwx. rewrite <- Hx in Hwx. assumption.
  - unfold wf_array in Hwy. rewrite <- Hy in Hwy. simpl in Hwy. lia.
Qed.

Definition x0 : ndarray := mk_ndarray complex64 [1] [C1].
Definition y0 : ndarray := mk_ndarray complex64 [1] [C1].

Lemma adjoint_duality_up_to_fft_size_witness :
  exists fx ay,
    forward numpy1_fft_dtype op0 x0 = Ok fx /\
    adjoint numpy1_fft_dtype op0 y0 = Ok ay /\
    inner (data fx) (data y0) =
    Cmul (Cof_R (INR (axes_size [2] [0]))) (inner (data x0) (data ay)).
Proof.
  apply (@adjoint_duality_up_to_fft_size numpy1_fft_dtype op0 x0 y0 [2] [0]
           (mk_ndarray complex64 [1] [C1])).
  - exact planned_op0.
  - reflexivity.
  - reflexivity.
  - reflexivity.
  - reflexivity.
  - repeat constructor.
  - reflexivity.
  - reflexivity.
  - reflexivity.
  - reflexivity.
Defined.

Lemma forward_op0_x0 :
  forward numpy1_fft_dtype op0 x0 = Ok (mk_ndarray complex128 [1] [C1]).
Proof.
  rewrite (forward_single numpy1_fft_dtype (x := x0) view_op0) by reflexivity.
  unfold forward_data. simpl. nufft_eval. reflexivity.
Qed.

Lemma adjoint_op0_y0 :
  adjoint numpy1_fft_dtype op0 y0 =
  Ok (mk_ndarray complex64 [1] [Cof_R (/ 2)]).
Proof.
  rewrite (adjoint_single numpy1_fft_dtype y0 view_op0) by reflexivity.
  unfold adjoint_data. simpl. nufft_eval. simpl. autorewrite with cx.
  reflexivity.
Qed.

(** C1 (counterexample).  Nd = (1,), Kd = (2,), one sample with
    interpolation row (1, 0), sn = 1: [<forward(x), y> = 1] while
    [<x, adjoint(y)> = 1/2]. *)
Lemma adjoint_duality_fails_at_Kd2 :
  planned op0 /\
  exists fx ay,
    forward numpy1_fft_dtype op0 x0 = Ok fx /\
    adjoint numpy1_fft_dtype op0 y0 = Ok ay /\
    inner (data fx) (data y0) = C1 /\
    inner (data x0) (data ay) = Cof_R (/ 2) /\
    ~ within_rel_tol (/ 10000) (inner (data fx) (data y0)) (inner (data x0) (data ay)).
Proof.
  split; [exact planned_op0|].
  rewrite forward_op0_x0, adjoint_op0_y0. eexists _, _.
  split; [reflexivity|]. split; [reflexivity|].
  assert (E1 : inner [C1] [C1] = C1) by (simpl; autorewrite with cx; reflexivity).
  assert (E2 : inner [C1] [Cof_R (/ 2)] = Cof_R (/ 2)).
  { simpl. rewrite Cconj_of_R. autorewrite with cx. reflexivity. }
  simpl data. rewrite E1, E2. split; [reflexivity|]. split; [reflexivity|].
  unfold within_rel_tol, Cnorm2, Cadd, Cneg, Cof_R, C1; simpl.
  rewrite Rmax_left by lra. lra.
Qed.

(** The dtype of [c * x] for a Python complex scalar [c]. *)
Definition to_complex (d : dtype) : dtype :=
  if is_double d then complex128 else complex64.

(** [a*x1 + b*x2] for two arrays of one shape. *)
Definition axpby (ca : C) (x1 : ndarray) (cb : C) (x2 : ndarray) : ndarray :=
  mk_ndarray (result_type (to_complex (dt x1)) (to_complex (dt x2)))
             (shape x1) (lincomb ca (data x1) cb (data x2)).

(** C7.  [forward] is linear: over exact arithmetic
    [forward(a*x1 + b*x2) = a*forward(x1) + b*forward(x2)] for a planned
    one-channel operator and images of shape [Nd]. *)
Theorem forward_linear fd op ca cb x1 x2 :
  planned op -> parallel_flag op = Some 0 ->
  multi_Nd op = Some (shape x1) -> shape x2 = shape x1 ->
  wf_array x1 -> wf_array x2 ->
  exists y1 y2 y,
    forward fd op x1 = Ok y1 /\ forward fd op x2 = Ok y2 /\
    forward fd op (axpby ca x1 cb x2) = Ok y /\
    multi_M op = Some (shape y) /\
    shape y = shape (axpby ca y1 cb y2) /\
    data y = data (axpby ca y1 cb y2).
Proof.
  intros Hp Hf Hx Hs W1 W2.
  destruct (planned_view_of Hp)
    as (Nd' & Kd' & M & B & sfx & sfx1 & p & snd_ & nd & kd & axes' & V).
  destruct (single_channel V Hf) as (E1 & E2).
  rewrite (pv_mNd V) in Hx. injection Hx as Hx. subst sfx B.
  rewrite app_nil_r in Hx.
  unfold wf_array in W1, W2. rewrite Hs in W2. rewrite <- Hx in W1, W2.
  rewrite (forward_single fd (x := x1) V Hf) by (auto; unfold wf_array; congruence).
  rewrite (forward_single fd (x := x2) V Hf) by (auto; unfold wf_array; congruence).
  rewrite (forward_single fd (x := axpby ca x1 cb x2) V Hf).
  - eexists _, _, _. repeat (split; [reflexivity|]). split.
    + rewrite (pv_mM V). reflexivity.
    + split; [reflexivity|]. simpl. apply forward_data_lincomb.
      * congruence.
      * rewrite (pv_sn_len V). assumption.
  - simpl. auto.
  - unfold wf_array. simpl. rewrite lincomb_length, W1, W2, <- Hx. lia.
Qed.

Lemma forward_linear_witness :
  exists y1 y2 y,
    forward numpy1_fft_dtype op0 x0 = Ok y1 /\
    forward numpy1_fft_dtype op0 y0 = Ok y2 /\
    forward numpy1_fft_dtype op0 (axpby C1 x0 C1 y0) = Ok y /\
    multi_M op0 = Some (shape y) /\
    shape y = shape (axpby C1 y1 C1 y2) /\
    data y = data (axpby C1 y1 C1 y2).
Proof.
  apply (@forward_linear numpy1_fft_dtype op0 C1 C1 x0 y0).
  - exact planned_op0.
  - reflexivity.
  - reflexivity.
  - reflexivity.
  - reflexivity.
  - reflexivity.
Defined.

(** C6.  Zero input: [forward(zeros(Nd))] is exactly [zeros(M)] and
    [adjoint(zeros(M))] is exactly [zeros(Nd)], for a planned one-channel
    operator. *)
Theorem zero_input fd op Nd_ M_ dx dy :
  planned op -> parallel_flag op = Some 0 ->
  multi_Nd op = Some Nd_ -> multi_M op = Some [M_] ->
  (exists y, forward fd op (zeros Nd_ dx) = Ok y /\
             shape y = shape (zeros [M_] dy) /\ data y = data (zeros [M_] dy)) /\
  (exists x, adjoint fd op (zeros [M_] dy) = Ok x /\
             shape x = shape (zeros Nd_ dx) /\ data x = data (zeros Nd_ dx)).
Proof.
  intros Hp Hf Hx Hy.
  destruct (planned_view_of Hp)
    as (Nd' & Kd' & M & B & sfx & sfx1 & p & snd_ & nd & kd & axes' & V).
  destruct (single_channel V Hf) as (E1 & E2).
  rewrite (pv_mNd V) in Hx. injection Hx as Hx.
  rewrite (pv_mM V) in Hy. injection Hy as Hy _.
  subst sfx B M_. rewrite app_nil_r in Hx. subst Nd_.
  split.
  - rewrite (forward_single fd (x := zeros Nd' dx) V Hf)
      by (try reflexivity; unfold wf_array; simpl; apply repeat_length).
    eexists. split; [reflexivity|]. split; [reflexivity|]. simpl.
    rewrite Nat.mul_1_r. apply forward_data_zeros.
    symmetry. apply (pv_sn_len V).
  - rewrite (adjoint_single fd (zeros [M] dy) V Hf) by reflexivity.
    eexists. split; [reflexivity|]. split; [reflexivity|]. simpl.
    apply adjoint_data_zeros. apply (pv_sn_len V).
Qed.

Lemma zero_input_witness :
  (exists y, forward numpy1_fft_dtype op0 (zeros [1] complex64) = Ok y /\
             shape y = shape (zeros [1] complex64) /\
             data y = data (zeros [1] complex64)) /\
  (exists x, adjoint numpy1_fft_dtype op0 (zeros [1] complex64) = Ok x /\
             shape x = shape (zeros [1] complex64) /\
             data x = data (zeros [1] complex64)).
Proof.
  apply (@zero_input numpy1_fft_dtype op0 [1] 1 complex64 complex64).
  - exact planned_op0.
  - reflexivity.
  - reflexivity.
  - reflexivity.
Defined.

Lemma index_pairs_valid Nd_ Kd_ :
  Forall2 le Nd_ Kd_ ->
  valid_tables Nd_ Kd_ (map fst (index_pairs Nd_ Kd_)) (map snd (index_pairs Nd_ Kd_)).
Proof.
  intros H. destruct (preindex_copy_valid H) as (nd & kd & ne & E & Hv & _).
  unfold preindex_copy in E. injection E as <- <- _. exact Hv.
Qed.


Lemma is_complex_result_type a b :
  is_complex b = true -> is_complex (result_type a b) = true.
Proof. destruct a, b; simpl; intros; try discriminate; reflexivity. Qed.

Lemma is_complex_fftn_dtype fd d axes :
  (forall d', is_complex (fd d') = true) -> is_complex d = true ->
  is_complex (fftn_dtype fd d axes) = true.
Proof. intros Hfd Hd. destruct axes; simpl; [exact Hd | apply Hfd]. Qed.

(** C8.  The shape contract of the concrete scenario: an operator planned
    with Nd = (16,16), Kd = (32,32), Jd = (6,6) and M = 100 samples maps a
    (16,16) complex array to a (100,) complex array, and planned with
    batch = 4 maps a (16,16,4) complex array to a (100,4) complex array.
    The operator's [dtype] is complex, as [__init__] sets it: without any
    transform axis [fftn] returns the buffer in that dtype. *)
Theorem shape_contract fd op x :
  planned op ->
  Nd op = Some [16; 16] -> Kd op = Some [32; 32] ->
  option_map st_Jd (st op) = Some [6; 6] ->
  option_map st_M (st op) = Some 100 ->
  (forall d, is_complex (fd d) = true) ->
  is_complex (self_dtype op) = true ->
  is_complex (dt x) = true -> wf_array x ->
  (parallel_flag op = Some 0 -> shape x = [16; 16] ->
   exists y, forward fd op x = Ok y /\ shape y = [100] /\
             wf_array y /\ is_complex (dt y) = true) /\
  (parallel_flag op = Some 1 -> batch op = Some 4 -> shape x = [16; 16; 4] ->
   exists y, forward fd op x = Ok y /\ shape y = [100; 4] /\
             wf_array y /\ is_complex (dt y) = true).
Proof.
  intros Hp HNd HKd _ HM Hfd Hop Hcx Hw.
  destruct (planned_view_of Hp)
    as (Nd' & Kd' & M & B & sfx & sfx1 & p & snd_ & nd & kd & axes' & V).
  rewrite (pv_Nd V) in HNd. injection HNd as ->.
  rewrite (pv_Kd V) in HKd. injection HKd as ->.
  destruct (pv_st V) as (st' & Hst & HM'). rewrite Hst in HM. simpl in HM.
  injection HM as HM. rewrite HM' in HM. subst M.
  split.
  - intros Hf Hs. destruct (single_channel V Hf) as (E1 & E2). subst sfx B.
    destruct (@forward_ok fd _ _ _ _ _ _ _ _ _ _ _ _ V x) as (d & _ & _ & ->); auto.
    eexists. split; [reflexivity|]. split; [reflexivity|]. split.
    + unfold wf_array. cbn [data shape]. rewrite spmm_length. reflexivity.
    + simpl. apply is_complex_result_type. apply is_complex_fftn_dtype; assumption.
  - intros Hf Hb Hs. rewrite (pv_flag V) in Hf. injection Hf as Hf.
    rewrite (pv_batch V) in Hb. injection Hb as ->.
    destruct (pv_sfx V) as [(E1 & _ & E3) | (E1 & _ & _)]; subst sfx;
      [discriminate|].
    destruct (@forward_ok fd _ _ _ _ _ _ _ _ _ _ _ _ V x) as (d & _ & _ & ->); auto.
    eexists. split; [reflexivity|]. split; [reflexivity|]. split.
    + unfold wf_array. cbn [data shape]. rewrite spmm_length. reflexivity.
    + simpl. apply is_complex_result_type. apply is_complex_fftn_dtype; assumption.
Qed.

(** The scenario's operators: no stored interpolation weight, sn = 1. *)
Definition p16 : spmatrix := mk_spmatrix complex64 (100, 1024) [].
Definition sn16 : ndarray := mk_ndarray float64 [16; 16] (repeat C1 256).
Definition st16 : St :=
  mk_St (repeat [0%R; 0%R] 100) [16; 16] [32; 32] [6; 6] 100 (Some p16) (Some sn16).
Definition hp16 (om : Om) (Nd_ Kd_ Jd_ axes : list nat) : result St := Ok st16.

Definition op16 (b : option nat) : NUFFT_cpu :=
  snd (plan hp16 preindex_copy init (repeat [0%R; 0%R] 100)
            [16; 16] [32; 32] [6; 6] None b).

Lemma planned_op16 b :
  match b with Some n => 0 < n | None => True end -> planned (op16 b).
Proof.
  intros Hb.
  apply planned_intro with (hp := hp16) (pc := preindex_copy) (self := init)
    (om := repeat [0%R; 0%R] 100) (Nd_ := [16; 16]) (Kd_ := [32; 32])
    (Jd_ := [6; 6]) (fa := None) (b := b)
    (st0 := st16) (p := p16) (s := sn16)
    (nd := map fst (index_pairs [16; 16] [32; 32]))
    (kd := map snd (index_pairs [16; 16] [32; 32]))
    (ne := length (index_pairs [16; 16] [32; 32]));
    try reflexivity; try assumption.
  - constructor.
  - repeat constructor.
  - repeat constructor.
  - repeat constructor.
  - apply index_pairs_valid. repeat constructor.
  - unfold op16. destruct b; reflexivity.
Qed.



Lemma shape_contract_witness :
  (exists y, forward numpy1_fft_dtype (op16 None) (zeros [16; 16] complex64) = Ok y /\
             shape y = [100] /\ wf_array y /\ is_complex (dt y) = true) /\
  (exists y, forward numpy1_fft_dtype (op16 (Some 4)) (zeros [16; 16; 4] complex64) = Ok y /\
             shape y = [100; 4] /\ wf_array y /\ is_complex (dt y) = true).
Proof.
  split.
  - apply (@shape_contract numpy1_fft_dtype (op16 None) (zeros [16; 16] complex64));
      try reflexivity.
    apply planned_op16. exact I.
  - apply (@shape_contract numpy1_fft_dtype (op16 (Some 4)) (zeros [16; 16; 4] complex64));
      try reflexivity.
    apply planned_op16. simpl. lia.
Defined.

(* ================================================================== *)
(** ** The single-channel class [NUFFT] of [transform_cpu.py]:
       its interpolation and gridding stage *)
(* ================================================================== *)

Module TransformCpu.

(** The attributes the gridding methods read: [Kd], the dictionary entry
    [st['p']], and what [_precompute_sp] assigns. *)
Record NUFFT : Type := mk_NUFFT {
  Kd : option (list nat);
  st_p : option spmatrix;
  sp : option spmatrix;
  spH : option spmatrix;
  spHsp : option spmatrix
}.

(** [_precompute_sp]: [sp], [spH] and the product [spHsp = p^H p]. *)
Definition _precompute_sp (self : NUFFT) : result unit * NUFFT * list event :=
  let body : result NUFFT :=
    p <- key (st_p self) ;;
    let self1 := mk_NUFFT (Kd self) (st_p self) (Some p) (spH self) (spHsp self) in
    let self2 := mk_NUFFT (Kd self1) (st_p self1) (sp self1)
                          (Some (tocsr (sp_copy (getH p)))) (spHsp self1) in
    pHp <- sp_matmul (getH p) p ;;
    Ok (mk_NUFFT (Kd self2) (st_p self2) (sp self2) (spH self2) (Some (tocsr pHp))) in
  match body with
  | Ok self' => (Ok tt, self', [])
  | Raise e => (Raise e, self, [Print "errors occur in self.precompute_sp()"%string])
  end.

Definition k2vec (self : NUFFT) (k : ndarray) : result ndarray :=
  Kd_ <- attr (Kd self) ;;
  reshape k [prod Kd_].

Definition vec2y (self : NUFFT) (k_vec : ndarray) : result ndarray :=
  sp_ <- attr (sp self) ;;
  dot sp_ k_vec.

Definition k2y (self : NUFFT) (k : ndarray) : result ndarray :=
  k_vec <- k2vec self k ;;
  vec2y self k_vec.

Definition y2vec (self : NUFFT) (y : ndarray) : result ndarray :=
  spH_ <- attr (spH self) ;;
  dot spH_ y.

Definition vec2k (self : NUFFT) (k_vec : ndarray) : result ndarray :=
  Kd_ <- attr (Kd self) ;;
  reshape k_vec Kd_.

Definition y2k (self : NUFFT) (y : ndarray) : result ndarray :=
  k_vec <- y2vec self y ;;
  vec2k self k_vec.

Definition k2y2k (self : NUFFT) (k : ndarray) : result ndarray :=
  Xk <- k2vec self k ;;
  spHsp_ <- attr (spHsp self) ;;
  k <- dot spHsp_ Xk ;;
  vec2k self k.

End TransformCpu.

Lemma bind_assoc {A B D} (m : result A) (f : A -> result B) (g : B -> result D) :
  bind (bind m f) g = bind m (fun a => bind (f a) g).
Proof. destruct m; reflexivity. Qed.

Lemma row_sum_app es1 es2 r g :
  row_sum (es1 ++ es2) r g = Cadd (row_sum es1 r g) (row_sum es2 r g).
Proof.
  induction es1 as [|[[r' c] v] es1 IH]; simpl.
  - symmetry; apply Cadd_0_l.
  - destruct (r' =? r); rewrite IH; [apply Cadd_assoc | reflexivity].
Qed.

(** The stored entries of the sparse product [a.dot(b)]. *)
Definition matmul_entries (ea eb : list (nat * nat * C)) : list (nat * nat * C) :=
  flat_map (fun x =>
    flat_map (fun y =>
      if fst (fst y) =? snd (fst x)
      then [(fst (fst x), snd (fst y), Cmul (snd x) (snd y))]
      else [])
      eb)
    ea.

Lemma row_sum_matmul_entry ra ca va eb r g :
  row_sum (flat_map (fun y =>
             if fst (fst y) =? ca
             then [(ra, snd (fst y), Cmul va (snd y))]
             else []) eb) r g =
  if ra =? r then Cmul va (row_sum eb ca g) else C0.
Proof.
  induction eb as [|[[rb cb] vb] eb IH]; simpl.
  - destruct (ra =? r); [rewrite Cmul_0_r|]; reflexivity.
  - destruct (rb =? ca); simpl; rewrite ?row_sum_app, IH.
    + destruct (ra =? r); [|reflexivity].
      rewrite Cmul_add_l, Cmul_assoc. reflexivity.
    + reflexivity.
Qed.

Lemma row_sum_matmul ea eb rB r g :
  Forall (fun e => snd (fst e) < rB) ea ->
  row_sum (matmul_entries ea eb) r g =
  row_sum ea r (fun c => nth c (map (fun r' => row_sum eb r' g) (seq 0 rB)) C0).
Proof.
  induction 1 as [|[[ra ca] va] ea Hc H IH]; simpl; [reflexivity|].
  simpl in Hc. rewrite row_sum_app, IH.
  rewrite (row_sum_matmul_entry ra ca va eb r g).
  rewrite nth_map_seq by assumption.
  destruct (ra =? r); [reflexivity | apply Cadd_0_l].
Qed.

(** [(A B) x = A (B x)] for sparse [A], [B] and a dense vector [x]. *)
Lemma spmm_matmul ea eb rA rB x :
  Forall (fun e => snd (fst e) < rB) ea ->
  spmm (matmul_entries ea eb) rA 1 x = spmm ea rA 1 (spmm eb rB 1 x).
Proof.
  intros H. rewrite !spmm_1. apply map_ext. intros r.
  rewrite (row_sum_matmul eb r (fun c => nth c x C0) H).
  apply row_sum_ext. intros c. reflexivity.
Qed.

Lemma result_type_assoc a b c :
  result_type (result_type a b) c = result_type a (result_type b c).
Proof. destruct a, b, c; reflexivity. Qed.

(** [selfadjoint] runs the calls of [forward] and then those of [adjoint]. *)
Lemma selfadjoint_unfold fd op x :
  selfadjoint fd op x = (y <- forward fd op x ;; adjoint fd op y).
Proof.
  unfold selfadjoint, forward, adjoint, k2y2k, k2y, y2k.
  rewrite !bind_assoc.
  destruct (x2xx op x); [|reflexivity]. cbn [bind].
  destruct (xx2k fd op a); [|reflexivity]. cbn [bind].
  rewrite !bind_assoc.
  destruct (k2vec op a0); [|reflexivity]. cbn [bind].
  destruct (vec2y op a1); [|reflexivity]. cbn [bind].
  rewrite !bind_assoc. reflexivity.
Qed.

(** C2.  Self-adjoint consistency.  In [NUFFT_cpu], [selfadjoint(x)] is
    [adjoint(forward(x))] and [k2y2k(k)] is [y2k(k2y(k))], for every object
    and every input, errors included: the two run the same calls in the
    same order.  In the single-channel [NUFFT] of [transform_cpu.py], whose
    [k2y2k] multiplies by the precomputed product [spHsp], [k2y2k(k)]
    equals [y2k(k2y(k))] over exact arithmetic for every oversampled-grid
    array [k]. *)
Theorem selfadjoint_consistency :
  (forall fd op x,
     selfadjoint fd op x = (y <- forward fd op x ;; adjoint fd op y)) /\
  (forall op k, k2y2k op k = (y <- k2y op k ;; y2k op y)) /\
  (forall Kd_ M p o k,
     TransformCpu.Kd o = Some Kd_ -> TransformCpu.st_p o = Some p ->
     sp_shape p = (M, prod Kd_) -> wf_spmatrix p ->
     shape k = Kd_ ->
     exists o' r,
       TransformCpu._precompute_sp o = (Ok tt, o', []) /\
       TransformCpu.k2y2k o' k = Ok r /\
       (y <- TransformCpu.k2y o' k ;; TransformCpu.y2k o' y) = Ok r).
Proof.
  split; [|split].
  - intros fd op x. apply selfadjoint_unfold.
  - intros op k. unfold k2y2k, k2y, y2k. rewrite !bind_assoc.
    destruct (k2vec op k); [|reflexivity]. cbn [bind].
    destruct (vec2y op a); reflexivity.
  - intros Kd_ M p o k HKd Hp Hshape Hwf Hk.
    unfold TransformCpu._precompute_sp, sp_matmul. rewrite Hp. simpl.
    rewrite Hshape. simpl. rewrite Nat.eqb_refl. simpl.
    eexists _, _. split; [reflexivity|].
    unfold TransformCpu.k2y2k, TransformCpu.k2y, TransformCpu.y2k,
      TransformCpu.k2vec, TransformCpu.vec2y, TransformCpu.y2vec,
      TransformCpu.vec2k, reshape, dot, tocsr, sp_copy.
    simpl. rewrite HKd. simpl. rewrite Hk, Nat.mul_1_r, Nat.eqb_refl. simpl.
    rewrite Hshape. simpl. rewrite !Nat.eqb_refl. simpl.
    rewrite Nat.mul_1_r, Nat.eqb_refl.
    split; [reflexivity|].
    rewrite ?Nat.eqb_refl. cbn [bind shape dt data prod fold_right].
    rewrite ?Nat.mul_1_r, ?Nat.eqb_refl.
    rewrite result_type_assoc. f_equal. f_equal.
    symmetry. apply (@spmm_matmul _ (entries p) (prod Kd_) M (data k)).
    rewrite Forall_map. unfold wf_spmatrix in Hwf. rewrite Hshape in Hwf.
    eapply Forall_impl; [|exact Hwf]. intros e [H _]. exact H.
Qed.

Definition tnufft0 : TransformCpu.NUFFT :=
  TransformCpu.mk_NUFFT (Some [2]) (Some p0) None None None.

Lemma selfadjoint_consistency_witness :
  exists o' r,
    TransformCpu._precompute_sp tnufft0 = (Ok tt, o', []) /\
    TransformCpu.k2y2k o' (mk_ndarray complex64 [2] [C1; C0]) = Ok r /\
    (y <- TransformCpu.k2y o' (mk_ndarray complex64 [2] [C1; C0]) ;;
     TransformCpu.y2k o' y) = Ok r.
Proof.
  apply (proj2 (proj2 selfadjoint_consistency) [2] 1 p0 tnufft0
           (mk_ndarray complex64 [2] [C1; C0])).
  - reflexivity.
  - reflexivity.
  - reflexivity.
  - repeat constructor.
  - reflexivity.
Defined.

(* ================================================================== *)
(** ** Planning: what [plan] checks *)
(* ================================================================== *)

(** A builder that refuses every geometry. *)
Definition hp_fail (om : Om) (Nd_ Kd_ Jd_ axes : list nat) : result St :=
  Raise PlanError.

(** The outcome of [plan] as a function of what the two helpers return. *)
Lemma plan_fst hp pc self om Nd_ Kd_ Jd_ fa b :
  fst (plan hp pc self om Nd_ Kd_ Jd_ fa b) =
  match hp om Nd_ Kd_ Jd_ (default_axes fa Nd_) with
  | Raise e => Raise e
  | Ok st1 =>
      match st_sn st1 with
      | None => Raise KeyError
      | Some s =>
          if match b with
             | None => true
             | Some _ => prod (st_Nd st1) =? prod (shape s)
             end
          then match st_p st1 with
               | None => Raise KeyError
               | Some _ =>
                   match pc (st_Nd st1) (st_Kd st1) with
                   | Raise e => Raise e
                   | Ok _ => Ok 0%Z
                   end
               end
          else Raise ValueError
      end
  end.
Proof.
  unfold plan. fold (default_axes fa Nd_).
  destruct (hp om Nd_ Kd_ Jd_ (default_axes fa Nd_)) as [st1|e]; [|reflexivity].
  destruct (st_sn st1) as [s|]; [|reflexivity].
  destruct b as [n|].
  - unfold reshape. cbn [astype shape set_sn sn]. rewrite prod_app. cbn [prod fold_right].
    rewrite Nat.mul_1_r.
    destruct (prod (st_Nd st1) =? prod (shape s)); [|reflexivity].
    destruct (st_p st1); [|reflexivity].
    destruct (pc _ _) as [[[nd kd] ne]|e]; reflexivity.
  - destruct (st_p st1); [|reflexivity].
    destruct (pc _ _) as [[[nd kd] ne]|e]; reflexivity.
Qed.

(** C3 (as amended).  [plan] validates nothing of its own: its outcome is
    decided by the two helpers and the builder's dictionary.  When the
    interpolator builder raises, that exception propagates, [ndims] and
    [ft_axes] being already assigned.  [plan] returns 0 exactly when the
    builder returns a dictionary holding ['sn'] and ['p'], [sn] has
    [prod(Nd)] cells if a batch is given, and [preindex_copy] returns; it
    then stores the batch size as given, 0 included, and the geometry.
    Otherwise it raises [KeyError] (no ['sn'], no ['p']), [ValueError] (the
    reshape of [sn]) or the exception of [preindex_copy]; so it raises
    [ConfigurationError] only when one of the helpers does. *)
Theorem plan_outcome hp pc self om Nd_ Kd_ Jd_ fa b :
  (forall e,
     hp om Nd_ Kd_ Jd_ (default_axes fa Nd_) = Raise e ->
     plan hp pc self om Nd_ Kd_ Jd_ fa b =
     (Raise e, set_ft_axes (default_axes fa Nd_) (set_ndims (length Nd_) self))) /\
  (fst (plan hp pc self om Nd_ Kd_ Jd_ fa b) = Ok 0%Z <->
   exists st1 p s r,
     hp om Nd_ Kd_ Jd_ (default_axes fa Nd_) = Ok st1 /\
     st_p st1 = Some p /\ st_sn st1 = Some s /\
     (b <> None -> prod (st_Nd st1) = prod (shape s)) /\
     pc (st_Nd st1) (st_Kd st1) = Ok r) /\
  (forall st1 p s nd kd ne,
     hp om Nd_ Kd_ Jd_ (default_axes fa Nd_) = Ok st1 ->
     st_p st1 = Some p -> st_sn st1 = Some s ->
     (b <> None -> prod (st_Nd st1) = prod (shape s)) ->
     pc (st_Nd st1) (st_Kd st1) = Ok (nd, kd, ne) ->
     exists op,
       plan hp pc self om Nd_ Kd_ Jd_ fa b = (Ok 0%Z, op) /\
       batch op = Some (match b with None => 1 | Some n => n end) /\
       Nd op = Some (st_Nd st1) /\ Kd op = Some (st_Kd st1) /\
       NdCPUorder op = Some nd /\ KdCPUorder op = Some kd /\
       W op = W self) /\
  (forall st1,
     hp om Nd_ Kd_ Jd_ (default_axes fa Nd_) = Ok st1 ->
     (st_sn st1 = None ->
      fst (plan hp pc self om Nd_ Kd_ Jd_ fa b) = Raise KeyError) /\
     (forall s, st_sn st1 = Some s -> b <> None ->
      prod (st_Nd st1) <> prod (shape s) ->
      fst (plan hp pc self om Nd_ Kd_ Jd_ fa b) = Raise ValueError) /\
     (forall s, st_sn st1 = Some s ->
      (b <> None -> prod (st_Nd st1) = prod (shape s)) ->
      (st_p st1 = None ->
       fst (plan hp pc self om Nd_ Kd_ Jd_ fa b) = Raise KeyError) /\
      (forall p e, st_p st1 = Some p -> pc (st_Nd st1) (st_Kd st1) = Raise e ->
       fst (plan hp pc self om Nd_ Kd_ Jd_ fa b) = Raise e))) /\
  (fst (plan hp pc self om Nd_ Kd_ Jd_ fa b) = Raise ConfigurationError ->
   hp om Nd_ Kd_ Jd_ (default_axes fa Nd_) = Raise ConfigurationError \/
   exists st1,
     hp om Nd_ Kd_ Jd_ (default_axes fa Nd_) = Ok st1 /\
     pc (st_Nd st1) (st_Kd st1) = Raise ConfigurationError).
Proof.
  split; [|split; [|split; [|split]]].
  - intros e He. unfold plan. fold (default_axes fa Nd_). rewrite He. reflexivity.
  - rewrite plan_fst. split.
    + destruct (hp om Nd_ Kd_ Jd_ (default_axes fa Nd_)) as [st1|e]; [|discriminate].
      destruct (st_sn st1) as [s|] eqn:Esn; [|discriminate].
      destruct (match b with None => true | Some _ => _ end) eqn:Eb; [|discriminate].
      destruct (st_p st1) as [p|] eqn:Ep; [|discriminate].
      destruct (pc _ _) as [r|e] eqn:Epc; [|discriminate].
      intros _. exists st1, p, s, r.
      split; [reflexivity|]. split; [exact Ep|]. split; [exact Esn|].
      split; [|exact Epc].
      intros Hb. destruct b; [apply Nat.eqb_eq; exact Eb | contradiction].
    + intros (st1 & p & s & r & -> & Hp & -> & Hsize & Hpc).
      rewrite Hp, Hpc.
      destruct b as [n|]; [|reflexivity].
      rewrite Hsize by discriminate. rewrite Nat.eqb_refl. reflexivity.
  - intros st1 p s nd kd ne Hhp Hp Hsn Hsize Hpc.
    unfold plan. fold (default_axes fa Nd_). rewrite Hhp, Hsn.
    destruct b as [n|].
    + unfold reshape. simpl. rewrite prod_app. simpl.
      rewrite Nat.mul_1_r, Hsize by discriminate. rewrite Nat.eqb_refl. simpl.
      rewrite Hp, Hpc. simpl. eexists. split; [reflexivity|]. simpl. auto 10.
    + simpl. rewrite Hp, Hpc. simpl. eexists. split; [reflexivity|]. simpl. auto 10.
  - intros st1 Hhp. rewrite plan_fst, Hhp. split; [|split].
    + intros ->. reflexivity.
    + intros s -> Hb Hne. destruct b; [|contradiction].
      apply Nat.eqb_neq in Hne. rewrite Hne. reflexivity.
    + intros s -> Hsize.
      assert (E : match b with None => true | Some _ => prod (st_Nd st1) =? prod (shape s) end
                  = true).
      { destruct b; [|reflexivity]. apply Nat.eqb_eq. apply Hsize. discriminate. }
      rewrite E. split.
      * intros ->. reflexivity.
      * intros p e -> ->. reflexivity.
  - rewrite plan_fst.
    destruct (hp om Nd_ Kd_ Jd_ (default_axes fa Nd_)) as [st1|e].
    + intros H. right. exists st1. split; [reflexivity|].
      destruct (st_sn st1) as [s|]; [|discriminate].
      destruct (match b with None => true | Some _ => _ end); [|discriminate].
      destruct (st_p st1) as [p|]; [|discriminate].
      destruct (pc _ _) as [r|e]; [discriminate | injection H as ->; reflexivity].
    + intros H. left. injection H as ->. reflexivity.
Qed.

Lemma plan_outcome_witness :
  exists op,
    plan hp0 preindex_copy init [[0%R]] [1] [2] [1] None (Some 0) = (Ok 0%Z, op) /\
    batch op = Some 0 /\
    Nd op = Some [1] /\ Kd op = Some [2] /\
    NdCPUorder op = Some [0] /\ KdCPUorder op = Some [0] /\
    W op = W init.
Proof.
  apply (proj1 (proj2 (proj2
           (@plan_outcome hp0 preindex_copy init [[0%R]] [1] [2] [1] None (Some 0))))
           st0 p0 sn0 [0] [0] 1).
  - reflexivity.
  - reflexivity.
  - reflexivity.
  - reflexivity.
  - reflexivity.
Defined.

(** C3 (counterexample).  With [batch = 0], [plan] returns 0; and when the
    builder raises, the object is left with [ndims] and [ft_axes]
    assigned. *)
Lemma plan_accepts_batch_zero :
  fst (plan hp0 preindex_copy init [[0%R]] [1] [2] [1] None (Some 0)) = Ok 0%Z /\
  fst (plan hp_fail preindex_copy init [[0%R]] [1] [2] [1] None None) = Raise PlanError /\
  ndims (snd (plan hp_fail preindex_copy init [[0%R]] [1] [2] [1] None None)) = Some 1 /\
  ndims init = None.
Proof. repeat split. Qed.

(* ================================================================== *)
(** ** Run-time inputs of the wrong shape *)
(* ================================================================== *)

(** The exceptions numpy, scipy and an attribute read can raise here. *)
Definition numpy_exn (e : exn) : Prop :=
  e = ValueError \/ e = IndexError \/ e = AttributeError.

Definition raises_only {A} (r : result A) : Prop :=
  match r with
  | Ok _ => True
  | Raise e => numpy_exn e
  end.

Lemma raises_bind {A B} (m : result A) (f : A -> result B) :
  raises_only m -> (forall a, raises_only (f a)) -> raises_only (bind m f).
Proof. destruct m; simpl; auto. Qed.

Ltac nx := simpl; unfold numpy_exn; auto.

Lemma raises_attr {A} (o : option A) : raises_only (attr o).
Proof. destruct o; nx. Qed.

Lemma raises_multiply a b : raises_only (multiply a b).
Proof. unfold multiply. destruct (broadcast_shapes _ _); nx. Qed.

Lemma raises_take a idx : raises_only (take a idx).
Proof. unfold take. destruct (forallb _ _); nx. Qed.

Lemma raises_put a idx v : raises_only (put a idx v).
Proof.
  unfold put. destruct (negb _); [nx|].
  destruct (_ =? _); [nx|]. destruct (_ =? _); nx.
Qed.

Lemma raises_reshape a s : raises_only (reshape a s).
Proof. unfold reshape. destruct (_ =? _); nx. Qed.

Lemma raises_dot m v : raises_only (dot m v).
Proof.
  unfold dot. destruct (shape v) as [|n [|b [|c l]]]; try nx;
    destruct (_ =? _); nx.
Qed.

Lemma raises_fftn fd a axes : raises_only (fftn fd a axes).
Proof.
  unfold fftn. destruct (negb _); [nx|]. destruct (existsb _ _); nx.
Qed.

Lemma raises_ifftn fd a axes : raises_only (ifftn fd a axes).
Proof.
  unfold ifftn. destruct (negb _); [nx|]. destruct (existsb _ _); nx.
Qed.

Lemma raises_for_range {A} bs (body : nat -> A -> result A) acc :
  (forall bat a, raises_only (body bat a)) -> raises_only (for_range bs body acc).
Proof.
  intros H. revert acc; induction bs as [|bat bs IH]; intros acc; simpl; auto.
  apply raises_bind; auto.
Qed.

Ltac raises :=
  repeat first
    [ apply raises_bind; [|intros]
    | apply raises_attr | apply raises_multiply | apply raises_take
    | apply raises_put | apply raises_reshape | apply raises_dot
    | apply raises_fftn | apply raises_ifftn
    | apply raises_for_range; intros ].

Lemma raises_x2xx op x : raises_only (x2xx op x).
Proof. unfold x2xx. raises. Qed.

Lemma raises_xx2k fd op x : raises_only (xx2k fd op x).
Proof. unfold xx2k, scatter. raises. Qed.

Lemma raises_k2xx fd op x : raises_only (k2xx fd op x).
Proof. unfold k2xx, gather. raises. Qed.

Lemma raises_k2y op k : raises_only (k2y op k).
Proof. unfold k2y, k2vec, vec2y. raises. Qed.

Lemma raises_y2k op y : raises_only (y2k op y).
Proof. unfold y2k, y2vec, vec2k. raises. Qed.

Lemma raises_forward fd op x : raises_only (forward fd op x).
Proof.
  unfold forward. apply raises_bind; [apply raises_x2xx|intros].
  apply raises_bind; [apply raises_xx2k|intros]. apply raises_k2y.
Qed.

Lemma raises_adjoint fd op y : raises_only (adjoint fd op y).
Proof.
  unfold adjoint. apply raises_bind; [apply raises_y2k|intros].
  apply raises_bind; [apply raises_k2xx|intros]. apply raises_x2xx.
Qed.

Lemma raises_selfadjoint fd op x : raises_only (selfadjoint fd op x).
Proof.
  rewrite selfadjoint_unfold.
  apply raises_bind; [apply raises_forward | intros; apply raises_adjoint].
Qed.

Lemma not_mismatch {A} (r : result A) : raises_only r -> r <> Raise ShapeMismatchError.
Proof.
  intros H E. rewrite E in H. simpl in H.
  destruct H as [H|[H|H]]; discriminate.
Qed.

Lemma repeat_snoc {A} (a : A) n : repeat a n ++ [a] = repeat a (S n).
Proof.
  induction n as [|n IH]; simpl in *; [reflexivity | rewrite IH; reflexivity].
Qed.

Lemma broadcast_shapes_one t : t <> [] -> broadcast_shapes [1] t = Some t.
Proof.
  intros Ht. unfold broadcast_shapes.
  destruct (rev t) as [|b r] eqn:E.
  - apply (f_equal (@rev nat)) in E. rewrite rev_involutive in E. contradiction.
  - simpl. replace t with (rev (b :: r)) by (rewrite <- E; apply rev_involutive).
    destruct r; destruct b as [|[|b]]; reflexivity.
Qed.

(** A loop one of whose rounds raises [e] on every state, the others
    raising nothing else, raises [e]. *)
Lemma for_range_raises {A} bs (body : nat -> A -> result A) acc e bat0 :
  In bat0 bs ->
  (forall a, body bat0 a = Raise e) ->
  (forall bat a, In bat bs -> body bat a = Raise e \/ exists a', body bat a = Ok a') ->
  for_range bs body acc = Raise e.
Proof.
  intros Hin H0 Hall. revert acc.
  induction bs as [|bat bs IH]; intros acc; [contradiction|].
  simpl. destruct (Hall bat acc (or_introl eq_refl)) as [E | [a' E]]; rewrite E.
  - reflexivity.
  - cbn [bind]. destruct Hin as [<- | Hin].
    + rewrite H0 in E. discriminate.
    + apply IH; [assumption|]. intros b' a Hb'. apply Hall. right. assumption.
Qed.

Lemma put_same_length a idx v :
  length (data v) = length idx ->
  put a idx v = Raise IndexError \/ exists a', put a idx v = Ok a'.
Proof.
  intros H. unfold put. destruct (negb _); [left; reflexivity|].
  rewrite H, Nat.eqb_refl. right. eexists. reflexivity.
Qed.

Section ShortInput.

Variables (op : NUFFT_cpu) (Nd_ Kd_ : list nat) (M B : nat) (sfx sfx1 : list nat).
Variables (p : spmatrix) (sn_data : list C) (nd kd axes : list nat).
Hypothesis V : planned_view op Nd_ Kd_ M B sfx sfx1 p sn_data nd kd axes.

(** The copy loop of [xx2k] on an array with fewer cells than the planned
    image: some index of [NdCPUorder*batch + bat] is out of range. *)
Lemma scatter_short xx :
  prod (shape xx) < prod Nd_ * B -> scatter op xx = Raise IndexError.
Proof.
  intros Hs. pose proof (batch_pos V) as HB.
  destruct (pv_tables V) as (Hlen & Hperm & _ & _).
  unfold scatter. rewrite (pv_mKd V), (pv_batch V). cbn [attr bind].
  set (n := prod (shape xx)) in *.
  assert (Hq : n / B < prod Nd_).
  { apply Nat.Div0.div_lt_upper_bound. lia. }
  assert (Hr : n mod B < B) by (apply Nat.mod_upper_bound; lia).
  assert (Hn : n = n / B * B + n mod B).
  { rewrite (Nat.div_mod_eq n B) at 1. lia. }
  apply for_range_raises with (bat0 := n mod B).
  - apply in_seq. lia.
  - intros a. cbv beta. rewrite ?(pv_nd V), ?(pv_batch V). cbn [attr bind]. unfold take.
    assert (E : forallb (fun i => i <? prod (shape xx))
                  (map (fun i => i * B + n mod B) nd) = false).
    { destruct (forallb _ _) eqn:E; [|reflexivity].
      rewrite forallb_forall in E.
      assert (Hin : In (n / B * B + n mod B) (map (fun i => i * B + n mod B) nd)).
      { apply in_map_iff. exists (n / B). split; [reflexivity|].
        eapply Permutation_in; [symmetry; exact Hperm|]. apply in_seq. lia. }
      apply E in Hin. apply Nat.ltb_lt in Hin. fold n in Hin. lia. }
    rewrite E. reflexivity.
  - intros bat a _. cbv beta. rewrite ?(pv_nd V), ?(pv_batch V), ?(pv_kd V). cbn [attr bind].
    unfold take. destruct (forallb _ _); [|left; reflexivity].
    cbn [attr bind]. apply put_same_length. cbn [data].
    rewrite !length_map. exact Hlen.
Qed.

End ShortInput.

(** C4 (as amended).  [forward], [adjoint] and [selfadjoint] check no
    shape.  Whatever they raise is [ValueError], [IndexError] or
    [AttributeError], never [ShapeMismatchError].  An input that cannot be
    broadcast against [sn] makes [forward] and [selfadjoint] raise numpy's
    [ValueError] at the first statement, [x * self.sn].  On a planned
    operator an input that can be broadcast, to a shape with at least
    [prod(multi_Nd)] cells, is transformed without error although its shape
    is not the planned one - a one-cell array of shape (1,) gives the
    result of the constant image; an input that broadcasts to a shape with
    fewer cells (an empty array, or too few channels) passes the scaling
    and raises [IndexError] in the copy loop of [xx2k]. *)
Theorem no_shape_check fd op x y :
  ((forall e, forward fd op x = Raise e ->
      e = ValueError \/ e = IndexError \/ e = AttributeError) /\
   (forall e, adjoint fd op y = Raise e ->
      e = ValueError \/ e = IndexError \/ e = AttributeError) /\
   (forall e, selfadjoint fd op x = Raise e ->
      e = ValueError \/ e = IndexError \/ e = AttributeError)) /\
  (forward fd op x <> Raise ShapeMismatchError /\
   adjoint fd op y <> Raise ShapeMismatchError /\
   selfadjoint fd op x <> Raise ShapeMismatchError) /\
  (forall s,
     sn op = Some s -> broadcast_shapes (shape x) (shape s) = None ->
     x2xx op x = Raise ValueError /\
     forward fd op x = Raise ValueError /\ selfadjoint fd op x = Raise ValueError) /\
  (forall s r mNd,
     planned op -> sn op = Some s -> multi_Nd op = Some mNd ->
     broadcast_shapes (shape x) (shape s) = Some r ->
     (prod mNd <= prod r ->
      exists y' z,
        forward fd op x = Ok y' /\ multi_M op = Some (shape y') /\
        selfadjoint fd op x = Ok z /\ shape z = mNd) /\
     (prod r < prod mNd ->
      exists xx,
        x2xx op x = Ok xx /\ shape xx = r /\
        scatter op xx = Raise IndexError /\
        forward fd op x = Raise IndexError /\
        selfadjoint fd op x = Raise IndexError)) /\
  (forall Nd_ c d,
     planned op -> parallel_flag op = Some 0 -> Nd op = Some Nd_ -> Nd_ <> [] ->
     forward fd op (mk_ndarray d [1] [c]) =
     forward fd op (mk_ndarray d Nd_ (repeat c (prod Nd_)))).
Proof.
  split; [|split; [|split; [|split]]].
  - pose proof (raises_forward fd op x) as H1.
    pose proof (raises_adjoint fd op y) as H2.
    pose proof (raises_selfadjoint fd op x) as H3.
    repeat split; intros e E; [rewrite E in H1 | rewrite E in H2 | rewrite E in H3];
      assumption.
  - repeat split; apply not_mismatch.
    + apply raises_forward.
    + apply raises_adjoint.
    + apply raises_selfadjoint.
  - intros s Hs Hb. unfold forward, selfadjoint, x2xx, multiply.
    rewrite Hs. simpl. rewrite Hb. repeat split; reflexivity.
  - intros s r mNd Hp Hs HmNd Hb.
    destruct (planned_view_of Hp)
      as (Nd' & Kd' & M & B & sfx & sfx1 & p & snd_ & nd & kd & axes' & V).
    rewrite (pv_mNd V) in HmNd. injection HmNd as <-.
    rewrite prod_app, (prod_sfx V).
    assert (Ex : x2xx op x =
                 Ok (mk_ndarray (result_type (dt x) (dt s)) r
                       (map2 Cmul (broadcast_to x r) (broadcast_to s r)))).
    { unfold x2xx, multiply. rewrite Hs. cbn [attr bind]. rewrite Hb. reflexivity. }
    split.
    + intros Hle.
      assert (Ef : forward fd op x =
                   Ok (mk_ndarray
                         (result_type (sp_dt p) (fftn_dtype fd (self_dtype op) axes'))
                         (M :: sfx)
                         (spmm (entries p) M B
                            (fold_right (fft_data (Kd' ++ sfx))
                               (copy_loop nd kd B
                                  (map2 Cmul (broadcast_to x r) (broadcast_to s r))
                                  (repeat C0 (prod Kd' * B))) axes')))).
      { unfold forward. rewrite Ex. cbn [bind].
        rewrite (xx2k_ok fd V) by exact Hle.
        cbn [bind]. rewrite (k2y_ok V) by reflexivity. reflexivity. }
      destruct (@adjoint_ok fd _ _ _ _ _ _ _ _ _ _ _ _ V
                  (mk_ndarray
                     (result_type (sp_dt p) (fftn_dtype fd (self_dtype op) axes'))
                     (M :: sfx)
                     (spmm (entries p) M B
                        (fold_right (fft_data (Kd' ++ sfx))
                           (copy_loop nd kd B
                              (map2 Cmul (broadcast_to x r) (broadcast_to s r))
                              (repeat C0 (prod Kd' * B))) axes'))))
        as (d' & _ & _ & Ea); [reflexivity|].
      eexists _, _. split; [exact Ef|]. split; [exact (pv_mM V)|].
      rewrite selfadjoint_unfold, Ef. cbn [bind]. split; [exact Ea | reflexivity].
    + intros Hlt. eexists. split; [exact Ex|]. split; [reflexivity|].
      assert (Es : scatter op
                     (mk_ndarray (result_type (dt x) (dt s)) r
                        (map2 Cmul (broadcast_to x r) (broadcast_to s r))) =
                   Raise IndexError).
      { apply (scatter_short V). exact Hlt. }
      split; [exact Es|].
      assert (Ef : forward fd op x = Raise IndexError).
      { unfold forward. rewrite Ex. cbn [bind]. unfold xx2k. rewrite Es. reflexivity. }
      split; [exact Ef|].
      rewrite selfadjoint_unfold, Ef. reflexivity.
  - intros Nd_ c d Hp Hf HNd Hne.
    destruct (planned_view_of Hp)
      as (Nd' & Kd' & M & B & sfx & sfx1 & p & snd_ & nd & kd & axes' & V).
    destruct (single_channel V Hf) as (E1 & E2).
    rewrite (pv_Nd V) in HNd. injection HNd as ->.
    assert (E3 : sfx1 = []).
    { destruct (pv_sfx V) as [(_ & E & _) | (E & _ & _)]; congruence. }
    subst sfx sfx1 B.
    unfold forward. f_equal. unfold x2xx. rewrite (pv_sn V). cbn [attr bind].
    rewrite app_nil_r.
    set (Sn := mk_ndarray (self_dtype op) Nd_ snd_).
    assert (E2 : multiply (mk_ndarray d Nd_ (repeat c (prod Nd_))) Sn =
                 Ok (mk_ndarray (result_type d (self_dtype op)) Nd_
                       (map2 Cmul (repeat c (prod Nd_)) snd_))).
    { apply multiply_same_shape; [reflexivity | | ]; unfold wf_array; simpl.
      - apply repeat_length.
      - apply (pv_sn_len V). }
    rewrite E2. unfold multiply, broadcast_to, Sn. cbn [shape data dt].
    rewrite broadcast_shapes_one by assumption.
    rewrite pad_shape_same, (bcast_same _ _ (pv_sn_len V)).
    unfold pad_shape. cbn [length].
    destruct Nd_ as [|n0 Nd0]; [contradiction|].
    replace (length (n0 :: Nd0) - 1) with (length Nd0) by (simpl; lia).
    rewrite repeat_snoc.
    change (S (length Nd0)) with (length (n0 :: Nd0)).
    rewrite bcast_ones. reflexivity.
Qed.

Definition x_bad : ndarray := mk_ndarray complex64 [2] [C1; C1].

Lemma no_shape_check_witness :
  (exists y' z,
     forward numpy1_fft_dtype op0 x_bad = Ok y' /\ multi_M op0 = Some (shape y') /\
     selfadjoint numpy1_fft_dtype op0 x_bad = Ok z /\ shape z = [1]) /\
  (exists xx,
     x2xx op0 (mk_ndarray complex64 [0] []) = Ok xx /\ shape xx = [0] /\
     scatter op0 xx = Raise IndexError /\
     forward numpy1_fft_dtype op0 (mk_ndarray complex64 [0] []) = Raise IndexError /\
     selfadjoint numpy1_fft_dtype op0 (mk_ndarray complex64 [0] []) = Raise IndexError) /\
  (forward numpy1_fft_dtype op0 (mk_ndarray complex64 [1] [C1]) =
   forward numpy1_fft_dtype op0 (mk_ndarray complex64 [1] (repeat C1 (prod [1])))).
Proof.
  split; [|split].
  - apply (proj1 (proj1 (proj2 (proj2 (proj2 (@no_shape_check numpy1_fft_dtype op0 x_bad y0))))
                    (mk_ndarray complex64 [1] [C1]) [2] [1]
                    planned_op0 eq_refl eq_refl eq_refl)).
    simpl. lia.
  - apply (proj2 (proj1 (proj2 (proj2 (proj2
             (@no_shape_check numpy1_fft_dtype op0 (mk_ndarray complex64 [0] []) y0))))
                    (mk_ndarray complex64 [1] [C1]) [0] [1]
                    planned_op0 eq_refl eq_refl eq_refl)).
    simpl. lia.
  - apply (proj2 (proj2 (proj2 (proj2 (@no_shape_check numpy1_fft_dtype op0 x_bad y0))))
             [1] C1 complex64).
    + exact planned_op0.
    + reflexivity.
    + reflexivity.
    + discriminate.
Defined.

(** C4 (counterexample).  The operator planned with Nd = (1,) takes an
    array of shape (2,): [forward] raises nothing and returns an array of
    shape (1,), computed from the first cell. *)
Lemma forward_accepts_wrong_shape :
  planned op0 /\ Nd op0 = Some [1] /\ shape x_bad = [2] /\
  exists y, forward numpy1_fft_dtype op0 x_bad = Ok y /\ shape y = [1].
Proof.
  split; [exact planned_op0|]. split; [reflexivity|]. split; [reflexivity|].
  unfold forward.
  assert (E : x2xx op0 x_bad =
              Ok (mk_ndarray complex64 [2] [Cmul C1 C1; Cmul C1 C1])) by reflexivity.
  rewrite E. cbn [bind].
  rewrite (xx2k_ok numpy1_fft_dtype view_op0) by (simpl; lia).
  cbn [bind]. rewrite (k2y_ok view_op0) by reflexivity.
  eexists. split; reflexivity.
Qed.

(* ================================================================== *)
(** ** C5: the dtype of the array at each stage *)
(* ================================================================== *)

Lemma result_type_complex128_r d : result_type d complex128 = complex128.
Proof. destruct d; reflexivity. Qed.

(** Before numpy 2.0 every one-dimensional transform returns [complex128]. *)
Lemma fftn_dtype_numpy1 d axes :
  axes <> [] -> fftn_dtype numpy1_fft_dtype d axes = complex128.
Proof. destruct axes; [contradiction | reflexivity]. Qed.

(** C5.  The dtype of each stage's output, for a planned operator with the
    default [dtype = complex64] and a [complex64] input of the planned
    shape.  The scaling output, and the outputs of [adjoint] and
    [selfadjoint], are [complex64].  The output of [xx2k] has the dtype
    [numpy.fft.fftn] returns for a [complex64] buffer and the axes
    [ft_axes], and the output of [forward] the promotion of that dtype with
    the dtype of the interpolation matrix: neither is cast to
    [self.dtype].  With an [fftn] that computes in double precision (numpy
    before 2.0) and at least one transform axis, both are [complex128], so
    the single-precision invariant fails at the FFT stage and at the output
    of [forward].  Without any transform axis [fftn] returns the buffer as
    it is: the output of [xx2k] is [complex64] and that of [forward] has
    the promotion of the matrix dtype with [complex64]. *)
Theorem stage_dtypes op x :
  planned op -> self_dtype op = complex64 ->
  dt x = complex64 -> multi_Nd op = Some (shape x) -> wf_array x ->
  (forall fd, exists p axes xx k y x2,
     sp op = Some p /\ ft_axes op = Some axes /\
     x2xx op x = Ok xx /\ dt xx = complex64 /\
     xx2k fd op xx = Ok k /\ dt k = fftn_dtype fd complex64 axes /\
     forward fd op x = Ok y /\
     dt y = result_type (sp_dt p) (fftn_dtype fd complex64 axes) /\
     selfadjoint fd op x = Ok x2 /\ dt x2 = complex64 /\
     (forall v, multi_M op = Some (shape v) ->
        exists a, adjoint fd op v = Ok a /\ dt a = complex64)) /\
  (ft_axes op <> Some [] ->
   exists xx k y,
     x2xx op x = Ok xx /\
     xx2k numpy1_fft_dtype op xx = Ok k /\ dt k = complex128 /\
     forward numpy1_fft_dtype op x = Ok y /\ dt y = complex128) /\
  (ft_axes op = Some [] ->
   forall fd, exists p xx k y,
     sp op = Some p /\ x2xx op x = Ok xx /\
     xx2k fd op xx = Ok k /\ dt k = complex64 /\
     forward fd op x = Ok y /\ dt y = result_type (sp_dt p) complex64).
Proof.
  intros Hp Hd Hx Hm Hw.
  destruct (planned_view_of Hp)
    as (Nd_ & Kd_ & M & B & sfx & sfx1 & p & snd_ & nd & kd & axes & V).
  assert (Hs : shape x = Nd_ ++ sfx).
  { rewrite (pv_mNd V) in Hm. injection Hm as Hm. symmetry. exact Hm. }
  destruct (x2xx_ok V Hs Hw) as (d & Hxx & Hl & _).
  rewrite Hx, Hd in Hxx. change (result_type complex64 complex64) with complex64 in Hxx.
  assert (Hk : forall fd,
    xx2k fd op (mk_ndarray complex64 (Nd_ ++ sfx) d) =
    Ok (mk_ndarray (fftn_dtype fd complex64 axes) (Kd_ ++ sfx)
          (fold_right (fft_data (Kd_ ++ sfx))
             (copy_loop nd kd B d (repeat C0 (prod Kd_ * B))) axes))).
  { intros fd. rewrite (xx2k_ok fd V), Hd; [reflexivity|].
    simpl. rewrite prod_app, (prod_sfx V). lia. }
  assert (Hf : forall fd,
    forward fd op x =
    Ok (mk_ndarray (result_type (sp_dt p) (fftn_dtype fd complex64 axes)) (M :: sfx)
          (spmm (entries p) M B
             (fold_right (fft_data (Kd_ ++ sfx))
                (copy_loop nd kd B d (repeat C0 (prod Kd_ * B))) axes)))).
  { intros fd. unfold forward. rewrite Hxx. cbn [bind]. rewrite Hk. cbn [bind].
    rewrite (k2y_ok V) by reflexivity. reflexivity. }
  assert (Ha : forall fd v, multi_M op = Some (shape v) ->
    exists a, adjoint fd op v = Ok a /\ dt a = complex64).
  { intros fd v Hv. rewrite (pv_mM V) in Hv. injection Hv as Hv.
    destruct (@adjoint_ok fd _ _ _ _ _ _ _ _ _ _ _ _ V v) as (d' & _ & _ & E).
    - symmetry; exact Hv.
    - rewrite E. eexists. split; [reflexivity|]. exact Hd. }
  split; [|split].
  - intros fd.
    destruct (Ha fd (mk_ndarray (result_type (sp_dt p) (fftn_dtype fd complex64 axes))
          (M :: sfx)
          (spmm (entries p) M B
             (fold_right (fft_data (Kd_ ++ sfx))
                (copy_loop nd kd B d (repeat C0 (prod Kd_ * B))) axes))))
      as (a & Ea & Da).
    { rewrite (pv_mM V). reflexivity. }
    exists p, axes. eexists. eexists. eexists. exists a.
    split; [exact (pv_sp V)|]. split; [exact (pv_axes V)|].
    split; [exact Hxx|]. split; [reflexivity|].
    split; [apply Hk|]. split; [reflexivity|].
    split; [apply Hf|]. split; [reflexivity|].
    split; [|split; [exact Da | apply Ha]].
    rewrite selfadjoint_unfold, Hf. cbn [bind]. exact Ea.
  - intros Hne. rewrite (pv_axes V) in Hne.
    assert (Hax : axes <> []) by (intros ->; apply Hne; reflexivity).
    eexists. eexists. eexists.
    split; [exact Hxx|]. split; [apply Hk|].
    split; [apply (fftn_dtype_numpy1 _ Hax)|].
    split; [apply Hf|]. cbn [dt]. rewrite (fftn_dtype_numpy1 _ Hax).
    apply result_type_complex128_r.
  - intros He fd. rewrite (pv_axes V) in He. injection He as He.
    exists p. eexists. eexists. eexists.
    split; [exact (pv_sp V)|]. split; [exact Hxx|].
    split; [apply Hk|]. split; [rewrite He; reflexivity|].
    split; [apply Hf|]. rewrite He. reflexivity.
Qed.

Lemma stage_dtypes_witness :
  exists xx k y,
    x2xx op0 x0 = Ok xx /\
    xx2k numpy1_fft_dtype op0 xx = Ok k /\ dt k = complex128 /\
    forward numpy1_fft_dtype op0 x0 = Ok y /\ dt y = complex128.
Proof.
  apply (proj1 (proj2 (@stage_dtypes op0 x0 planned_op0 eq_refl eq_refl eq_refl eq_refl))).
  discriminate.
Defined.

(* ================================================================== *)
(** ** C9: the weighting array [W] of [selfadjoint2] *)
(* ================================================================== *)

(** Assigning [W] leaves everything [plan] stored as it was. *)
Lemma planned_view_set_W op Nd_ Kd_ M B sfx sfx1 p sn_data nd kd axes w :
  planned_view op Nd_ Kd_ M B sfx sfx1 p sn_data nd kd axes ->
  planned_view (set_W w op) Nd_ Kd_ M B sfx sfx1 p sn_data nd kd axes.
Proof.
  intros V. destruct op. destruct V. constructor; assumption.
Qed.

(** [plan] never assigns [W]. *)
Lemma plan_keeps_W hp pc self om Nd_ Kd_ Jd_ fa b :
  W (snd (plan hp pc self om Nd_ Kd_ Jd_ fa b)) = W self.
Proof.
  unfold plan. destruct self.
  destruct (hp _ _ _ _ _) as [s0|]; [|reflexivity].
  destruct (st_sn s0); [|reflexivity].
  destruct b; cbn [set_batch set_parallel_flag set_sn];
    [destruct (reshape _ _); [|reflexivity]|];
    (destruct (st_p s0); [|reflexivity]);
    (destruct (pc _ _) as [[[? ?] ?]|]; reflexivity).
Qed.

Lemma self_dtype_set_W w op : self_dtype (set_W w op) = self_dtype op.
Proof. destruct op; reflexivity. Qed.

Lemma W_set_W w op : W (set_W w op) = Some w.
Proof. destruct op; reflexivity. Qed.

Section Weighting.

Variable fd : dtype -> dtype.
Variables (op : NUFFT_cpu) (Nd_ Kd_ : list nat) (M B : nat) (sfx sfx1 : list nat).
Variables (p : spmatrix) (sn_data : list C) (nd kd axes : list nat).
Hypothesis V : planned_view op Nd_ Kd_ M B sfx sfx1 p sn_data nd kd axes.
Hypothesis Hflag : parallel_flag op = Some 0.

(** On a planned one-channel operator [_precompute_sp] succeeds and
    assigns an array of shape [Kd]. *)
Lemma precompute_ok :
  exists w,
    _precompute_sp fd op = (Ok tt, set_W w op, [AssignW]) /\
    shape w = Kd_ /\ wf_array w.
Proof.
  destruct (single_channel V Hflag) as (Esfx & EB).
  destruct (pv_st V) as (st' & Est & EM).
  unfold _precompute_sp. rewrite Est. cbn [attr bind].
  destruct (@adjoint_ok fd _ _ _ _ _ _ _ _ _ _ _ _ V (ones [st_M st'] complex64))
    as (d & Hl & _ & Ea).
  { rewrite EM, Esfx. reflexivity. }
  rewrite Ea. cbn [bind].
  rewrite (xx2k_ok fd V) by (simpl; rewrite prod_app, (prod_sfx V); lia).
  cbn [bind]. subst sfx B. rewrite app_nil_r, Nat.mul_1_r.
  rewrite multiply_same_shape.
  - cbn [bind]. eexists. split; [reflexivity|]. split; [reflexivity|].
    unfold wf_array, pow_half, conj. cbn [data shape].
    rewrite length_map, map2_length, length_map, Nat.min_id.
    apply fold_fft_length.
    rewrite copy_loop_length, repeat_length. reflexivity.
  - reflexivity.
  - unfold wf_array. cbn [data shape]. apply fold_fft_length.
    rewrite copy_loop_length, repeat_length. reflexivity.
  - unfold wf_array, conj. cbn [data shape]. rewrite length_map.
    apply fold_fft_length.
    rewrite copy_loop_length, repeat_length. reflexivity.
Qed.

(** With [W] of shape [Kd], the expression [k2xx(W * xx2k(x))] succeeds on
    every input with at least [prod Nd] cells. *)
Lemma weighted_ok w x :
  W op = Some w -> shape w = Kd_ -> wf_array w ->
  prod Nd_ <= prod (shape x) ->
  weighted fd op x =
  Ok (mk_ndarray (self_dtype op) Nd_
        (copy_loop kd nd 1
           (fold_right (ifft_data Kd_)
              (map2 Cmul (data w)
                 (fold_right (fft_data Kd_)
                    (copy_loop nd kd 1 (data x) (repeat C0 (prod Kd_))) axes))
              axes)
           (repeat C0 (prod Nd_)))).
Proof.
  intros HW Hs Hw Hx.
  destruct (single_channel V Hflag) as (Esfx & EB).
  unfold weighted. rewrite HW. cbn [attr bind].
  rewrite (xx2k_ok fd V) by (rewrite EB; lia).
  cbn [bind].
  rewrite multiply_same_shape.
  - cbn [bind]. rewrite (k2xx_ok fd V).
    + cbn [data]. subst sfx B. rewrite !app_nil_r, !Nat.mul_1_r. reflexivity.
    + cbn [shape]. rewrite Hs, Esfx, app_nil_r. reflexivity.
  - cbn [shape]. rewrite Hs, Esfx, app_nil_r. reflexivity.
  - assumption.
  - unfold wf_array. cbn [data shape]. apply fold_fft_length.
    rewrite copy_loop_length, repeat_length, prod_app, (prod_sfx V). reflexivity.
Qed.

End Weighting.

(** The first call computes [W]; the second returns the same array and
    assigns nothing. *)
Lemma selfadjoint2_twice fd op x :
  planned op -> parallel_flag op = Some 0 -> W op = None ->
  multi_Nd op = Some (shape x) ->
  exists w r,
    selfadjoint2 fd op x = (Ok r, set_W w op, [AssignW]) /\
    selfadjoint2 fd (set_W w op) x = (Ok r, set_W w op, []).
Proof.
  intros Hp Hf HW Hm.
  destruct (planned_view_of Hp)
    as (Nd_ & Kd_ & M & B & sfx & sfx1 & p & snd_ & nd & kd & axes & V).
  destruct (single_channel V Hf) as (Esfx & EB).
  assert (Hs : prod Nd_ <= prod (shape x)).
  { rewrite (pv_mNd V) in Hm. injection Hm as Hm.
    rewrite <- Hm, Esfx, app_nil_r. apply Nat.le_refl. }
  destruct (precompute_ok fd V Hf) as (w & Hpre & Hsw & Hww).
  pose proof (planned_view_set_W w V) as V'.
  assert (Hf' : parallel_flag (set_W w op) = Some 0).
  { rewrite (pv_flag V'), Esfx. reflexivity. }
  pose proof (@weighted_ok fd _ _ _ _ _ _ _ _ _ _ _ _ V' Hf' w x
                (W_set_W w op) Hsw Hww Hs) as Hwe.
  exists w. eexists. split.
  - unfold selfadjoint2. unfold weighted at 1. rewrite HW. cbn [attr bind].
    rewrite Hpre. rewrite Hwe. reflexivity.
  - unfold selfadjoint2. rewrite Hwe. reflexivity.
Qed.

(** C9 (as amended).  On a planned one-channel operator whose [W] is not
    yet assigned, the first call of [selfadjoint2] computes [W] (its first
    attempt raises [AttributeError], the handler runs [_precompute_sp] and
    the expression is evaluated again); a second call on the same input
    returns the same array and assigns nothing.  What triggers the
    computation is no test of the cache state but the failure of the first
    attempt: in any state and for any input, a call assigns [W] exactly
    when its first attempt raised and [_precompute_sp] then succeeded.
    [plan] itself never touches [W]. *)
Theorem lazy_weighting fd op x :
  planned op -> parallel_flag op = Some 0 -> W op = None ->
  multi_Nd op = Some (shape x) ->
  (exists w r,
     selfadjoint2 fd op x = (Ok r, set_W w op, [AssignW]) /\
     selfadjoint2 fd (set_W w op) x = (Ok r, set_W w op, [])) /\
  (forall op' x' r' op'' ev,
     selfadjoint2 fd op' x' = (r', op'', ev) ->
     (In AssignW ev <->
      (exists e, weighted fd op' x' = Raise e) /\
      (exists w, _precompute_sp fd op' = (Ok tt, set_W w op', [AssignW])))) /\
  (forall hp pc self om Nd_ Kd_ Jd_ fa b,
     W (snd (plan hp pc self om Nd_ Kd_ Jd_ fa b)) = W self).
Proof.
  intros Hp Hf HW Hm. split; [|split].
  - apply selfadjoint2_twice; assumption.
  - intros op' x' r' op'' ev. unfold selfadjoint2.
    destruct (weighted fd op' x') as [r|e] eqn:Ew.
    + intros H. injection H as _ _ <-. split.
      * intros [].
      * intros ((e & He) & _). discriminate.
    + unfold _precompute_sp.
      match goal with |- context [match ?b with Ok _ => _ | Raise _ => _ end] =>
        destruct b as [w|e'] end.
      * intros H. injection H as _ _ <-. split.
        -- intros _. split; [exists e; reflexivity | exists w; reflexivity].
        -- intros _. left. reflexivity.
      * intros H. injection H as _ _ <-. split.
        -- intros [H|[]]. discriminate.
        -- intros (_ & w & H). discriminate.
  - intros. apply plan_keeps_W.
Qed.

Lemma lazy_weighting_witness :
  (exists w r,
     selfadjoint2 numpy1_fft_dtype op0 x0 = (Ok r, set_W w op0, [AssignW]) /\
     selfadjoint2 numpy1_fft_dtype (set_W w op0) x0 = (Ok r, set_W w op0, [])) /\
  (forall op' x' r' op'' ev,
     selfadjoint2 numpy1_fft_dtype op' x' = (r', op'', ev) ->
     (In AssignW ev <->
      (exists e, weighted numpy1_fft_dtype op' x' = Raise e) /\
      (exists w, _precompute_sp numpy1_fft_dtype op' =
                 (Ok tt, set_W w op', [AssignW])))) /\
  (forall hp pc self om Nd_ Kd_ Jd_ fa b,
     W (snd (plan hp pc self om Nd_ Kd_ Jd_ fa b)) = W self).
Proof.
  apply (@lazy_weighting numpy1_fft_dtype op0 x0).
  - exact planned_op0.
  - reflexivity.
  - reflexivity.
  - reflexivity.
Defined.

(** An array with no cell. *)
Definition x_empty : ndarray := mk_ndarray complex64 [0] [].

Lemma weighted_empty fd o w :
  planned_view o [1] [2] 1 1 [] [] p0 [C1] [0] [0] [0] -> W o = Some w ->
  weighted fd o x_empty = Raise IndexError.
Proof.
  intros V HW. unfold weighted, xx2k, scatter.
  rewrite HW, (pv_mKd V), (pv_batch V). simpl.
  rewrite ?(pv_nd V), ?(pv_batch V). reflexivity.
Qed.

(** C9 (counterexample).  With [W] already computed by a first call, a call
    whose first attempt raises - here [IndexError], the input having no
    cell to copy - runs [_precompute_sp] again: [W] is assigned a second
    time although the cache is in the computed state, and no test of that
    state is made. *)
Lemma selfadjoint2_recomputes_W :
  exists w r,
    selfadjoint2 numpy1_fft_dtype op0 x0 = (Ok r, set_W w op0, [AssignW]) /\
    W (set_W w op0) = Some w /\
    exists w',
      selfadjoint2 numpy1_fft_dtype (set_W w op0) x_empty =
      (Raise IndexError, set_W w' (set_W w op0), [AssignW]).
Proof.
  destruct (@selfadjoint2_twice numpy1_fft_dtype op0 x0 planned_op0 eq_refl eq_refl eq_refl)
    as (w & r & H1 & _).
  exists w, r. split; [exact H1|]. split; [apply W_set_W|].
  pose proof (planned_view_set_W w view_op0) as V'.
  destruct (precompute_ok numpy1_fft_dtype V' eq_refl) as (w' & Hpre & _ & _).
  exists w'. unfold selfadjoint2.
  rewrite (weighted_empty numpy1_fft_dtype V' (W_set_W w op0)), Hpre.
  rewrite (weighted_empty numpy1_fft_dtype (planned_view_set_W w' V')
             (W_set_W w' (set_W w op0))).
  reflexivity.
Qed.

(* ================================================================== *)
(** ** Roots of unity and the inversion of the discrete Fourier sum *)
(* ================================================================== *)

Lemma Cexp_add a b : Cexp (a + b) = Cmul (Cexp a) (Cexp b).
Proof.
  unfold Cexp, Cmul; simpl. rewrite cos_plus, sin_plus.
  apply C_eq; simpl; ring.
Qed.

Lemma Cexp_2PI_nat k : Cexp (2 * PI * INR k) = C1.
Proof.
  unfold Cexp, C1.
  replace (2 * PI * INR k)%R with (0 + 2 * INR k * PI)%R by ring.
  rewrite cos_period, sin_period, cos_0, sin_0. reflexivity.
Qed.

(** [exp (2 pi i (k - j))] for naturals [j], [k]. *)
Lemma Cexp_2PI_diff j k : Cexp (2 * PI * (INR k - INR j)) = C1.
Proof.
  replace (2 * PI * (INR k - INR j))%R with (2 * PI * INR k + - (2 * PI * INR j))%R by ring.
  rewrite Cexp_add, <- Cconj_exp, !Cexp_2PI_nat, Cconj_1. apply Cmul_1_l.
Qed.

(** [exp (i t)] is not 1 for [0 < |t| < 2 pi]. *)
Lemma Cexp_neq_1 t : (0 < t < 2 * PI)%R -> Cexp t <> C1.
Proof.
  intros [H0 H1] E. unfold Cexp, C1 in E. injection E as Ec _.
  replace t with (2 * (t / 2))%R in Ec by field.
  rewrite cos_2a_sin in Ec.
  assert (Hs : (0 < sin (t / 2))%R) by (apply sin_gt_0; lra).
  nra.
Qed.

Lemma Cexp_neq_1_neg t : (- (2 * PI) < t < 0)%R -> Cexp t <> C1.
Proof.
  intros [H0 H1] E. apply (@Cexp_neq_1 (- t)); [lra|].
  rewrite <- Cconj_exp, E. apply Cconj_1.
Qed.

(** A number fixed by the multiplication by [z <> 1] is zero. *)
Lemma Cmul_fixed_zero s z : Cmul s z = s -> z <> C1 -> s = C0.
Proof.
  destruct s as [a b], z as [c d]. unfold Cmul, C1, C0; simpl.
  intros E Hz. injection E as E1 E2.
  assert (Hn : ((c - 1) * (c - 1) + d * d <> 0)%R).
  { intros Hq. apply Hz.
    assert (c - 1 = 0)%R by nra. assert (d = 0)%R by nra.
    f_equal; lra. }
  assert (H1 : (a * c - b * d - a = 0)%R) by lra.
  assert (H2 : (a * d + b * c - b = 0)%R) by lra.
  assert (Ha : (a * ((c - 1) * (c - 1) + d * d) = 0)%R).
  { replace (a * ((c - 1) * (c - 1) + d * d))%R
      with ((c - 1) * (a * c - b * d - a) + d * (a * d + b * c - b))%R by ring.
    rewrite H1, H2. ring. }
  assert (Hb : (b * ((c - 1) * (c - 1) + d * d) = 0)%R).
  { replace (b * ((c - 1) * (c - 1) + d * d))%R
      with ((c - 1) * (a * d + b * c - b) - d * (a * c - b * d - a))%R by ring.
    rewrite H1, H2. ring. }
  apply Rmult_integral in Ha. apply Rmult_integral in Hb.
  f_equal; tauto.
Qed.

(** The geometric sum [sum_{j<n} exp (i j t)] shifted by one step. *)
Lemma Csum_Cexp_shift n t :
  Cmul (Csum n (fun j => Cexp (INR j * t))) (Cexp t) =
  Cadd (Csum n (fun j => Cexp (INR j * t))) (Cadd (Cexp (INR n * t)) (Cneg C1)).
Proof.
  induction n as [|n IH].
  - simpl. rewrite Rmult_0_l, Cexp_0, Cmul_0_l. unfold Cadd, Cneg, C1, C0; simpl.
    apply C_eq; simpl; ring.
  - cbn [Csum]. rewrite Cmul_add_r, IH.
    replace (Cmul (Cexp (INR n * t)) (Cexp t)) with (Cexp (INR (S n) * t)).
    + generalize (Csum n (fun j => Cexp (INR j * t))) (Cexp (INR n * t))
        (Cexp (INR (S n) * t)).
      intros [a b] [c d] [e f]. unfold Cadd, Cneg, C1; simpl. apply C_eq; simpl; ring.
    + rewrite <- Cexp_add. f_equal. rewrite S_INR. ring.
Qed.

(** Orthogonality of the roots of unity. *)
Lemma Csum_roots n j k :
  j < n -> k < n -> j <> k ->
  Csum n (fun q => Cexp (INR q * (2 * PI * (INR k - INR j) / INR n))) = C0.
Proof.
  intros Hj Hk Hjk.
  assert (Hn : (0 < INR n)%R) by (apply lt_0_INR; lia).
  set (t := (2 * PI * (INR k - INR j) / INR n)%R).
  apply Cmul_fixed_zero with (z := Cexp t).
  - rewrite Csum_Cexp_shift.
    replace (INR n * t)%R with (2 * PI * (INR k - INR j))%R
      by (unfold t; field; lra).
    rewrite Cexp_2PI_diff.
    generalize (Csum n (fun q => Cexp (INR q * t))). intros [a b].
    unfold Cadd, Cneg, C1; simpl. apply C_eq; simpl; ring.
  - pose proof PI_RGT_0 as Hpi.
    assert (Hjn : (INR j < INR n)%R) by (apply lt_INR; assumption).
    assert (Hkn : (INR k < INR n)%R) by (apply lt_INR; assumption).
    assert (Hj0 : (0 <= INR j)%R) by apply pos_INR.
    assert (Hk0 : (0 <= INR k)%R) by apply pos_INR.
    destruct (Nat.lt_trichotomy j k) as [Hlt|[Heq|Hgt]]; [|contradiction|].
    + apply Cexp_neq_1. apply lt_INR in Hlt. unfold t. split.
      * apply Rdiv_lt_0_compat; [|assumption]. nra.
      * apply (Rmult_lt_reg_r (INR n)); [assumption|].
        unfold Rdiv. rewrite Rmult_assoc, Rinv_l by lra. nra.
    + apply Cexp_neq_1_neg. apply lt_INR in Hgt. unfold t. split.
      * apply (Rmult_lt_reg_r (INR n)); [assumption|].
        unfold Rdiv. rewrite Rmult_assoc, Rinv_l by lra. nra.
      * apply (Rmult_lt_reg_r (INR n)); [assumption|].
        unfold Rdiv. rewrite Rmult_assoc, Rinv_l by lra. nra.
Qed.

Lemma Csum_const n c : Csum n (fun _ => c) = Cmul (Cof_R (INR n)) c.
Proof.
  induction n as [|n IH].
  - destruct c as [a b]. unfold Cmul, Cof_R, C0; simpl. apply C_eq; simpl; ring.
  - cbn [Csum]. rewrite IH, S_INR. destruct c as [a b].
    unfold Cadd, Cmul, Cof_R; simpl. apply C_eq; simpl; ring.
Qed.

Lemma twiddle_pair sg n j' j k :
  Cmul (twiddle (- sg) n j' j) (twiddle sg n j k) =
  Cexp (INR j * (sg * (2 * PI * (INR k - INR j') / INR n))).
Proof.
  unfold twiddle. rewrite <- Cexp_add. f_equal.
  rewrite !mult_INR. unfold Rdiv. ring.
Qed.

(** Orthogonality of the columns of the transform and its conjugate. *)
Lemma Csum_twiddle_pair sg n j' k :
  sg = 1%R \/ sg = (-1)%R -> j' < n -> k < n ->
  Csum n (fun j => Cmul (twiddle (- sg) n j' j) (twiddle sg n j k)) =
  if j' =? k then Cof_R (INR n) else C0.
Proof.
  intros Hsg Hj Hk.
  rewrite (@Csum_ext _ _
    (fun j => Cexp (INR j * (sg * (2 * PI * (INR k - INR j') / INR n)))))
    by (intros; apply twiddle_pair).
  destruct (j' =? k) eqn:E.
  - apply Nat.eqb_eq in E. subst k.
    rewrite (@Csum_ext _ _ (fun _ => C1)).
    + rewrite Csum_const. apply Cmul_1_r.
    + intros j _. rewrite <- Cexp_0. f_equal. unfold Rdiv. ring.
  - apply Nat.eqb_neq in E. destruct Hsg as [-> | ->].
    + rewrite (@Csum_ext _ _
        (fun q => Cexp (INR q * (2 * PI * (INR k - INR j') / INR n))))
        by (intros; f_equal; ring).
      apply Csum_roots; assumption.
    + rewrite (@Csum_ext _ _
        (fun q => Cexp (INR q * (2 * PI * (INR j' - INR k) / INR n))))
        by (intros; f_equal; unfold Rdiv; ring).
      apply Csum_roots; auto.
Qed.

Lemma set_axis_idem a j j' mi : set_axis a j (set_axis a j' mi) = set_axis a j mi.
Proof.
  revert a; induction mi as [|k mi IH]; intros [|a]; simpl; auto.
  f_equal. apply IH.
Qed.

Lemma nth_set_axis_same a j mi : a < length mi -> nth a (set_axis a j mi) 0 = j.
Proof.
  revert a; induction mi as [|k mi IH]; intros [|a] H; simpl in *; try lia; auto.
  apply IH. lia.
Qed.

Lemma set_axis_nth a mi : set_axis a (nth a mi 0) mi = mi.
Proof.
  revert a; induction mi as [|k mi IH]; intros [|a]; simpl; auto.
  f_equal. apply IH.
Qed.

Lemma valid_length s mi : valid s mi -> length mi = length s.
Proof. induction 1; simpl; auto. Qed.

Lemma valid_nth s mi a : valid s mi -> a < length s -> nth a mi 0 < nth a s 0.
Proof.
  intros H; revert a; induction H as [|k n mi s Hk H IH]; intros [|a] Ha;
    simpl in *; try lia. apply IH. lia.
Qed.

(** The sum with one sign undoes the sum with the other, up to the axis
    length. *)
Lemma dft_axis_inverse sg s a f mi :
  sg = 1%R \/ sg = (-1)%R ->
  valid s mi -> a < length s ->
  dft_axis sg s a (dft_axis (- sg) s a f) mi =
  Cmul (Cof_R (INR (nth a s 0))) (f mi).
Proof.
  intros Hsg Hmi Ha.
  pose proof (valid_nth Hmi Ha) as Hk.
  pose proof (valid_length Hmi) as Hl.
  unfold dft_axis.
  rewrite (@Csum_ext _ _
    (fun j => Csum (nth a s 0) (fun j' =>
       Cmul (f (set_axis a j' mi))
            (Cmul (twiddle (- sg) (nth a s 0) j' j)
                  (twiddle sg (nth a s 0) j (nth a mi 0)))))).
  2:{ intros j Hj. rewrite <- Csum_scal_r. apply Csum_ext. intros j' _.
      rewrite set_axis_idem, nth_set_axis_same by lia.
      symmetry. apply Cmul_assoc. }
  rewrite Csum_swap.
  rewrite (@Csum_ext _ _
    (fun j' => Cmul (f (set_axis a j' mi))
                 (if j' =? nth a mi 0 then Cof_R (INR (nth a s 0)) else C0))).
  2:{ intros j' Hj'. rewrite Csum_scal. f_equal.
      apply Csum_twiddle_pair; assumption. }
  rewrite Csum_single with (a := nth a mi 0).
  - rewrite Nat.eqb_refl, set_axis_nth. apply Cmul_comm.
  - assumption.
  - intros i _ Hi. destruct (i =? nth a mi 0) eqn:E.
    + apply Nat.eqb_eq in E. contradiction.
    + apply Cmul_0_r.
Qed.

Lemma dft_axis_comm2 sg sg' s a b f mi :
  a <> b ->
  dft_axis sg s a (dft_axis sg' s b f) mi = dft_axis sg' s b (dft_axis sg s a f) mi.
Proof.
  intros Hab. unfold dft_axis.
  rewrite (@Csum_ext _ _
    (fun j => Csum (nth b s 0) (fun j' =>
       Cmul (Cmul (f (set_axis b j' (set_axis a j mi)))
                  (twiddle sg' (nth b s 0) j' (nth b mi 0)))
            (twiddle sg (nth a s 0) j (nth a mi 0))))).
  2:{ intros j _. rewrite <- Csum_scal_r. apply Csum_ext. intros j' _.
      rewrite nth_set_axis_other by assumption. reflexivity. }
  rewrite Csum_swap. apply Csum_ext. intros j' _.
  rewrite <- Csum_scal_r. apply Csum_ext. intros j _.
  rewrite nth_set_axis_other by auto.
  rewrite (set_axis_comm j j' mi Hab).
  rewrite <- !Cmul_assoc. f_equal. apply Cmul_comm.
Qed.

Lemma Cmul_inv_INR n z :
  n <> 0 -> Cmul (Cof_R (/ INR n)) (Cmul (Cof_R (INR n)) z) = z.
Proof.
  intros Hn. assert (Hr : INR n <> 0%R) by (apply not_0_INR; assumption).
  destruct z as [a b]. unfold Cmul, Cof_R; simpl. apply C_eq; simpl; field; assumption.
Qed.

Lemma nth_nonzero_lt (s : list nat) a : nth a s 0 <> 0 -> a < length s.
Proof.
  intros Hn. destruct (Nat.lt_ge_cases a (length s)) as [H|H]; [assumption|].
  rewrite nth_overflow in Hn by assumption. contradiction.
Qed.

(** [ifft] along an axis undoes [fft] along it, and conversely. *)
Lemma idft_dft s a f :
  nth a s 0 <> 0 -> eq_on s (idft_fn s a (dft_axis (-1) s a f)) f.
Proof.
  intros Hn mi Hmi. pose proof (nth_nonzero_lt _ _ Hn) as Ha.
  unfold idft_fn.
  replace (-1)%R with (- (1))%R by lra.
  rewrite (@dft_axis_inverse 1 s a f mi) by auto.
  apply Cmul_inv_INR; assumption.
Qed.

Lemma dft_idft s a f :
  nth a s 0 <> 0 -> eq_on s (dft_axis (-1) s a (idft_fn s a f)) f.
Proof.
  intros Hn mi Hmi. pose proof (nth_nonzero_lt _ _ Hn) as Ha.
  unfold idft_fn. rewrite dft_axis_scal.
  replace 1%R with (- (-1))%R by lra.
  rewrite (@dft_axis_inverse (-1) s a f mi) by auto.
  apply Cmul_inv_INR; assumption.
Qed.

Lemma idft_dft_comm s a b f :
  nth a s 0 <> 0 ->
  eq_on s (idft_fn s a (dft_axis (-1) s b f)) (dft_axis (-1) s b (idft_fn s a f)).
Proof.
  intros Hn mi Hmi. destruct (Nat.eq_dec a b) as [<-|Hab].
  - rewrite idft_dft, dft_idft by assumption. reflexivity.
  - unfold idft_fn. rewrite dft_axis_scal. f_equal.
    apply dft_axis_comm2. assumption.
Qed.

Lemma fold_idft_dft_push s a r g :
  Forall (fun b => nth b s 0 <> 0) r ->
  eq_on s (fold_right (idft_fn s) (dft_axis (-1) s a g) r)
          (dft_axis (-1) s a (fold_right (idft_fn s) g r)).
Proof.
  induction 1 as [|b r Hb Hr IH]; simpl; [intros mi _; reflexivity|].
  intros mi Hmi.
  rewrite (idft_fn_ext b IH Hmi). apply idft_dft_comm; assumption.
Qed.

Lemma fold_idft_dft s axes f :
  Forall (fun a => nth a s 0 <> 0) axes ->
  eq_on s (fold_right (idft_fn s) (fold_right (dft_axis (-1) s) f axes) axes) f.
Proof.
  induction 1 as [|a r Ha Hr IH]; simpl; [intros mi _; reflexivity|].
  intros mi Hmi.
  rewrite (idft_fn_ext a (fold_idft_dft_push a _ Hr) Hmi).
  rewrite idft_dft by assumption. apply IH; assumption.
Qed.

(** [ifftn(fftn(d, axes), axes) = d] on buffers of shape [s], whatever the
    axes (repeated ones included), the transformed axes being non-empty. *)
Lemma ifftn_fftn_data s axes d :
  length d = prod s -> Forall (fun a => nth a s 0 <> 0) axes ->
  fold_right (ifft_data s) (fold_right (fft_data s) d axes) axes = d.
Proof.
  intros Hd Hax.
  rewrite <- (flatten_unflatten s d Hd) at 1.
  rewrite fold_fft_flatten, fold_ifft_flatten.
  rewrite <- (flatten_unflatten s d Hd) at 2.
  apply flatten_ext. apply fold_idft_dft. assumption.
Qed.

(* ================================================================== *)
(** ** Further properties of [NUFFT_cpu] *)
(* ================================================================== *)

(** [k2xx] is the reverse of [xx2k]: for every planned operator, batched
    or not, and every array [xx] of the planned image shape, [xx2k]
    succeeds and [k2xx] of its result is [xx] again, with the operator's
    dtype - the inverse FFT undoes the FFT along [ft_axes] (repeated axes
    included) and the cropping undoes the zero padding. *)
Theorem k2xx_reverses_xx2k fd op xx :
  planned op -> multi_Nd op = Some (shape xx) -> wf_array xx ->
  exists k,
    xx2k fd op xx = Ok k /\
    multi_Kd op = Some (shape k) /\
    k2xx fd op k = Ok (mk_ndarray (self_dtype op) (shape xx) (data xx)).
Proof.
  intros Hp Hx Hw.
  destruct (planned_view_of Hp)
    as (Nd_ & Kd_ & M & B & sfx & sfx1 & p & snd_ & nd & kd & axes & V).
  rewrite (pv_mNd V) in Hx. injection Hx as Hx.
  assert (Hlen : length (data xx) = prod Nd_ * B).
  { unfold wf_array in Hw. rewrite <- Hx, prod_app, (prod_sfx V) in Hw. exact Hw. }
  rewrite (xx2k_ok fd V) by (rewrite <- Hx, prod_app, (prod_sfx V); lia).
  eexists. split; [reflexivity|]. split; [exact (pv_mKd V)|].
  rewrite (k2xx_ok fd V) by reflexivity. cbn [data].
  rewrite ifftn_fftn_data.
  - rewrite (@copy_roundtrip Nd_ Kd_ nd kd B (data xx) (pv_tables V) Hlen), Hx.
    reflexivity.
  - rewrite copy_loop_length, repeat_length, prod_app, (prod_sfx V). reflexivity.
  - apply (axes_checks V).
Qed.

Lemma k2xx_reverses_xx2k_witness :
  exists k,
    xx2k numpy1_fft_dtype op0 x0 = Ok k /\
    multi_Kd op0 = Some (shape k) /\
    k2xx numpy1_fft_dtype op0 k = Ok (mk_ndarray (self_dtype op0) (shape x0) (data x0)).
Proof.
  apply (@k2xx_reverses_xx2k numpy1_fft_dtype op0 x0).
  - exact planned_op0.
  - reflexivity.
  - reflexivity.
Defined.

Lemma fold_fft_parseval s axes u :
  length u = prod s -> Forall (fun a => nth a s 0 <> 0) axes ->
  inner (fold_right (fft_data s) u axes) (fold_right (fft_data s) u axes) =
  Cmul (Cof_R (INR (axes_size s axes))) (inner u u).
Proof.
  intros Hu Hax.
  rewrite fold_fft_adjoint; auto.
  - rewrite ifftn_fftn_data by assumption. reflexivity.
  - apply fold_fft_length. assumption.
Qed.

(** Zero padding keeps the energy. *)
Lemma scatter_energy Nd_ Kd_ nd kd xx :
  valid_tables Nd_ Kd_ nd kd -> length xx = prod Nd_ ->
  inner (copy_loop nd kd 1 xx (repeat C0 (prod Kd_)))
        (copy_loop nd kd 1 xx (repeat C0 (prod Kd_))) = inner xx xx.
Proof.
  intros Ht Hx.
  rewrite (@scatter_gather_adjoint Nd_ Kd_ nd kd xx _ Ht Hx)
    by (rewrite copy_loop_length, repeat_length; reflexivity).
  pose proof (@copy_roundtrip Nd_ Kd_ nd kd 1 xx Ht) as R.
  rewrite !Nat.mul_1_r in R. rewrite R by assumption. reflexivity.
Qed.

(** Parseval for the oversampled FFT: on a planned one-channel operator
    the energy of [xx2k(xx)] is the energy of [xx] multiplied by the product
    of the lengths [Kd[ax]] of the transformed axes. *)
Theorem xx2k_parseval fd op xx :
  planned op -> parallel_flag op = Some 0 ->
  multi_Nd op = Some (shape xx) -> wf_array xx ->
  exists k Kd_ axes,
    xx2k fd op xx = Ok k /\ Kd op = Some Kd_ /\ ft_axes op = Some axes /\
    inner (data k) (data k) =
    Cmul (Cof_R (INR (axes_size Kd_ axes))) (inner (data xx) (data xx)).
Proof.
  intros Hp Hf Hx Hw.
  destruct (planned_view_of Hp)
    as (Nd_ & Kd_ & M & B & sfx & sfx1 & p & snd_ & nd & kd & axes & V).
  destruct (single_channel V Hf) as (E1 & E2).
  rewrite (pv_mNd V) in Hx. injection Hx as Hx.
  pose proof (axes_checks V) as (_ & _ & Hax).
  pose proof (pv_tables V) as Ht.
  pose proof (pv_Kd V) as HK. pose proof (pv_axes V) as HA.
  pose proof (xx2k_ok fd V xx) as Hk.
  subst sfx B. rewrite app_nil_r in *. rewrite Nat.mul_1_r in Hk.
  unfold wf_array in Hw. rewrite <- Hx in Hw.
  rewrite Hk by (rewrite <- Hx; lia).
  exists (mk_ndarray (fftn_dtype fd (self_dtype op) axes) Kd_
            (fold_right (fft_data Kd_)
               (copy_loop nd kd 1 (data xx) (repeat C0 (prod Kd_))) axes)),
    Kd_, axes.
  split; [rewrite Nat.mul_1_r; reflexivity|]. split; [assumption|].
  split; [assumption|]. cbn [data].
  rewrite fold_fft_parseval.
  - rewrite (@scatter_energy Nd_ Kd_ nd kd (data xx) Ht Hw). reflexivity.
  - rewrite copy_loop_length, repeat_length. reflexivity.
  - assumption.
Qed.

Lemma xx2k_parseval_witness :
  exists k Kd_ axes,
    xx2k numpy1_fft_dtype op0 x0 = Ok k /\ Kd op0 = Some Kd_ /\
    ft_axes op0 = Some axes /\
    inner (data k) (data k) =
    Cmul (Cof_R (INR (axes_size Kd_ axes))) (inner (data x0) (data x0)).
Proof.
  apply (@xx2k_parseval numpy1_fft_dtype op0 x0).
  - exact planned_op0.
  - reflexivity.
  - reflexivity.
  - reflexivity.
Defined.

(** [adjoint] is linear: over exact arithmetic
    [adjoint(a*y1 + b*y2) = a*adjoint(y1) + b*adjoint(y2)] for a planned
    one-channel operator and data of shape [(M,)]. *)
Theorem adjoint_linear fd op ca cb y1 y2 :
  planned op -> parallel_flag op = Some 0 ->
  multi_M op = Some (shape y1) -> shape y2 = shape y1 ->
  wf_array y1 -> wf_array y2 ->
  exists x1 x2 x,
    adjoint fd op y1 = Ok x1 /\ adjoint fd op y2 = Ok x2 /\
    adjoint fd op (axpby ca y1 cb y2) = Ok x /\
    multi_Nd op = Some (shape x) /\
    data x = lincomb ca (data x1) cb (data x2).
Proof.
  intros Hp Hf Hy Hs W1 W2.
  destruct (planned_view_of Hp)
    as (Nd' & Kd' & M & B & sfx & sfx1 & p & snd_ & nd & kd & axes' & V).
  destruct (single_channel V Hf) as (E1 & E2).
  rewrite (pv_mM V) in Hy. injection Hy as Hy. subst sfx B.
  unfold wf_array in W1, W2. rewrite Hs in W2. rewrite <- Hy in W1, W2.
  rewrite (adjoint_single fd y1 V Hf) by auto.
  rewrite (adjoint_single fd y2 V Hf) by congruence.
  rewrite (adjoint_single fd (axpby ca y1 cb y2) V Hf) by (simpl; auto).
  eexists _, _, _. repeat (split; [reflexivity|]). split.
  - rewrite (pv_mNd V), app_nil_r. reflexivity.
  - simpl. apply adjoint_data_lincomb. congruence.
Qed.

Lemma adjoint_linear_witness :
  exists x1 x2 x,
    adjoint numpy1_fft_dtype op0 x0 = Ok x1 /\
    adjoint numpy1_fft_dtype op0 y0 = Ok x2 /\
    adjoint numpy1_fft_dtype op0 (axpby C1 x0 C1 y0) = Ok x /\
    multi_Nd op0 = Some (shape x) /\
    data x = lincomb C1 (data x1) C1 (data x2).
Proof.
  apply (@adjoint_linear numpy1_fft_dtype op0 C1 C1 x0 y0).
  - exact planned_op0.
  - reflexivity.
  - reflexivity.
  - reflexivity.
  - reflexivity.
  - reflexivity.
Defined.

(** The interpolation and the gridding are exact adjoints: on a planned
    one-channel operator [<k2y(k), y> = <k, y2k(y)>] for every [k] of shape
    [Kd] and [y] of shape [(M,)], [spH] being the conjugate transpose of
    [sp]. *)
Theorem k2y_y2k_adjoint op k y :
  planned op -> parallel_flag op = Some 0 ->
  multi_Kd op = Some (shape k) -> wf_array k ->
  multi_M op = Some (shape y) -> wf_array y ->
  exists yk ky,
    k2y op k = Ok yk /\ shape yk = shape y /\
    y2k op y = Ok ky /\ shape ky = shape k /\
    inner (data yk) (data y) = inner (data k) (data ky).
Proof.
  intros Hp Hf Hk Wk Hy Wy.
  destruct (planned_view_of Hp)
    as (Nd' & Kd' & M & B & sfx & sfx1 & p & snd_ & nd & kd & axes' & V).
  destruct (single_channel V Hf) as (E1 & E2).
  rewrite (pv_mKd V) in Hk. injection Hk as Hk.
  rewrite (pv_mM V) in Hy. injection Hy as Hy.
  rewrite (k2y_ok V) by (symmetry; exact Hk).
  rewrite (y2k_ok V) by (symmetry; exact Hy).
  eexists _, _. split; [reflexivity|]. split; [exact Hy|].
  split; [reflexivity|]. split; [exact Hk|].
  cbn [data]. subst sfx B. rewrite app_nil_r in Hk.
  unfold wf_array in Wk, Wy. rewrite <- Hk in Wk. rewrite <- Hy in Wy. simpl in Wy.
  pose proof (@spmm_adjoint p (data k) (data y) (pv_wf_p V)) as H.
  rewrite (pv_shape_p V) in H. simpl in H. apply H; lia.
Qed.

Lemma k2y_y2k_adjoint_witness :
  exists yk ky,
    k2y op0 (mk_ndarray complex64 [2] [C1; C0]) = Ok yk /\ shape yk = shape y0 /\
    y2k op0 y0 = Ok ky /\ shape ky = shape (mk_ndarray complex64 [2] [C1; C0]) /\
    inner (data yk) (data y0) = inner (data (mk_ndarray complex64 [2] [C1; C0])) (data ky).
Proof.
  apply (@k2y_y2k_adjoint op0 (mk_ndarray complex64 [2] [C1; C0]) y0).
  - exact planned_op0.
  - reflexivity.
  - reflexivity.
  - reflexivity.
  - reflexivity.
  - reflexivity.
Defined.

Lemma inner_self_real u : snd (inner u u) = 0%R /\ (0 <= fst (inner u u))%R.
Proof.
  induction u as [|[a b] u [IH1 IH2]]; simpl.
  - split; lra.
  - unfold Cadd, Cmul, Cconj; simpl. split; [rewrite IH1; ring | nra].
Qed.

Lemma axes_size_pos s axes :
  Forall (fun a => nth a s 0 <> 0) axes -> 0 < axes_size s axes.
Proof.
  induction 1 as [|a axes Ha H IH]; simpl; [lia|].
  apply Nat.mul_pos_pos; lia.
Qed.

Lemma Cmul_real_cancel r a b :
  r <> 0%R -> Cmul (Cof_R r) a = Cmul (Cof_R r) b -> a = b.
Proof.
  intros Hr. destruct a as [a1 a2], b as [b1 b2]. unfold Cmul, Cof_R; simpl.
  intros E. injection E as E1 E2.
  assert (H1 : (r * a1 = r * b1)%R) by lra.
  assert (H2 : (r * a2 = r * b2)%R) by lra.
  apply Rmult_eq_reg_l in H1; [|assumption].
  apply Rmult_eq_reg_l in H2; [|assumption].
  subst. reflexivity.
Qed.

Lemma Cconj_mul_real r a : Cconj (Cmul (Cof_R r) a) = Cmul (Cof_R r) (Cconj a).
Proof. rewrite Cconj_mul, Cconj_of_R. reflexivity. Qed.

(** The composition of the buffer maps, as [selfadjoint] computes it. *)
Definition selfadjoint_data (Nd_ Kd_ : list nat) (M : nat) (p : spmatrix)
    (sn_data : list C) (nd kd axes : list nat) (dx : list C) : list C :=
  adjoint_data Nd_ Kd_ p sn_data nd kd axes
    (forward_data Kd_ M p sn_data nd kd axes dx).

Lemma selfadjoint_single fd op Nd_ Kd_ M B sfx sfx1 p sn_data nd kd axes x :
  planned_view op Nd_ Kd_ M B sfx sfx1 p sn_data nd kd axes ->
  parallel_flag op = Some 0 ->
  shape x = Nd_ -> wf_array x ->
  selfadjoint fd op x =
  Ok (mk_ndarray (self_dtype op) Nd_
        (selfadjoint_data Nd_ Kd_ M p sn_data nd kd axes (data x))).
Proof.
  intros V Hf Hs Hw.
  rewrite selfadjoint_unfold, (forward_single fd V Hf Hs Hw). cbn [bind].
  rewrite (@adjoint_single fd op _ _ _ _ _ _ _ _ _ _ _ _ V Hf) by reflexivity.
  reflexivity.
Qed.

Section SelfadjointData.

Variables (Nd_ Kd_ : list nat) (M : nat) (p : spmatrix) (sn_data : list C).
Variables (nd kd axes : list nat).
Hypothesis Hshape : sp_shape p = (M, prod Kd_).
Hypothesis Hwf : wf_spmatrix p.
Hypothesis Hsn : length sn_data = prod Nd_.
Hypothesis Hreal : Forall (fun z => snd z = 0%R) sn_data.
Hypothesis Htab : valid_tables Nd_ Kd_ nd kd.
Hypothesis Hax : Forall (fun a => nth a Kd_ 0 <> 0) axes.

Let Fw := forward_data Kd_ M p sn_data nd kd axes.
Let Sa := selfadjoint_data Nd_ Kd_ M p sn_data nd kd axes.

Lemma selfadjoint_data_energy u v :
  length u = prod Nd_ -> length v = prod Nd_ ->
  Cmul (Cof_R (INR (axes_size Kd_ axes))) (inner u (Sa v)) = inner (Fw u) (Fw v).
Proof.
  intros Hu Hv. unfold Sa, Fw, selfadjoint_data. symmetry.
  apply duality_data; auto. apply forward_data_length.
Qed.

Lemma selfadjoint_data_hermitian u v :
  length u = prod Nd_ -> length v = prod Nd_ ->
  inner (Sa u) v = inner u (Sa v).
Proof.
  intros Hu Hv.
  assert (HK : INR (axes_size Kd_ axes) <> 0%R).
  { apply not_0_INR. pose proof (@axes_size_pos Kd_ axes Hax). lia. }
  apply (@Cmul_real_cancel _ _ _ HK).
  rewrite (@selfadjoint_data_energy u v Hu Hv).
  rewrite (inner_conj_sym (Sa u) v), <- Cconj_mul_real.
  rewrite (@selfadjoint_data_energy v u Hv Hu).
  symmetry. apply inner_conj_sym.
Qed.

Lemma selfadjoint_data_psd u :
  length u = prod Nd_ ->
  snd (inner u (Sa u)) = 0%R /\ (0 <= fst (inner u (Sa u)))%R.
Proof.
  intros Hu.
  assert (HK : (0 < INR (axes_size Kd_ axes))%R).
  { apply lt_0_INR. apply axes_size_pos. assumption. }
  pose proof (@selfadjoint_data_energy u u Hu Hu) as E.
  destruct (inner_self_real (Fw u)) as [H1 H2].
  rewrite <- E in H1, H2. revert H1 H2.
  destruct (inner u (Sa u)) as [a b]. unfold Cmul, Cof_R; simpl.
  intros H1 H2. split; nra.
Qed.

End SelfadjointData.

(** [selfadjoint] is Hermitian and positive semi-definite: on a planned
    one-channel operator with a real scaling array,
    [<selfadjoint(x1), x2> = <x1, selfadjoint(x2)>] and
    [<x, selfadjoint(x)>] is real and non-negative, for images of shape
    [Nd]. *)
Theorem selfadjoint_hermitian_psd fd op x1 x2 s :
  planned op -> parallel_flag op = Some 0 ->
  sn op = Some s -> Forall (fun z => snd z = 0%R) (data s) ->
  multi_Nd op = Some (shape x1) -> shape x2 = shape x1 ->
  wf_array x1 -> wf_array x2 ->
  exists s1 s2,
    selfadjoint fd op x1 = Ok s1 /\ selfadjoint fd op x2 = Ok s2 /\
    shape s1 = shape x1 /\ shape s2 = shape x2 /\
    inner (data s1) (data x2) = inner (data x1) (data s2) /\
    snd (inner (data x1) (data s1)) = 0%R /\
    (0 <= fst (inner (data x1) (data s1)))%R.
Proof.
  intros Hp Hf Hsn Hreal Hx Hs W1 W2.
  destruct (planned_view_of Hp)
    as (Nd' & Kd' & M & B & sfx & sfx1 & p & snd_ & nd & kd & axes' & V).
  destruct (single_channel V Hf) as (E1 & E2).
  rewrite (pv_mNd V) in Hx. injection Hx as Hx.
  rewrite (pv_sn V) in Hsn. injection Hsn as <-. simpl in Hreal.
  pose proof (axes_checks V) as (_ & _ & Hax).
  subst sfx B. rewrite app_nil_r in *.
  assert (Hs2 : shape x2 = Nd') by congruence.
  rewrite (selfadjoint_single fd V Hf (eq_sym Hx) W1).
  rewrite (selfadjoint_single fd V Hf Hs2 W2).
  unfold wf_array in W1, W2. rewrite <- Hx in W1. rewrite Hs2 in W2.
  eexists _, _. split; [reflexivity|]. split; [reflexivity|].
  split; [exact Hx|]. split; [symmetry; exact Hs2|]. cbn [data].
  split.
  - apply selfadjoint_data_hermitian; auto;
      [apply (pv_shape_p V) | apply (pv_wf_p V) | apply (pv_sn_len V) | apply (pv_tables V)].
  - apply selfadjoint_data_psd; auto;
      [apply (pv_shape_p V) | apply (pv_wf_p V) | apply (pv_sn_len V) | apply (pv_tables V)].
Qed.

Lemma selfadjoint_hermitian_psd_witness :
  exists s1 s2,
    selfadjoint numpy1_fft_dtype op0 x0 = Ok s1 /\
    selfadjoint numpy1_fft_dtype op0 y0 = Ok s2 /\
    shape s1 = shape x0 /\ shape s2 = shape y0 /\
    inner (data s1) (data y0) = inner (data x0) (data s2) /\
    snd (inner (data x0) (data s1)) = 0%R /\
    (0 <= fst (inner (data x0) (data s1)))%R.
Proof.
  apply (@selfadjoint_hermitian_psd numpy1_fft_dtype op0 x0 y0
           (mk_ndarray complex64 [1] [C1])).
  - exact planned_op0.
  - reflexivity.
  - reflexivity.
  - repeat constructor.
  - reflexivity.
  - reflexivity.
  - reflexivity.
  - reflexivity.
Defined.

(** In batch mode with more than one channel the weighting array cannot be
    computed: [_precompute_sp] feeds a [(M,)] array of ones to [adjoint],
    whose gridded vector of [prod(Kd)] cells cannot be reshaped to
    [Kd + (batch,)].  So [selfadjoint2] raises [ValueError] on every input,
    after printing the message of [_precompute_sp], and assigns nothing. *)
Theorem selfadjoint2_batch_raises fd op x B :
  planned op -> parallel_flag op = Some 1 -> batch op = Some B -> 2 <= B ->
  W op = None ->
  selfadjoint2 fd op x =
  (Raise ValueError, op, [Print "errors occur in self.precompute_sp()"%string]).
Proof.
  intros Hp Hf Hb HB HW.
  destruct (planned_view_of Hp)
    as (Nd_ & Kd_ & M & B' & sfx & sfx1 & p & snd_ & nd & kd & axes & V).
  rewrite (pv_batch V) in Hb. injection Hb as ->.
  rewrite (pv_flag V) in Hf. injection Hf as Hf.
  destruct (pv_sfx V) as [(E1 & _ & _) | (E1 & _ & _)]; subst sfx; [discriminate|].
  destruct (pv_st V) as (st' & Est & EM).
  pose proof (prod_pos (Kd_pos V)) as HK.
  unfold selfadjoint2, weighted. rewrite HW. cbn [attr bind].
  unfold _precompute_sp. rewrite Est. cbn [attr bind].
  unfold adjoint, y2k, y2vec. rewrite (pv_spH V). cbn [attr bind].
  unfold dot, ones. cbn [shape getH sp_shape snd fst].
  rewrite (pv_shape_p V), EM. cbn [fst snd]. rewrite Nat.eqb_refl. cbn [bind].
  unfold vec2k. rewrite (pv_mKd V). cbn [attr bind].
  unfold reshape. cbn [shape].
  assert (E : (prod (Kd_ ++ [B]) =? prod [prod Kd_]) = false).
  { apply Nat.eqb_neq. rewrite prod_app. simpl. nia. }
  rewrite E. reflexivity.
Qed.

Lemma planned_op0_batch2 :
  planned (snd (plan hp0 preindex_copy init [[0%R]] [1] [2] [1] None (Some 2))).
Proof.
  apply planned_intro with (hp := hp0) (pc := preindex_copy) (self := init)
    (om := [[0%R]]) (Nd_ := [1]) (Kd_ := [2]) (Jd_ := [1]) (fa := None) (b := Some 2)
    (st0 := st0) (p := p0) (s := sn0) (nd := [0]) (kd := [0]) (ne := 1);
    try reflexivity; try exact valid_tables_0; try (simpl; lia); repeat constructor.
Qed.

Lemma selfadjoint2_batch_raises_witness :
  selfadjoint2 numpy1_fft_dtype
    (snd (plan hp0 preindex_copy init [[0%R]] [1] [2] [1] None (Some 2)))
    (mk_ndarray complex64 [1; 2] [C1; C1]) =
  (Raise ValueError,
   snd (plan hp0 preindex_copy init [[0%R]] [1] [2] [1] None (Some 2)),
   [Print "errors occur in self.precompute_sp()"%string]).
Proof.
  apply (@selfadjoint2_batch_raises numpy1_fft_dtype _ _ 2).
  - exact planned_op0_batch2.
  - reflexivity.
  - reflexivity.
  - lia.
  - reflexivity.
Defined.

(** Before [plan], every transform raises [AttributeError] on every input:
    [__init__] assigns [dtype] and [debug] only.  [selfadjoint2] also runs
    [_precompute_sp], which prints its message and re-raises, and leaves the
    object as it was. *)
Theorem unplanned_raises fd x :
  forward fd init x = Raise AttributeError /\
  adjoint fd init x = Raise AttributeError /\
  selfadjoint fd init x = Raise AttributeError /\
  k2y2k init x = Raise AttributeError /\
  k2y2k_single init x = Raise AttributeError /\
  selfadjoint2 fd init x =
  (Raise AttributeError, init, [Print "errors occur in self.precompute_sp()"%string]).
Proof. repeat split; reflexivity. Qed.

Lemma plan_keeps_dtype_debug hp pc self om Nd_ Kd_ Jd_ fa b :
  self_dtype (snd (plan hp pc self om Nd_ Kd_ Jd_ fa b)) = self_dtype self /\
  debug (snd (plan hp pc self om Nd_ Kd_ Jd_ fa b)) = debug self.
Proof.
  unfold plan. destruct self.
  destruct (hp _ _ _ _ _) as [s0|]; [|split; reflexivity].
  destruct (st_sn s0); [|split; reflexivity].
  destruct b; cbn [set_batch set_parallel_flag set_sn];
    [destruct (reshape _ _); [|split; reflexivity]|];
    (destruct (st_p s0); [|split; reflexivity]);
    (destruct (pc _ _) as [[[? ?] ?]|]; split; reflexivity).
Qed.

(** A successful [plan] overwrites everything an earlier [plan] stored:
    the object it leaves depends on the arguments and on [dtype], [debug]
    and [W] only, so two objects that agree on these three are equal after
    the call; in particular planning a second time with the same arguments
    changes nothing. *)
Theorem plan_overwrites hp pc self1 self2 om Nd_ Kd_ Jd_ fa b :
  self_dtype self1 = self_dtype self2 -> debug self1 = debug self2 ->
  W self1 = W self2 ->
  fst (plan hp pc self1 om Nd_ Kd_ Jd_ fa b) = Ok 0%Z ->
  plan hp pc self2 om Nd_ Kd_ Jd_ fa b = plan hp pc self1 om Nd_ Kd_ Jd_ fa b /\
  plan hp pc (snd (plan hp pc self1 om Nd_ Kd_ Jd_ fa b)) om Nd_ Kd_ Jd_ fa b =
  plan hp pc self1 om Nd_ Kd_ Jd_ fa b.
Proof.
  assert (Hgen : forall s1 s2,
    self_dtype s1 = self_dtype s2 -> debug s1 = debug s2 -> W s1 = W s2 ->
    fst (plan hp pc s1 om Nd_ Kd_ Jd_ fa b) = Ok 0%Z ->
    plan hp pc s2 om Nd_ Kd_ Jd_ fa b = plan hp pc s1 om Nd_ Kd_ Jd_ fa b).
  { intros s1 s2 Hd Hg HW. unfold plan. destruct s1, s2. simpl in Hd, Hg, HW. subst.
    destruct (hp _ _ _ _ _) as [s0|]; [|discriminate].
    destruct (st_sn s0); [|discriminate].
    destruct b; cbn [set_batch set_parallel_flag set_sn];
      [destruct (reshape _ _); [|discriminate]|];
      (destruct (st_p s0); [|discriminate]);
      (destruct (pc _ _) as [[[? ?] ?]|]; [reflexivity|discriminate]). }
  intros Hd Hg HW Hok. split.
  - apply Hgen; assumption.
  - apply Hgen; auto.
    + symmetry. apply plan_keeps_dtype_debug.
    + symmetry. apply plan_keeps_dtype_debug.
    + symmetry. apply plan_keeps_W.
Qed.

Lemma plan_overwrites_witness :
  plan hp0 preindex_copy op0 [[0%R]] [1] [2] [1] None None =
  plan hp0 preindex_copy init [[0%R]] [1] [2] [1] None None /\
  plan hp0 preindex_copy
    (snd (plan hp0 preindex_copy init [[0%R]] [1] [2] [1] None None))
    [[0%R]] [1] [2] [1] None None =
  plan hp0 preindex_copy init [[0%R]] [1] [2] [1] None None.
Proof.
  apply (@plan_overwrites hp0 preindex_copy init op0 [[0%R]] [1] [2] [1] None None);
    reflexivity.
Defined.

(** [k2y2k_single] is the one-channel form of [k2y2k]: on a planned
    one-channel operator the two return the same array for every [k] of
    shape [Kd]; on an operator planned with two channels or more
    [k2y2k_single] raises [ValueError] for every [k] of shape
    [Kd + (batch,)] - the flattened [k] is too long for [sp] - while
    [k2y2k] succeeds. *)
Theorem k2y2k_single_one_channel_only op k :
  planned op -> multi_Kd op = Some (shape k) ->
  (parallel_flag op = Some 0 ->
   exists r, k2y2k op k = Ok r /\ k2y2k_single op k = Ok r /\ shape r = shape k) /\
  (forall B, parallel_flag op = Some 1 -> batch op = Some B -> 2 <= B ->
   k2y2k_single op k = Raise ValueError /\
   exists r, k2y2k op k = Ok r /\ shape r = shape k).
Proof.
  intros Hp Hk.
  destruct (planned_view_of Hp)
    as (Nd_ & Kd_ & M & B' & sfx & sfx1 & p & snd_ & nd & kd & axes & V).
  rewrite (pv_mKd V) in Hk. injection Hk as Hk.
  pose proof (prod_pos (Kd_pos V)) as HK.
  assert (E2 : k2y2k op k = (y <- k2y op k ;; y2k op y)).
  { unfold k2y2k, k2y, y2k. rewrite !bind_assoc.
    destruct (k2vec op k); [|reflexivity]. cbn [bind].
    destruct (vec2y op a); reflexivity. }
  split.
  - intros Hf. destruct (single_channel V Hf) as (-> & ->).
    rewrite app_nil_r in Hk.
    rewrite E2, (k2y_ok V) by (rewrite app_nil_r; symmetry; exact Hk).
    cbn [bind]. rewrite (y2k_ok V) by reflexivity.
    eexists. split; [reflexivity|]. split.
    + unfold k2y2k_single, dot. rewrite (pv_sp V), (pv_spH V), (pv_Kd V).
      cbn [attr bind shape getH sp_shape fst snd dt data].
      rewrite (pv_shape_p V). cbn [fst snd]. rewrite <- Hk, Nat.eqb_refl.
      cbn [bind shape]. rewrite Nat.eqb_refl. cbn [bind].
      unfold reshape. cbn [shape prod fold_right].
      rewrite Nat.mul_1_r, Nat.eqb_refl, app_nil_r. reflexivity.
    + cbn [shape]. rewrite app_nil_r. exact Hk.
  - intros B Hf Hb HB. rewrite (pv_batch V) in Hb. injection Hb as ->.
    rewrite (pv_flag V) in Hf. injection Hf as Hf.
    destruct (pv_sfx V) as [(E1 & _ & _) | (E1 & _ & _)]; subst sfx; [discriminate|].
    split.
    + unfold k2y2k_single, dot. rewrite (pv_sp V). cbn [attr bind shape].
      rewrite (pv_shape_p V). cbn [fst snd].
      assert (E : (prod (shape k) =? prod Kd_) = false).
      { apply Nat.eqb_neq. rewrite <- Hk, prod_app. simpl. nia. }
      rewrite E. reflexivity.
    + rewrite E2, (k2y_ok V) by (symmetry; exact Hk).
      cbn [bind]. rewrite (y2k_ok V) by reflexivity.
      eexists. split; [reflexivity|]. exact Hk.
Qed.

Lemma k2y2k_single_one_channel_only_witness :
  exists r,
    k2y2k op0 (mk_ndarray complex64 [2] [C1; C0]) = Ok r /\
    k2y2k_single op0 (mk_ndarray complex64 [2] [C1; C0]) = Ok r /\
    shape r = shape (mk_ndarray complex64 [2] [C1; C0]).
Proof.
  apply (proj1 (@k2y2k_single_one_channel_only op0
                  (mk_ndarray complex64 [2] [C1; C0]) planned_op0 eq_refl)).
  reflexivity.
Defined.

(** The shape contract of the three transforms, for every planned
    operator, batched or not: on an array of shape [multi_Nd], [forward]
    returns an array of shape [multi_M] and [selfadjoint] one of shape
    [multi_Nd]; on an array of shape [multi_M], [adjoint] returns one of
    shape [multi_Nd]; none of them raises, and the results of [adjoint] and
    [selfadjoint] have the operator's dtype. *)
Theorem transforms_total fd op :
  planned op ->
  (forall x, multi_Nd op = Some (shape x) -> wf_array x ->
     exists y s,
       forward fd op x = Ok y /\ multi_M op = Some (shape y) /\ wf_array y /\
       selfadjoint fd op x = Ok s /\ shape s = shape x /\ wf_array s /\
       dt s = self_dtype op) /\
  (forall y, multi_M op = Some (shape y) ->
     exists x, adjoint fd op y = Ok x /\ multi_Nd op = Some (shape x) /\
               wf_array x /\ dt x = self_dtype op).
Proof.
  intros Hp.
  destruct (planned_view_of Hp)
    as (Nd_ & Kd_ & M & B & sfx & sfx1 & p & snd_ & nd & kd & axes & V).
  assert (HA : forall y, multi_M op = Some (shape y) ->
     exists x, adjoint fd op y = Ok x /\ multi_Nd op = Some (shape x) /\
               wf_array x /\ dt x = self_dtype op).
  { intros y Hy. rewrite (pv_mM V) in Hy. injection Hy as Hy.
    destruct (@adjoint_ok fd _ _ _ _ _ _ _ _ _ _ _ _ V y (eq_sym Hy)) as (d & Hl & _ & E).
    rewrite E. eexists. split; [reflexivity|]. split; [exact (pv_mNd V)|].
    split; [|reflexivity].
    unfold wf_array. cbn [data shape]. rewrite prod_app, (prod_sfx V). exact Hl. }
  split; [|exact HA].
  intros x Hx Hw. pose proof Hx as Hx'.
  rewrite (pv_mNd V) in Hx. injection Hx as Hx.
  destruct (@forward_ok fd _ _ _ _ _ _ _ _ _ _ _ _ V x (eq_sym Hx) Hw) as (d & _ & _ & E).
  destruct (HA (mk_ndarray (result_type (sp_dt p) (fftn_dtype fd (self_dtype op) axes)) (M :: sfx)
          (spmm (entries p) M B
             (fold_right (fft_data (Kd_ ++ sfx))
                (copy_loop nd kd B d (repeat C0 (prod Kd_ * B))) axes))))
    as (s & Es & Hs & Ws & Ds).
  { rewrite (pv_mM V). reflexivity. }
  rewrite E. eexists _, s. split; [reflexivity|]. split; [exact (pv_mM V)|].
  split.
  - unfold wf_array. cbn [data shape prod fold_right].
    rewrite spmm_length.
    change (fold_right Nat.mul 1 sfx) with (prod sfx). rewrite (prod_sfx V). reflexivity.
  - rewrite selfadjoint_unfold, E. cbn [bind]. split; [exact Es|].
    split; [congruence|]. split; assumption.
Qed.

Lemma transforms_total_witness :
  (exists y s,
     forward numpy1_fft_dtype op0 x0 = Ok y /\ multi_M op0 = Some (shape y) /\
     wf_array y /\
     selfadjoint numpy1_fft_dtype op0 x0 = Ok s /\ shape s = shape x0 /\
     wf_array s /\ dt s = self_dtype op0) /\
  (exists x, adjoint numpy1_fft_dtype op0 y0 = Ok x /\
             multi_Nd op0 = Some (shape x) /\
             wf_array x /\ dt x = self_dtype op0).
Proof.
  split.
  - apply (proj1 (@transforms_total numpy1_fft_dtype op0 planned_op0) x0);
      reflexivity.
  - apply (proj2 (@transforms_total numpy1_fft_dtype op0 planned_op0) y0);
      reflexivity.
Defined.

(** [z * conj(z)] is [|z|^2], whose principal square root is [|z|]. *)
Lemma Csqrt_norm z : Csqrt (Cmul z (Cconj z)) = Cof_R (Cmod z).
Proof.
  destruct z as [a b].
  assert (E : Cmul (a, b) (Cconj (a, b)) = ((a * a + b * b)%R, 0%R)).
  { unfold Cmul, Cconj; simpl. apply C_eq; simpl; ring. }
  rewrite E. unfold Csqrt, Cmod, Cnorm2, Cof_R. cbn [fst snd].
  assert (Hn : (0 <= a * a + b * b)%R) by nra.
  replace ((a * a + b * b) * (a * a + b * b) + 0 * 0)%R
    with ((a * a + b * b) * (a * a + b * b))%R by ring.
  rewrite sqrt_square by assumption.
  destruct (Rlt_dec 0 0) as [H|H]; [lra|].
  f_equal.
  - f_equal. field.
  - replace ((a * a + b * b - (a * a + b * b)) / 2)%R with 0%R by field.
    apply sqrt_0.
Qed.

Lemma map2_Cmul_conj d :
  map Csqrt (map2 Cmul d (map Cconj d)) = map (fun z => Cof_R (Cmod z)) d.
Proof.
  induction d as [|z d IH]; simpl; [reflexivity|].
  rewrite Csqrt_norm, IH. reflexivity.
Qed.

(** The weighting array that [_precompute_sp] assigns is the modulus of
    the spectrum of [adjoint(ones(M))]: on a planned one-channel operator,
    [W = |xx2k(adjoint(ones((M,))))|] cell by cell, real and non-negative,
    with the shape [Kd] and the dtype of the [fftn] result. *)
Theorem precompute_W_is_modulus fd op :
  planned op -> parallel_flag op = Some 0 ->
  exists st_ a k w,
    st op = Some st_ /\
    adjoint fd op (ones [st_M st_] complex64) = Ok a /\
    xx2k fd op a = Ok k /\
    _precompute_sp fd op = (Ok tt, set_W w op, [AssignW]) /\
    Kd op = Some (shape w) /\ dt w = dt k /\
    data w = map (fun z => Cof_R (Cmod z)) (data k).
Proof.
  intros Hp Hf.
  destruct (planned_view_of Hp)
    as (Nd_ & Kd_ & M & B & sfx & sfx1 & p & snd_ & nd & kd & axes & V).
  destruct (single_channel V Hf) as (Esfx & EB).
  destruct (pv_st V) as (st' & Est & EM).
  destruct (@adjoint_ok fd _ _ _ _ _ _ _ _ _ _ _ _ V (ones [st_M st'] complex64))
    as (d & Hl & _ & Ea).
  { rewrite EM, Esfx. reflexivity. }
  pose proof (xx2k_ok fd V (mk_ndarray (self_dtype op) (Nd_ ++ sfx) d)) as Ek.
  exists st'. eexists. eexists. eexists.
  split; [exact Est|]. split; [exact Ea|].
  split; [apply Ek; simpl; rewrite prod_app, (prod_sfx V); lia|].
  unfold _precompute_sp. rewrite Est. cbn [attr bind]. rewrite Ea. cbn [bind].
  rewrite Ek by (simpl; rewrite prod_app, (prod_sfx V); lia). cbn [bind].
  rewrite multiply_same_shape.
  - cbn [bind]. split; [reflexivity|].
    unfold pow_half, conj. cbn [shape dt data].
    split; [rewrite (pv_Kd V), Esfx, app_nil_r; reflexivity|].
    split; [apply result_type_idem|]. apply map2_Cmul_conj.
  - reflexivity.
  - unfold wf_array. cbn [data shape]. apply fold_fft_length.
    rewrite copy_loop_length, repeat_length, prod_app, (prod_sfx V). reflexivity.
  - unfold wf_array, conj. cbn [data shape]. rewrite length_map.
    apply fold_fft_length.
    rewrite copy_loop_length, repeat_length, prod_app, (prod_sfx V). reflexivity.
Qed.

Lemma precompute_W_is_modulus_witness :
  exists st_ a k w,
    st op0 = Some st_ /\
    adjoint numpy1_fft_dtype op0 (ones [st_M st_] complex64) = Ok a /\
    xx2k numpy1_fft_dtype op0 a = Ok k /\
    _precompute_sp numpy1_fft_dtype op0 = (Ok tt, set_W w op0, [AssignW]) /\
    Kd op0 = Some (shape w) /\ dt w = dt k /\
    data w = map (fun z => Cof_R (Cmod z)) (data k).
Proof.
  apply (@precompute_W_is_modulus numpy1_fft_dtype op0).
  - exact planned_op0.
  - reflexivity.
Defined.

(* ================================================================== *)
(** ** [NUFFT_excalibur]: the subclass planned with coil sensitivities *)
(* ================================================================== *)

(** [NameError]: the error type has no constructor of its own for it. *)
Definition NameError : exn := OtherError 1.

Section Plan1.

(** [helper1.plan1] and [helper.preindex_copy] belong to the builder's
    modules; [plan1] only calls them. *)
Variable helper1_plan1 :
  Om -> list nat -> list nat -> list nat -> list nat -> ndarray -> result St.
Variable helper_preindex_copy :
  list nat -> list nat -> result (list nat * list nat * nat).

(** [NUFFT_excalibur.plan1(self, om, Nd, Kd, Jd, ft_axes, coil_sense)].
    With [debug] equal to 1 the two [print] statements read [self.st['p']]
    and then the name [st_tmp], which is bound nowhere.  Unlike [plan],
    the method assigns none of [parallel_flag], [batch], [multi_Nd],
    [multi_Kd], [multi_M], [multi_prodKd]. *)
Definition plan1 (self : NUFFT_cpu) (om : Om) (Nd_ Kd_ Jd_ : list nat)
    (ft_axes_ : option (list nat)) (coil_sense : ndarray)
  : result Z * NUFFT_cpu :=
  let self := set_ndims (length Nd_) self in
  let axes := match ft_axes_ with
              | None => seq 0 (length Nd_)
              | Some a => a
              end in
  let self := set_ft_axes axes self in
  match helper1_plan1 om Nd_ Kd_ Jd_ axes coil_sense with
  | Raise e => (Raise e, self)
  | Ok st0 =>
    let self := set_st st0 self in
    if debug self =? 1
    then match st_p st0 with
         | None => (Raise KeyError, self)
         | Some _ => (Raise NameError, self)
         end
    else
    let self := set_Nd (st_Nd st0) self in
    let self := set_Kd (st_Kd st0) self in
    match st_sn st0 with
    | None => (Raise KeyError, self)
    | Some sn0 =>
      let self := set_sn (astype sn0 (self_dtype self)) self in
      match st_p st0 with
      | None => (Raise KeyError, self)
      | Some p =>
        let self := set_sp (tocsr (sp_copy p)) self in
        let self := set_spH (tocsr (sp_copy (getH p))) self in
        let self := set_Kdprod (int32 (prod (st_Kd st0))) self in
        let self := set_Jdprod (int32 (prod (st_Jd st0))) self in
        let self := set_st (del_p_sn st0) self in
        match helper_preindex_copy (st_Nd st0) (st_Kd st0) with
        | Raise e => (Raise e, self)
        | Ok (nd, kd, ne) =>
          let self := set_NdCPUorder nd self in
          let self := set_KdCPUorder kd self in
          let self := set_nelem ne self in
          (Ok 0%Z, self)
        end
      end
    end
  end.

Lemma plan1_keeps_multi_Kd self om Nd_ Kd_ Jd_ fa cs :
  multi_Kd (snd (plan1 self om Nd_ Kd_ Jd_ fa cs)) = multi_Kd self.
Proof.
  unfold plan1.
  destruct (helper1_plan1 _ _ _ _ _ _) as [s0|]; [|reflexivity].
  destruct (_ =? 1).
  - destruct (st_p s0); reflexivity.
  - destruct (st_sn s0); [|reflexivity].
    destruct (st_p s0); [|reflexivity].
    destruct (helper_preindex_copy _ _) as [[[? ?] ?]|]; reflexivity.
Qed.

End Plan1.

Lemma forward_needs_multi_Kd fd op x :
  multi_Kd op = None ->
  forward fd op x = Raise AttributeError \/ forward fd op x = Raise ValueError.
Proof.
  intros H. unfold forward, x2xx.
  destruct (sn op) as [s|]; [|left; reflexivity]. cbn [attr bind].
  unfold multiply. destruct (broadcast_shapes _ _); [|right; reflexivity].
  cbn [bind]. unfold xx2k, scatter. rewrite H. left. reflexivity.
Qed.

Lemma adjoint_needs_multi_Kd fd op y :
  multi_Kd op = None ->
  adjoint fd op y = Raise AttributeError \/ adjoint fd op y = Raise ValueError.
Proof.
  intros H. unfold adjoint, y2k, y2vec.
  destruct (spH op) as [s|]; [|left; reflexivity]. cbn [attr bind].
  assert (Hd : (exists r, dot s y = Ok r) \/ dot s y = Raise ValueError).
  { unfold dot. destruct (shape y) as [|n [|b [|c l]]]; auto;
      destruct (_ =? _); eauto. }
  destruct Hd as [(r & ->) | ->]; [|right; reflexivity].
  cbn [bind]. unfold vec2k. rewrite H. left. reflexivity.
Qed.

(** After [NUFFT_excalibur.plan1] on an object that [plan] has not
    prepared - a new one in particular - no transform works: [plan1]
    assigns neither [batch] nor the [multi_*] shapes that [xx2k], [k2xx],
    [k2vec] and [vec2k] read, so [forward], [adjoint] and [selfadjoint] raise
    [AttributeError] (or [ValueError], when the input does not even fit the
    scaling array or the interpolation matrix) on every input, whether
    [plan1] returned 0 or raised. *)
Theorem plan1_leaves_transforms_unusable hp1 pc self om Nd_ Kd_ Jd_ fa cs fd x :
  multi_Kd self = None ->
  let op := snd (plan1 hp1 pc self om Nd_ Kd_ Jd_ fa cs) in
  (forward fd op x = Raise AttributeError \/ forward fd op x = Raise ValueError) /\
  (adjoint fd op x = Raise AttributeError \/ adjoint fd op x = Raise ValueError) /\
  (selfadjoint fd op x = Raise AttributeError \/
   selfadjoint fd op x = Raise ValueError).
Proof.
  intros H op.
  assert (Hop : multi_Kd op = None).
  { unfold op. rewrite plan1_keeps_multi_Kd. exact H. }
  split; [apply forward_needs_multi_Kd; exact Hop|].
  split; [apply adjoint_needs_multi_Kd; exact Hop|].
  rewrite selfadjoint_unfold.
  destruct (@forward_needs_multi_Kd fd op x Hop) as [-> | ->]; [left|right]; reflexivity.
Qed.

Definition hp1_0 (om : Om) (Nd_ Kd_ Jd_ axes : list nat) (cs : ndarray) : result St :=
  Ok st0.

Lemma plan1_leaves_transforms_unusable_witness :
  fst (plan1 hp1_0 preindex_copy init [[0%R]] [1] [2] [1] None x0) = Ok 0%Z /\
  let op := snd (plan1 hp1_0 preindex_copy init [[0%R]] [1] [2] [1] None x0) in
  (forward numpy1_fft_dtype op x0 = Raise AttributeError \/
   forward numpy1_fft_dtype op x0 = Raise ValueError) /\
  (adjoint numpy1_fft_dtype op x0 = Raise AttributeError \/
   adjoint numpy1_fft_dtype op x0 = Raise ValueError) /\
  (selfadjoint numpy1_fft_dtype op x0 = Raise AttributeError \/
   selfadjoint numpy1_fft_dtype op x0 = Raise ValueError).
Proof.
  split; [reflexivity|].
  apply (@plan1_leaves_transforms_unusable hp1_0 preindex_copy init
           [[0%R]] [1] [2] [1] None x0 numpy1_fft_dtype x0).
  reflexivity.
Defined.

(* ================================================================== *)
(** ** [NUFFT.truncate_selfadjoint] of [transform_cpu.py] *)
(* ================================================================== *)

(** [v == 0] on one stored value. *)
Definition is_zero (v : C) : bool :=
  if Req_dec_T (fst v) 0 then (if Req_dec_T (snd v) 0 then true else false)
  else false.

(** [m.eliminate_zeros()]: the stored zeros are dropped. *)
Definition eliminate_zeros (m : spmatrix) : spmatrix :=
  mk_spmatrix (sp_dt m) (sp_shape m)
    (filter (fun e => negb (is_zero (snd e))) (entries m)).

Lemma is_zero_C0 : is_zero C0 = true.
Proof.
  unfold is_zero, C0; simpl.
  destruct (Req_dec_T 0 0) as [_|H]; [reflexivity | contradiction H; reflexivity].
Qed.

Lemma is_zero_spec v : is_zero v = true <-> v = C0.
Proof.
  destruct v as [a b]. unfold is_zero, C0; simpl.
  destruct (Req_dec_T a 0) as [->|Ha]; [destruct (Req_dec_T b 0) as [->|Hb]|];
    split; intros H; try reflexivity; try discriminate;
    injection H; intros; contradiction.
Qed.

Lemma filter_filter_imp {A} (f g : A -> bool) l :
  (forall a, g a = true -> f a = true) ->
  filter g (filter f l) = filter g l.
Proof.
  intros H. induction l as [|a l IH]; simpl; [reflexivity|].
  destruct (f a) eqn:Ef; simpl.
  - rewrite IH. reflexivity.
  - destruct (g a) eqn:Eg; [|exact IH].
    apply H in Eg. congruence.
Qed.

Lemma filter_filter_sub {A} (f g : A -> bool) l :
  (forall a, f a = true -> g a = true) ->
  filter g (filter f l) = filter f l.
Proof.
  intros H. induction l as [|a l IH]; simpl; [reflexivity|].
  destruct (f a) eqn:Ef; simpl; [|exact IH].
  rewrite (H a Ef), IH. reflexivity.
Qed.

Section Truncate.

(** [numpy.abs(v) < tol] on one stored value, as numpy evaluates it: the
    modulus is computed, and compared with [tol], in the floating-point
    precision of the matrix, so the outcome near [tol] is not that of the
    comparison of real numbers.  What the comparison keeps from it is that
    a larger tolerance never turns it from true to false (rounding is
    monotone). *)
Variable abs_lt : C -> R -> bool.
Hypothesis abs_lt_mono :
  forall v t1 t2, (t1 <= t2)%R -> abs_lt v t1 = true -> abs_lt v t2 = true.

(** [truncate_selfadjoint(self, tol)] on the dictionary entry
    [self.st['pHp']]: the stored values for which [numpy.abs(v) < tol]
    holds are set to 0, then the stored zeros are eliminated.  The result
    is the matrix the entry holds after the call. *)
Definition truncate_selfadjoint (pHp : option spmatrix) (tol : R)
  : result spmatrix :=
  m <- key pHp ;;
  let m1 := mk_spmatrix (sp_dt m) (sp_shape m)
              (map (fun e => if abs_lt (snd e) tol then (fst e, C0) else e)
                   (entries m)) in
  Ok (eliminate_zeros m1).

(** The entries kept by the truncation. *)
Definition kept (tol : R) (e : nat * nat * C) : bool :=
  negb (abs_lt (snd e) tol) && negb (is_zero (snd e)).

Lemma truncate_entries es tol :
  filter (fun e => negb (is_zero (snd e)))
    (map (fun e : nat * nat * C => if abs_lt (snd e) tol then (fst e, C0) else e) es) =
  filter (kept tol) es.
Proof.
  induction es as [|e es IH]; simpl; [reflexivity|].
  unfold kept at 1. destruct (abs_lt (snd e) tol); simpl.
  - rewrite is_zero_C0. simpl. exact IH.
  - destruct (is_zero (snd e)); simpl; rewrite IH; reflexivity.
Qed.

Lemma kept_mono t1 t2 e : (t1 <= t2)%R -> kept t2 e = true -> kept t1 e = true.
Proof.
  unfold kept. intros Ht H. apply andb_true_iff in H. destruct H as [H1 H2].
  rewrite H2, andb_true_r. apply negb_true_iff. apply negb_true_iff in H1.
  destruct (abs_lt (snd e) t1) eqn:E; [|reflexivity].
  rewrite (@abs_lt_mono (snd e) t1 t2 Ht E) in H1. discriminate.
Qed.

(** [truncate_selfadjoint]: without the key ['pHp'] the call raises
    [KeyError]; otherwise it keeps, in their order and with their values,
    exactly the stored entries that are non-zero and for which numpy's
    comparison [abs(v) < tol] is false, and leaves shape and dtype alone.
    Truncating again with the same or a smaller tolerance changes nothing,
    and truncating with [t1] and then with a larger [t2] is truncating with
    [t2]. *)
Theorem truncate_selfadjoint_keeps_large m tol :
  truncate_selfadjoint None tol = Raise KeyError /\
  exists m',
    truncate_selfadjoint (Some m) tol = Ok m' /\
    sp_shape m' = sp_shape m /\ sp_dt m' = sp_dt m /\
    entries m' = filter (kept tol) (entries m) /\
    (forall e, In e (entries m') <->
       In e (entries m) /\ abs_lt (snd e) tol = false /\ snd e <> C0) /\
    (forall t, (t <= tol)%R -> truncate_selfadjoint (Some m') t = Ok m') /\
    (forall t, (tol <= t)%R ->
       truncate_selfadjoint (Some m') t = truncate_selfadjoint (Some m) t).
Proof.
  split; [reflexivity|].
  eexists. split; [reflexivity|]. split; [reflexivity|]. split; [reflexivity|].
  unfold eliminate_zeros. cbn [entries sp_dt sp_shape].
  rewrite truncate_entries. split; [reflexivity|]. split; [|split].
  - intros e. rewrite filter_In. unfold kept.
    rewrite andb_true_iff, !negb_true_iff.
    split; intros (H1 & H2 & H3); split; auto.
    + split; [assumption|].
      intros E. apply is_zero_spec in E. congruence.
    + split; [assumption|].
      destruct (is_zero (snd e)) eqn:E; [|reflexivity].
      apply is_zero_spec in E. contradiction.
  - intros t Ht. unfold truncate_selfadjoint, eliminate_zeros.
    cbn [key bind entries sp_dt sp_shape].
    rewrite truncate_entries. do 2 f_equal.
    apply filter_filter_sub. intros a. apply kept_mono. assumption.
  - intros t Ht. unfold truncate_selfadjoint, eliminate_zeros.
    cbn [key bind entries sp_dt sp_shape].
    rewrite !truncate_entries. do 2 f_equal.
    apply filter_filter_imp. intros a. apply kept_mono. assumption.
Qed.

End Truncate.

(** The comparison over exact arithmetic, one instance of numpy's. *)
Definition abs_lt_exact (v : C) (tol : R) : bool :=
  if Rlt_dec (Cmod v) tol then true else false.

Lemma abs_lt_exact_mono v t1 t2 :
  (t1 <= t2)%R -> abs_lt_exact v t1 = true -> abs_lt_exact v t2 = true.
Proof.
  unfold abs_lt_exact. intros Ht.
  destruct (Rlt_dec (Cmod v) t1) as [H1|H1]; [|discriminate].
  destruct (Rlt_dec (Cmod v) t2) as [H2|H2]; [reflexivity | lra].
Qed.

(** A 1 x 3 matrix with the stored values 1, 0 and 1/4. *)
Definition pHp0 : spmatrix :=
  mk_spmatrix complex64 (1, 3) [(0, 0, C1); (0, 1, C0); (0, 2, Cof_R (/ 4))].

Lemma truncate_selfadjoint_keeps_large_witness :
  truncate_selfadjoint abs_lt_exact None (/ 2) = Raise KeyError /\
  exists m',
    truncate_selfadjoint abs_lt_exact (Some pHp0) (/ 2) = Ok m' /\
    sp_shape m' = sp_shape pHp0 /\ sp_dt m' = sp_dt pHp0 /\
    entries m' = filter (kept abs_lt_exact (/ 2)) (entries pHp0) /\
    (forall e, In e (entries m') <->
       In e (entries pHp0) /\ abs_lt_exact (snd e) (/ 2) = false /\ snd e <> C0) /\
    (forall t, (t <= / 2)%R -> truncate_selfadjoint abs_lt_exact (Some m') t = Ok m') /\
    (forall t, (/ 2 <= t)%R ->
       truncate_selfadjoint abs_lt_exact (Some m') t =
       truncate_selfadjoint abs_lt_exact (Some pHp0) t).
Proof.
  apply (@truncate_selfadjoint_keeps_large abs_lt_exact abs_lt_exact_mono pHp0 (/ 2)%R).
Defined.

(* ================================================================== *)
(** ** Batch mode, channel by channel *)
(* ================================================================== *)

(** Channel [b] of a buffer whose last axis has [B] cells: [a[..., b]]. *)
Definition channel (B b : nat) (d : list C) : list C :=
  map (fun i => nth (i * B + b) d C0) (seq 0 (length d / B)).

(** [x[..., b]] for an array whose last axis has [B] cells. *)
Definition take_channel (B b : nat) (x : ndarray) : ndarray :=
  mk_ndarray (dt x) (removelast (shape x)) (channel B b (data x)).

Lemma channel_length B b d n :
  0 < B -> length d = n * B -> length (channel B b d) = n.
Proof.
  intros HB Hd. unfold channel. rewrite length_map, length_seq, Hd.
  apply Nat.div_mul. lia.
Qed.

Lemma nth_channel B b d n i :
  b < B -> length d = n * B ->
  nth i (channel B b d) C0 = nth (i * B + b) d C0.
Proof.
  intros Hb Hd. unfold channel. rewrite Hd, Nat.div_mul by lia.
  destruct (Nat.lt_ge_cases i n) as [Hi|Hi].
  - rewrite nth_map_seq by assumption. reflexivity.
  - rewrite !nth_overflow; [reflexivity | nia |].
    rewrite length_map, length_seq. assumption.
Qed.

Lemma channel_app B b l1 l2 m1 m2 :
  b < B -> length l1 = m1 * B -> length l2 = m2 * B ->
  channel B b (l1 ++ l2) = channel B b l1 ++ channel B b l2.
Proof.
  intros Hb H1 H2.
  assert (HB : 0 < B) by lia.
  assert (H12 : length (l1 ++ l2) = (m1 + m2) * B) by (rewrite length_app; lia).
  pose proof (@channel_length B b _ _ HB H12) as L12.
  pose proof (@channel_length B b _ _ HB H1) as L1.
  pose proof (@channel_length B b _ _ HB H2) as L2.
  apply nth_ext with (d := C0) (d' := C0).
  - rewrite length_app. lia.
  - intros i _.
    rewrite (@nth_channel B b _ _ i Hb H12).
    destruct (Nat.lt_ge_cases i m1) as [Hi|Hi].
    + rewrite !app_nth1 by (try rewrite L1; nia).
      symmetry. apply (@nth_channel B b _ _ i Hb H1).
    + rewrite !app_nth2 by (try rewrite L1; nia).
      rewrite L1, H1, (@nth_channel B b _ _ (i - m1) Hb H2).
      f_equal. nia.
Qed.

Lemma channel_flat_map B b P (g : nat -> list C) l :
  b < B -> (forall k, length (g k) = P * B) ->
  channel B b (flat_map g l) = flat_map (fun k => channel B b (g k)) l.
Proof.
  intros Hb Hg. induction l as [|k l IH]; simpl.
  - unfold channel. simpl. rewrite Nat.Div0.div_0_l. reflexivity.
  - rewrite (@channel_app B b (g k) (flat_map g l) P (length l * P)); auto.
    + rewrite IH. reflexivity.
    + rewrite flat_map_constant_length with (c := P * B) by (intros; apply Hg). lia.
Qed.

Lemma channel_map B b c d :
  channel B b (map (Cmul c) d) = map (Cmul c) (channel B b d).
Proof.
  unfold channel. rewrite length_map, map_map. apply map_ext. intros i.
  destruct (Nat.lt_ge_cases (i * B + b) (length d)) as [H|H].
  - rewrite nth_indep with (d' := Cmul c C0) by (rewrite length_map; assumption).
    apply map_nth.
  - rewrite !nth_overflow by (rewrite ?length_map; assumption).
    symmetry. apply Cmul_0_r.
Qed.

Lemma flat_map_flat_map {A B D} (f : B -> list D) (g : A -> list B) l :
  flat_map f (flat_map g l) = flat_map (fun x => flat_map f (g x)) l.
Proof.
  induction l as [|x l IH]; simpl; [reflexivity|].
  rewrite flat_map_app, IH. reflexivity.
Qed.

(** An array whose last axis has one cell, expanded along that axis. *)
Lemma bcast_batch s B d :
  length d = prod s ->
  bcast (s ++ [1]) (s ++ [B]) d = flat_map (fun z => repeat z B) d.
Proof.
  revert d; induction s as [|a s IH]; intros d Hd.
  - destruct d as [|z [|z' d]]; simpl in Hd; try discriminate.
    cbn [app bcast]. destruct (1 =? B) eqn:E.
    + apply Nat.eqb_eq in E. subst B. reflexivity.
    + transitivity (flat_map (fun _ : nat => repeat z 1) (seq 0 B)); [reflexivity|].
      rewrite (flat_map_const_repeat z 1 B 0).
      simpl. rewrite app_nil_r, Nat.mul_1_r. reflexivity.
  - cbn [app bcast]. rewrite Nat.eqb_refl. simpl in Hd.
    rewrite (@flat_map_ext_in _ _ _
      (fun i => flat_map (fun z => repeat z B) (chunk (prod s) i d))).
    + rewrite <- flat_map_flat_map. rewrite flat_map_chunks by lia. reflexivity.
    + intros i Hi. apply in_seq in Hi. rewrite prod_app. simpl. rewrite Nat.mul_1_r.
      apply IH. apply chunk_length. nia.
Qed.

Lemma multiply_batch_data a b s n :
  shape a = s ++ [n] -> shape b = s ++ [1] -> wf_array a -> wf_array b ->
  multiply a b =
  Ok (mk_ndarray (result_type (dt a) (dt b)) (s ++ [n])
        (map2 Cmul (data a) (flat_map (fun z => repeat z n) (data b)))).
Proof.
  intros Ha Hb Hwa Hwb. unfold multiply, broadcast_to. rewrite Ha, Hb.
  rewrite broadcast_shapes_batch.
  replace (length (s ++ [n])) with (length (s ++ [1])) at 2
    by (rewrite !length_app; reflexivity).
  rewrite !pad_shape_same.
  rewrite bcast_same by (rewrite <- Ha; assumption).
  rewrite bcast_batch; [reflexivity|].
  unfold wf_array in Hwb. rewrite Hb, prod_app in Hwb. simpl in Hwb. lia.
Qed.

Lemma nth_flat_map_repeat B (l : list C) i b :
  b < B -> nth (i * B + b) (flat_map (fun z => repeat z B) l) C0 = nth i l C0.
Proof.
  intros Hb. revert i; induction l as [|z l IH]; intros i; simpl.
  - destruct (i * B + b), i; reflexivity.
  - destruct i as [|i].
    + rewrite app_nth1 by (rewrite repeat_length; lia).
      simpl. apply nth_repeat_lt. lia.
    + rewrite app_nth2 by (rewrite repeat_length; nia).
      rewrite repeat_length.
      replace (S i * B + b - B) with (i * B + b) by nia. apply IH.
Qed.

Lemma length_flat_map_repeat B (l : list C) :
  length (flat_map (fun z => repeat z B) l) = length l * B.
Proof.
  rewrite flat_map_constant_length with (c := B); [reflexivity|].
  intros; apply repeat_length.
Qed.

(** Channel [b] of [x * sn], [sn] having one cell along the last axis. *)
Lemma channel_scale B b x sn_ :
  b < B -> length x = length sn_ * B ->
  channel B b (map2 Cmul x (flat_map (fun z => repeat z B) sn_)) =
  map2 Cmul (channel B b x) sn_.
Proof.
  intros Hb Hx. assert (HB : 0 < B) by lia.
  assert (Hm : length (map2 Cmul x (flat_map (fun z => repeat z B) sn_)) =
               length sn_ * B).
  { rewrite map2_length, length_flat_map_repeat. lia. }
  pose proof (@channel_length B b _ _ HB Hm) as L1.
  pose proof (@channel_length B b _ _ HB Hx) as L2.
  apply nth_ext with (d := C0) (d' := C0).
  - rewrite map2_length. lia.
  - rewrite L1. intros i Hi.
    rewrite (@nth_channel B b _ _ i Hb Hm).
    rewrite nth_map2 with (da := C0) (db := C0)
      by (rewrite ?length_flat_map_repeat; nia).
    rewrite nth_map2 with (da := C0) (db := C0) by lia.
    rewrite nth_flat_map_repeat by assumption.
    rewrite (@nth_channel B b _ _ i Hb Hx). reflexivity.
Qed.

(** Channel [b] of the copy loop over all channels is the copy loop of
    channel [b]. *)
Lemma channel_copy_loop si di B b src nS nD :
  length si = length di -> NoDup di -> b < B -> length src = nS * B ->
  channel B b (copy_loop si di B src (repeat C0 (nD * B))) =
  copy_loop si di 1 (channel B b src) (repeat C0 nD).
Proof.
  intros Hlen Hnd Hb Hsrc. assert (HB : 0 < B) by lia.
  assert (Hl : length (copy_loop si di B src (repeat C0 (nD * B))) = nD * B).
  { rewrite copy_loop_length, repeat_length. reflexivity. }
  pose proof (@channel_length B b _ _ HB Hl) as L1.
  apply nth_ext with (d := C0) (d' := C0).
  - rewrite L1, copy_loop_length, repeat_length. reflexivity.
  - rewrite L1. intros q Hq.
    rewrite (@nth_channel B b _ _ q Hb Hl).
    destruct (in_dec Nat.eq_dec q di) as [Hin|Hnin].
    + apply In_nth_error in Hin. destruct Hin as (i & Hi).
      assert (Hs : exists a, nth_error si i = Some a).
      { destruct (nth_error si i) eqn:E; eauto.
        apply nth_error_None in E.
        assert (i < length di) by (apply nth_error_Some; congruence). lia. }
      destruct Hs as (a & Ha).
      rewrite copy_loop_hit with (i := i) (sq := a); auto;
        [|rewrite repeat_length; nia].
      transitivity (nth (q * 1 + 0) (copy_loop si di 1 (channel B b src)
                                       (repeat C0 nD)) C0);
        [|f_equal; lia].
      rewrite copy_loop_hit with (i := i) (sq := a); auto;
        [|rewrite repeat_length; lia].
      replace (a * 1 + 0) with a by lia.
      symmetry. apply (@nth_channel B b src nS a Hb Hsrc).
    + rewrite copy_loop_miss.
      * rewrite copy_loop_miss.
        -- rewrite !nth_repeat. reflexivity.
        -- intros bat i Hbat Hi E. apply Hnin.
           replace q with i by lia. assumption.
      * intros bat i Hbat Hi E. apply Hnin.
        assert (q = i) by (destruct (Nat.lt_trichotomy q i) as [|[|]]; nia).
        subst. assumption.
Qed.

Lemma prod_snoc s B : prod (s ++ [B]) = prod s * B.
Proof. rewrite prod_app. simpl. lia. Qed.

Lemma channel_flatten s B b f :
  b < B -> channel B b (flatten (s ++ [B]) f) = flatten s (fun mi => f (mi ++ [b])).
Proof.
  intros Hb. revert f; induction s as [|n s IH]; intros f.
  - change ([] ++ [B]) with [B].
    change (flatten [] (fun mi => f (mi ++ [b]))) with [f [b]].
    assert (Hl : length (flatten [B] f) = 1 * B).
    { rewrite flatten_length. simpl. lia. }
    assert (HB : 0 < B) by lia.
    pose proof (@channel_length B b _ 1 HB Hl) as L.
    apply nth_ext with (d := C0) (d' := C0); [exact L|].
    rewrite L. intros i Hi.
    assert (i = 0) by lia. subst i.
    rewrite (@nth_channel B b _ 1 0 Hb Hl).
    pose proof (@nth_flatten [B] f [b] C0) as H.
    change (ravel_index [B] [b]) with (b * 1 + 0) in H.
    replace (0 * B + b) with (b * 1 + 0) by lia.
    rewrite H by (repeat constructor; assumption). reflexivity.
  - cbn [app flatten].
    rewrite (@channel_flat_map B b (prod s)); auto.
    + apply flat_map_ext. intros k. apply IH.
    + intros k. rewrite flatten_length. apply prod_snoc.
Qed.

Lemma ravel_index_snoc s B mi b :
  valid s mi -> ravel_index (s ++ [B]) (mi ++ [b]) = ravel_index s mi * B + b.
Proof.
  induction 1 as [|k n mi s Hk H IH]; simpl; [lia|].
  rewrite IH, prod_snoc. lia.
Qed.

Lemma channel_unflatten s B b d mi :
  b < B -> length d = prod s * B -> valid s mi ->
  unflatten (s ++ [B]) d (mi ++ [b]) = unflatten s (channel B b d) mi.
Proof.
  intros Hb Hd Hmi. unfold unflatten.
  rewrite ravel_index_snoc by assumption.
  symmetry. apply (@nth_channel B b d (prod s) _ Hb Hd).
Qed.

Lemma set_axis_snoc a j mi b :
  a < length mi -> set_axis a j (mi ++ [b]) = set_axis a j mi ++ [b].
Proof.
  revert a; induction mi as [|k mi IH]; intros [|a] H; simpl in *; try lia; auto.
  f_equal. apply IH. lia.
Qed.

Lemma dft_axis_snoc sg s B a g mi b :
  a < length s -> valid s mi ->
  dft_axis sg (s ++ [B]) a g (mi ++ [b]) =
  dft_axis sg s a (fun m => g (m ++ [b])) mi.
Proof.
  intros Ha Hmi. pose proof (valid_length Hmi) as Hl.
  unfold dft_axis. rewrite !app_nth1 by lia.
  apply Csum_ext. intros j _.
  rewrite set_axis_snoc by lia. reflexivity.
Qed.

Lemma channel_dft sg s B b a d :
  b < B -> a < length s -> length d = prod s * B ->
  channel B b (flatten (s ++ [B]) (dft_axis sg (s ++ [B]) a (unflatten (s ++ [B]) d))) =
  flatten s (dft_axis sg s a (unflatten s (channel B b d))).
Proof.
  intros Hb Ha Hd. rewrite channel_flatten by assumption.
  apply flatten_ext. intros mi Hmi.
  rewrite dft_axis_snoc by assumption.
  apply dft_axis_ext; [|assumption].
  intros m Hm. apply channel_unflatten; assumption.
Qed.

Lemma channel_fft_data s B b a d :
  b < B -> a < length s -> length d = prod s * B ->
  channel B b (fft_data (s ++ [B]) a d) = fft_data s a (channel B b d).
Proof. intros. unfold fft_data. apply channel_dft; assumption. Qed.

Lemma channel_ifft_data s B b a d :
  b < B -> a < length s -> length d = prod s * B ->
  channel B b (ifft_data (s ++ [B]) a d) = ifft_data s a (channel B b d).
Proof.
  intros Hb Ha Hd. unfold ifft_data.
  rewrite channel_map, channel_dft by assumption.
  rewrite app_nth1 by assumption. reflexivity.
Qed.

Lemma channel_fold_fft s B b axes d :
  b < B -> Forall (fun a => a < length s) axes -> length d = prod s * B ->
  channel B b (fold_right (fft_data (s ++ [B])) d axes) =
  fold_right (fft_data s) (channel B b d) axes.
Proof.
  intros Hb Hax Hd. induction Hax as [|a axes Ha Hax IH]; simpl; [reflexivity|].
  rewrite channel_fft_data; auto.
  - rewrite IH. reflexivity.
  - rewrite fold_fft_length; rewrite prod_snoc; auto.
Qed.

Lemma channel_fold_ifft s B b axes d :
  b < B -> Forall (fun a => a < length s) axes -> length d = prod s * B ->
  channel B b (fold_right (ifft_data (s ++ [B])) d axes) =
  fold_right (ifft_data s) (channel B b d) axes.
Proof.
  intros Hb Hax Hd. induction Hax as [|a axes Ha Hax IH]; simpl; [reflexivity|].
  rewrite channel_ifft_data; auto.
  - rewrite IH. reflexivity.
  - rewrite fold_ifft_length; rewrite prod_snoc; auto.
Qed.

(** Column [b] of the sparse product is the product with column [b]. *)
Lemma channel_spmm es rows B b x n :
  b < B -> length x = n * B ->
  channel B b (spmm es rows B x) = spmm es rows 1 (channel B b x).
Proof.
  intros Hb Hx. assert (HB : 0 < B) by lia.
  pose proof (spmm_length es rows B x) as Hl.
  apply nth_ext with (d := C0) (d' := C0).
  - rewrite (@channel_length B b _ rows HB Hl), spmm_length. lia.
  - rewrite (@channel_length B b _ rows HB Hl). intros r Hr.
    rewrite (@nth_channel B b _ rows r Hb Hl).
    unfold spmm at 1.
    rewrite nth_flat_map_blocks with (P := B);
      [| intros; rewrite length_map, length_seq; reflexivity | assumption | assumption].
    rewrite nth_map_seq by assumption.
    rewrite spmm_1, nth_map_seq by assumption.
    apply row_sum_ext. intros c. simpl.
    symmetry. apply (@nth_channel B b x n c Hb Hx).
Qed.

Section BatchChannels.

(** The arguments of [plan] and a builder whose dictionary conforms to its
    interface, as for [planned]. *)
Variable hp : Om -> list nat -> list nat -> list nat -> list nat -> result St.
Variable pc : list nat -> list nat -> result (list nat * list nat * nat).
Variables (self : NUFFT_cpu) (om : Om) (Nd_ Kd_ Jd_ : list nat).
Variable fa : option (list nat).
Variables (st0 : St) (p : spmatrix) (s : ndarray) (nd kd : list nat) (ne : nat).

Hypothesis Hhp : hp om Nd_ Kd_ Jd_ (default_axes fa Nd_) = Ok st0.
Hypothesis Hp : st_p st0 = Some p.
Hypothesis Hsn : st_sn st0 = Some s.
Hypothesis Hshp : sp_shape p = (st_M st0, prod (st_Kd st0)).
Hypothesis Hwfp : wf_spmatrix p.
Hypothesis Hss : shape s = st_Nd st0.
Hypothesis Hwfs : wf_array s.
Hypothesis Hle : Forall2 le (st_Nd st0) (st_Kd st0).
Hypothesis Hpos : Forall (lt 0) (st_Nd st0).
Hypothesis Hax : Forall (fun a => a < length (st_Kd st0)) (default_axes fa Nd_).
Hypothesis Hpc : pc (st_Nd st0) (st_Kd st0) = Ok (nd, kd, ne).
Hypothesis Htab : valid_tables (st_Nd st0) (st_Kd st0) nd kd.

(** The operator planned without [batch] and the one planned with
    [batch = B]. *)
Definition op_one : NUFFT_cpu := snd (plan hp pc self om Nd_ Kd_ Jd_ fa None).
Definition op_batch (B : nat) : NUFFT_cpu :=
  snd (plan hp pc self om Nd_ Kd_ Jd_ fa (Some B)).

Lemma sn_data_length : length (data s) = prod (st_Nd st0).
Proof. unfold wf_array in Hwfs. rewrite Hss in Hwfs. exact Hwfs. Qed.

Lemma view_one :
  planned_view op_one (st_Nd st0) (st_Kd st0) (st_M st0) 1 [] [] p (data s)
    nd kd (default_axes fa Nd_).
Proof.
  unfold op_one, plan. fold (default_axes fa Nd_).
  rewrite Hhp, Hsn. simpl. rewrite Hp, Hpc. simpl.
  constructor; simpl; rewrite ?app_nil_r; unfold astype; rewrite ?Hss; auto.
  - eexists; split; reflexivity.
  - apply sn_data_length.
Qed.

Lemma view_batch B :
  0 < B ->
  planned_view (op_batch B) (st_Nd st0) (st_Kd st0) (st_M st0) B [B] [1] p (data s)
    nd kd (default_axes fa Nd_).
Proof.
  intros HB. unfold op_batch, plan. fold (default_axes fa Nd_).
  rewrite Hhp, Hsn. unfold reshape. simpl.
  rewrite Hss, prod_app. simpl. rewrite Nat.mul_1_r, Nat.eqb_refl.
  simpl. rewrite Hp, Hpc. simpl.
  constructor; simpl; auto.
  - eexists; split; reflexivity.
  - apply sn_data_length.
Qed.


(** Batch mode transforms each channel as the one-channel operator does:
    for the operator planned with [batch = B] and the one planned without
    [batch] from the same arguments, channel [b] of [forward(x)] is
    [forward(x[..., b])] and channel [b] of [adjoint(y)] is
    [adjoint(y[..., b])], for every [x] of shape [Nd + (B,)], every [y] of
    shape [(M, B)] and every [b < B]. *)
Theorem batch_is_channelwise fd B b x y :
  b < B ->
  shape x = st_Nd st0 ++ [B] -> wf_array x ->
  shape y = [st_M st0; B] -> wf_array y ->
  (exists fy fy1,
     forward fd (op_batch B) x = Ok fy /\ shape fy = [st_M st0; B] /\
     forward fd op_one (take_channel B b x) = Ok fy1 /\
     shape fy1 = [st_M st0] /\ channel B b (data fy) = data fy1) /\
  (exists ax ax1,
     adjoint fd (op_batch B) y = Ok ax /\ shape ax = st_Nd st0 ++ [B] /\
     adjoint fd op_one (take_channel B b y) = Ok ax1 /\
     shape ax1 = st_Nd st0 /\ channel B b (data ax) = data ax1).
Proof.
  intros Hb Hsx Hwx Hsy Hwy. assert (HB : 0 < B) by lia.
  pose proof (view_batch HB) as VB. pose proof view_one as V1.
  pose proof sn_data_length as Hsl.
  destruct Htab as (Hlen & Hperm & Hnd & Hlt).
  assert (HNd : NoDup nd).
  { eapply Permutation_NoDup; [symmetry; exact Hperm | apply seq_NoDup]. }
  assert (Hxl : length (data x) = prod (st_Nd st0) * B).
  { unfold wf_array in Hwx. rewrite Hsx, prod_snoc in Hwx. exact Hwx. }
  assert (Hyl : length (data y) = st_M st0 * B).
  { unfold wf_array in Hwy. rewrite Hsy in Hwy. simpl in Hwy. lia. }
  split.
  - (* forward *)
    unfold forward at 1. unfold x2xx. rewrite (pv_sn VB). cbn [attr bind].
    rewrite (@multiply_batch_data x
               (mk_ndarray (self_dtype (op_batch B)) (st_Nd st0 ++ [1]) (data s))
               (st_Nd st0) B Hsx eq_refl Hwx)
      by (unfold wf_array; simpl; rewrite prod_snoc; lia).
    cbn [bind].
    rewrite (xx2k_ok fd VB) by (simpl; rewrite prod_snoc; lia).
    cbn [bind]. rewrite (k2y_ok VB) by reflexivity.
    rewrite (@forward_single fd op_one _ _ _ _ _ _ _ _ _ _ _ (take_channel B b x) V1).
    + eexists _, _. split; [reflexivity|]. split; [reflexivity|].
      split; [reflexivity|]. split; [reflexivity|]. cbn [data].
      unfold forward_data.
      rewrite (@channel_spmm _ _ B b _ (prod (st_Kd st0)) Hb).
      2:{ rewrite fold_fft_length; rewrite prod_snoc; auto.
          rewrite copy_loop_length, repeat_length. reflexivity. }
      rewrite channel_fold_fft; auto.
      2:{ rewrite copy_loop_length, repeat_length. reflexivity. }
      rewrite (@channel_copy_loop nd kd B b _ (prod (st_Nd st0)) _ Hlen Hnd Hb).
      2:{ rewrite map2_length, length_flat_map_repeat. lia. }
      rewrite channel_scale by (auto; lia).
      reflexivity.
    + apply (pv_flag V1).
    + unfold take_channel. simpl. rewrite Hsx. apply removelast_last.
    + unfold wf_array, take_channel. simpl.
      rewrite Hsx, removelast_last. apply (@channel_length B b _ _ HB Hxl).
  - (* adjoint *)
    unfold adjoint at 1. rewrite (y2k_ok VB) by assumption. cbn [bind].
    rewrite (k2xx_ok fd VB) by reflexivity. cbn [bind].
    unfold xx2x, x2xx. rewrite (pv_sn VB). cbn [attr bind].
    rewrite (@multiply_batch_data _ _ (st_Nd st0) B);
      [ | reflexivity | reflexivity
        | unfold wf_array; simpl;
          rewrite copy_loop_length, repeat_length, prod_snoc; reflexivity
        | unfold wf_array; simpl; rewrite prod_snoc; lia ].
    rewrite (@adjoint_single fd op_one _ _ _ _ _ _ _ _ _ _ _ (take_channel B b y) V1).
    + eexists _, _. split; [reflexivity|]. split; [reflexivity|].
      split; [reflexivity|]. split; [reflexivity|]. cbn [data].
      unfold adjoint_data.
      rewrite channel_scale
        by (auto; rewrite copy_loop_length, repeat_length; lia).
      rewrite (@channel_copy_loop kd nd B b _ (prod (st_Kd st0)) _
                 (eq_sym Hlen) HNd Hb).
      2:{ rewrite fold_ifft_length; rewrite prod_snoc; auto.
          rewrite spmm_length. reflexivity. }
      rewrite channel_fold_ifft; auto.
      2:{ rewrite spmm_length. reflexivity. }
      rewrite (@channel_spmm _ _ B b _ (st_M st0) Hb Hyl).
      reflexivity.
    + apply (pv_flag V1).
    + unfold take_channel. simpl. rewrite Hsy. reflexivity.
Qed.

End BatchChannels.

Definition x_two : ndarray := mk_ndarray complex64 [1; 2] [C1; C0].

Lemma batch_is_channelwise_witness :
  (exists fy fy1,
     forward numpy1_fft_dtype
       (op_batch hp0 preindex_copy init [[0%R]] [1] [2] [1] None 2) x_two = Ok fy /\
     shape fy = [st_M st0; 2] /\
     forward numpy1_fft_dtype
       (op_one hp0 preindex_copy init [[0%R]] [1] [2] [1] None)
       (take_channel 2 1 x_two) = Ok fy1 /\
     shape fy1 = [st_M st0] /\ channel 2 1 (data fy) = data fy1) /\
  (exists ax ax1,
     adjoint numpy1_fft_dtype
       (op_batch hp0 preindex_copy init [[0%R]] [1] [2] [1] None 2) x_two = Ok ax /\
     shape ax = st_Nd st0 ++ [2] /\
     adjoint numpy1_fft_dtype
       (op_one hp0 preindex_copy init [[0%R]] [1] [2] [1] None)
       (take_channel 2 1 x_two) = Ok ax1 /\
     shape ax1 = st_Nd st0 /\ channel 2 1 (data ax) = data ax1).
Proof.
  apply (@batch_is_channelwise hp0 preindex_copy init [[0%R]] [1] [2] [1] None
           st0 p0 sn0 [0] [0] 1).
  - reflexivity.
  - reflexivity.
  - reflexivity.
  - reflexivity.
  - repeat constructor.
  - reflexivity.
  - reflexivity.
  - repeat constructor.
  - repeat constructor.
  - repeat constructor.
  - reflexivity.
  - exact valid_tables_0.
  - lia.
  - reflexivity.
  - reflexivity.
  - reflexivity.
  - reflexivity.
Defined.

(* ================================================================== *)
(** ** A [plan] whose builder fails *)
(* ================================================================== *)

(** An interpolator builder that always raises. *)
Definition hp_raises (e : exn) (om : Om) (Nd_ Kd_ Jd_ axes : list nat)
  : result St := Raise e.

(** [plan] on a new object when the interpolator builder fails.  When the
    builder raises, [plan] propagates the exception and the object is the
    new one with [ndims] and [ft_axes] assigned, nothing else.  When the
    builder returns a dictionary without ['sn'], [plan] raises [KeyError]
    and the object is the new one with [ndims], [ft_axes], [st], [Nd] and
    [Kd] assigned, nothing else.  On either object every transform raises
    [AttributeError] on every input; [selfadjoint2] then also runs
    [_precompute_sp], which prints its message and re-raises, and assigns
    nothing. *)
Theorem failed_plan_leaves_unusable hp pc om Nd_ Kd_ Jd_ fa b e fd x :
  (hp om Nd_ Kd_ Jd_ (default_axes fa Nd_) = Raise e \/
   exists st1,
     hp om Nd_ Kd_ Jd_ (default_axes fa Nd_) = Ok st1 /\
     st_sn st1 = None /\ e = KeyError) ->
  exists op,
    plan hp pc init om Nd_ Kd_ Jd_ fa b = (Raise e, op) /\
    (hp om Nd_ Kd_ Jd_ (default_axes fa Nd_) = Raise e ->
     op = set_ft_axes (default_axes fa Nd_) (set_ndims (length Nd_) init)) /\
    (forall st1,
       hp om Nd_ Kd_ Jd_ (default_axes fa Nd_) = Ok st1 ->
       op = set_Kd (st_Kd st1) (set_Nd (st_Nd st1) (set_st st1
              (set_ft_axes (default_axes fa Nd_) (set_ndims (length Nd_) init))))) /\
    forward fd op x = Raise AttributeError /\
    adjoint fd op x = Raise AttributeError /\
    selfadjoint fd op x = Raise AttributeError /\
    k2y2k op x = Raise AttributeError /\
    k2y2k_single op x = Raise AttributeError /\
    selfadjoint2 fd op x =
    (Raise AttributeError, op,
     [Print "errors occur in self.precompute_sp()"%string]).
Proof.
  intros [H | [st1 [H [Hsn ->]]]]; unfold plan; fold (default_axes fa Nd_);
    rewrite H; [| rewrite Hsn];
    eexists; (split; [reflexivity|]).
  - split; [reflexivity|]. split; [intros st1 E; discriminate|].
    repeat split; reflexivity.
  - split; [intros E; discriminate|].
    split; [intros st2 E; injection E as <-; reflexivity|].
    repeat split; reflexivity.
Qed.

(** A builder whose dictionary has no ['sn']. *)
Definition st_no_sn : St := mk_St [[0%R]] [1] [2] [1] 1 (Some p0) None.
Definition hp_no_sn (om : Om) (Nd_ Kd_ Jd_ axes : list nat) : result St :=
  Ok st_no_sn.

Lemma failed_plan_leaves_unusable_witness :
  (exists op,
    plan (hp_raises ValueError) preindex_copy init [[0%R]] [1] [2] [1] None None
      = (Raise ValueError, op) /\
    (hp_raises ValueError [[0%R]] [1] [2] [1] (default_axes None [1]) = Raise ValueError ->
     op = set_ft_axes (default_axes None [1]) (set_ndims (length [1]) init)) /\
    (forall st1,
       hp_raises ValueError [[0%R]] [1] [2] [1] (default_axes None [1]) = Ok st1 ->
       op = set_Kd (st_Kd st1) (set_Nd (st_Nd st1) (set_st st1
              (set_ft_axes (default_axes None [1]) (set_ndims (length [1]) init))))) /\
    forward numpy1_fft_dtype op x0 = Raise AttributeError /\
    adjoint numpy1_fft_dtype op x0 = Raise AttributeError /\
    selfadjoint numpy1_fft_dtype op x0 = Raise AttributeError /\
    k2y2k op x0 = Raise AttributeError /\
    k2y2k_single op x0 = Raise AttributeError /\
    selfadjoint2 numpy1_fft_dtype op x0 =
    (Raise AttributeError, op,
     [Print "errors occur in self.precompute_sp()"%string])) /\
  (exists op,
    plan hp_no_sn preindex_copy init [[0%R]] [1] [2] [1] None None
      = (Raise KeyError, op) /\
    (hp_no_sn [[0%R]] [1] [2] [1] (default_axes None [1]) = Raise KeyError ->
     op = set_ft_axes (default_axes None [1]) (set_ndims (length [1]) init)) /\
    (forall st1,
       hp_no_sn [[0%R]] [1] [2] [1] (default_axes None [1]) = Ok st1 ->
       op = set_Kd (st_Kd st1) (set_Nd (st_Nd st1) (set_st st1
              (set_ft_axes (default_axes None [1]) (set_ndims (length [1]) init))))) /\
    forward numpy1_fft_dtype op x0 = Raise AttributeError /\
    adjoint numpy1_fft_dtype op x0 = Raise AttributeError /\
    selfadjoint numpy1_fft_dtype op x0 = Raise AttributeError /\
    k2y2k op x0 = Raise AttributeError /\
    k2y2k_single op x0 = Raise AttributeError /\
    selfadjoint2 numpy1_fft_dtype op x0 =
    (Raise AttributeError, op,
     [Print "errors occur in self.precompute_sp()"%string])).
Proof.
  split.
  - apply (@failed_plan_leaves_unusable (hp_raises ValueError) preindex_copy
             [[0%R]] [1] [2] [1] None None ValueError numpy1_fft_dtype x0).
    left; reflexivity.
  - apply (@failed_plan_leaves_unusable hp_no_sn preindex_copy
             [[0%R]] [1] [2] [1] None None KeyError numpy1_fft_dtype x0).
    right. exists st_no_sn. repeat split.
Defined.

(* ================================================================== *)
(** ** The precomputed product [spHsp] of [transform_cpu.py] *)
(* ================================================================== *)

Lemma getH_cols_lt p :
  wf_spmatrix p ->
  Forall (fun e : nat * nat * C => snd (fst e) < fst (sp_shape p))
         (entries (getH p)).
Proof.
  intros Hwf. unfold getH; cbn [entries]. rewrite Forall_map.
  eapply Forall_impl; [|exact Hwf]. intros e [H _]. exact H.
Qed.

(** [_precompute_sp] of the single-channel [NUFFT] succeeds whenever the
    dictionary holds ['p'], and the product [spHsp = p^H p] it stores makes
    [k2y2k] a Hermitian, positive semi-definite operator on the oversampled
    grid: [<k2y2k(k1), k2> = <k1, k2y2k(k2)>] and
    [<k, k2y2k(k)> = <k2y(k), k2y(k)>], which is real and non-negative. *)
Theorem spHsp_hermitian_psd Kd_ M p o k1 k2 :
  TransformCpu.Kd o = Some Kd_ -> TransformCpu.st_p o = Some p ->
  sp_shape p = (M, prod Kd_) -> wf_spmatrix p ->
  shape k1 = Kd_ -> shape k2 = Kd_ -> wf_array k1 -> wf_array k2 ->
  exists o' r1 r2 y1,
    TransformCpu._precompute_sp o = (Ok tt, o', []) /\
    TransformCpu.sp o' = Some p /\
    TransformCpu.k2y2k o' k1 = Ok r1 /\ TransformCpu.k2y2k o' k2 = Ok r2 /\
    TransformCpu.k2y o' k1 = Ok y1 /\
    shape r1 = Kd_ /\ shape r2 = Kd_ /\ shape y1 = [M] /\
    inner (data r1) (data k2) = inner (data k1) (data r2) /\
    inner (data k1) (data r1) = inner (data y1) (data y1) /\
    snd (inner (data k1) (data r1)) = 0%R /\
    (0 <= fst (inner (data k1) (data r1)))%R.
Proof.
  intros HKd Hp Hshape Hwf Hk1 Hk2 W1 W2.
  unfold TransformCpu._precompute_sp, sp_matmul. rewrite Hp. simpl.
  rewrite Hshape. simpl. rewrite Nat.eqb_refl. simpl.
  eexists _, _, _, _. split; [reflexivity|]. split; [reflexivity|].
  unfold TransformCpu.k2y2k, TransformCpu.k2y,
    TransformCpu.k2vec, TransformCpu.vec2y, TransformCpu.vec2k, reshape, dot, tocsr.
  simpl. rewrite HKd. simpl. rewrite Hk1, Hk2, Nat.mul_1_r, Nat.eqb_refl. simpl.
  rewrite Hshape. simpl. rewrite !Nat.eqb_refl. simpl.
  rewrite Nat.mul_1_r, Nat.eqb_refl.
  do 3 (split; [reflexivity|]).
  do 3 (split; [reflexivity|]).
  cbn [data].
  pose proof (getH_cols_lt Hwf) as Hc. rewrite Hshape in Hc. cbn [fst] in Hc.
  change (flat_map _ (map _ (entries p)))
    with (matmul_entries (entries (getH p)) (entries p)).
  rewrite !(@spmm_matmul _ (entries p) (prod Kd_) M _ Hc).
  unfold wf_array in W1, W2. rewrite Hk1 in W1. rewrite Hk2 in W2.
  assert (A : forall k y, length k = prod Kd_ -> length y = M ->
            inner (spmm (entries p) M 1 k) y =
            inner k (spmm (entries (getH p)) (prod Kd_) 1 y)).
  { intros k y Lk Ly.
    pose proof (@spmm_adjoint p k y Hwf) as H.
    rewrite Hshape in H. simpl in H. apply H; assumption. }
  assert (L : forall k, length (spmm (entries p) M 1 k) = M).
  { intros k. rewrite spmm_length. lia. }
  assert (E : inner (data k1) (spmm (entries (getH p)) (prod Kd_) 1
                                 (spmm (entries p) M 1 (data k1))) =
              inner (spmm (entries p) M 1 (data k1)) (spmm (entries p) M 1 (data k1))).
  { symmetry. apply A; [exact W1 | apply L]. }
  split; [|split; [exact E|]].
  - rewrite (inner_conj_sym _ (data k2)).
    rewrite <- (A (data k2) _ W2 (L _)).
    rewrite <- inner_conj_sym.
    apply A; [exact W1 | apply L].
  - rewrite E. apply inner_self_real.
Qed.

Lemma spHsp_hermitian_psd_witness :
  exists o' r1 r2 y1,
    TransformCpu._precompute_sp tnufft0 = (Ok tt, o', []) /\
    TransformCpu.sp o' = Some p0 /\
    TransformCpu.k2y2k o' (mk_ndarray complex64 [2] [C1; C0]) = Ok r1 /\
    TransformCpu.k2y2k o' (mk_ndarray complex64 [2] [C0; C1]) = Ok r2 /\
    TransformCpu.k2y o' (mk_ndarray complex64 [2] [C1; C0]) = Ok y1 /\
    shape r1 = [2] /\ shape r2 = [2] /\ shape y1 = [1] /\
    inner (data r1) [C0; C1] = inner [C1; C0] (data r2) /\
    inner [C1; C0] (data r1) = inner (data y1) (data y1) /\
    snd (inner [C1; C0] (data r1)) = 0%R /\
    (0 <= fst (inner [C1; C0] (data r1)))%R.
Proof.
  apply (@spHsp_hermitian_psd [2] 1 p0 tnufft0
           (mk_ndarray complex64 [2] [C1; C0]) (mk_ndarray complex64 [2] [C0; C1])).
  - reflexivity.
  - reflexivity.
  - reflexivity.
  - repeat constructor.
  - reflexivity.
  - reflexivity.
  - reflexivity.
  - reflexivity.
Defined.
